(** * A rule-based logical query optimizer: the rewrite pipeline of rules.py

    The development embeds the logical tree of [logical_tree.py] and the
    seven rewrite passes of [rules.py], and states the properties of the
    design document about them.  It goes on with the emitter of
    [sqlify.py] and the textual rewrite of [unnesting.py], and with
    further properties of the passes.

    Modelling conventions.
    - A Python [str] is a [string]; a character is a code point below 256,
      and the classes [\s] and [\w] of Python's [re] (and [str.split]) are
      the Unicode classes restricted to that range.
    - A raised Python exception ([IndexError], [ValueError], [KeyError]) is
      the result [None].
    - A Python [set] of strings is a [gset string].
    - The passes mutate the tree in place and return the (possibly new)
      root; the trees handed to the pipeline share no node, so each pass is
      a function from trees to trees.
    - The depth of Python's call stack is not bounded in the model. *)

From stdpp Require Import base list gmap sets strings.
From Stdlib Require Import Ascii Sorted.
From Stdlib Require String.

#[local] Set Warnings "-clear-no-such-hyp".

(** ** Characters and text *)

Module Text.

Definition code (c : ascii) : nat := nat_of_ascii c.

Definition between (lo hi n : nat) : bool := (lo <=? n)%nat && (n <=? hi)%nat.

(** [\s] of [re] on [str], and the separators of [str.split()]. *)
Definition is_space (c : ascii) : bool :=
  let n := code c in
  between 9 13 n || between 28 32 n || (n =? 133)%nat || (n =? 160)%nat.

(** [\w] of [re] on [str]: alphanumeric code points and the underscore. *)
Definition is_word (c : ascii) : bool :=
  let n := code c in
  between 48 57 n || between 65 90 n || (n =? 95)%nat || between 97 122 n
  || (n =? 170)%nat || between 178 179 n || (n =? 181)%nat
  || between 185 186 n || between 188 190 n
  || between 192 214 n || between 216 246 n || between 248 255 n.

(** ASCII upper-casing, for [re.IGNORECASE] on ASCII letters. *)
Definition upper (c : ascii) : ascii :=
  let n := code c in
  if between 97 122 n then ascii_of_nat (n - 32) else c.

Fixpoint prefix_ci (pat s : string) : bool :=
  match pat, s with
  | EmptyString, _ => true
  | String a pat', String b s' =>
      if Ascii.eqb (upper a) (upper b) then prefix_ci pat' s' else false
  | String _ _, EmptyString => false
  end.

(** [pat in s] *)
Fixpoint contains (pat s : string) : bool :=
  String.prefix pat s
  || match s with
     | EmptyString => false
     | String _ s' => contains pat s'
     end.

Fixpoint drop (n : nat) (s : string) : string :=
  match n, s with
  | S k, String _ s' => drop k s'
  | _, _ => s
  end.

(** The longest prefix of characters satisfying [p], and what follows. *)
Fixpoint span (p : ascii -> bool) (s : string) : string * string :=
  match s with
  | String c s' =>
      if p c then let '(a, b) := span p s' in (String c a, b)
      else (EmptyString, s)
  | EmptyString => (EmptyString, EmptyString)
  end.

Definition skip_spaces (s : string) : string := snd (span is_space s).

(** [a.split(".")[0]] *)
Definition before_dot (a : string) : string :=
  fst (span (fun c => negb (Ascii.eqb c ".")) a).

(** ["." in a] *)
Definition has_dot (a : string) : bool := contains "." a.

Fixpoint all_chars (p : ascii → bool) (s : string) : bool :=
  match s with
  | EmptyString => true
  | String c s' => p c && all_chars p s'
  end.

(** [s] is empty or starts with a character outside the class [p]. *)
Definition starts_outside (p : ascii → bool) (s : string) : Prop :=
  match s with String c _ => p c = false | EmptyString => True end.

Definition is_empty (s : string) : bool :=
  match s with EmptyString => true | String _ _ => false end.

(** *** The separator [\s+AND\s+] of [breakup_conjuncts]

    The classes of the three parts of the pattern are disjoint from the
    characters that follow them, so the greedy match of [re] is the only
    one: the whole run of spaces, the letters, the whole run of spaces.
    [sep_len s] is the length of the match at the head of [s]. *)
Definition sep_len (s : string) : option nat :=
  let '(ws1, r1) := span is_space s in
  if is_empty ws1 then None
  else if String.prefix "AND" r1 then
    let '(ws2, _) := span is_space (drop 3 r1) in
    if is_empty ws2 then None
    else Some (String.length ws1 + 3 + String.length ws2)
  else None.

(** [re.split(r"\s+AND\s+", s)]: the pieces between the successive
    leftmost matches.  [skip] counts the characters of the current match
    that are still to be passed over; [cur] is the piece being read, in
    reverse. *)
Fixpoint re_split_go (skip : nat) (cur : string) (s : string) : list string :=
  match s with
  | EmptyString => [String.rev cur]
  | String c s' =>
      match skip with
      | S k => re_split_go k cur s'
      | O =>
          match sep_len s with
          | Some n => String.rev cur :: re_split_go (n - 1) EmptyString s'
          | None => re_split_go O (String c cur) s'
          end
      end
  end.

Definition re_split_AND (s : string) : list string := re_split_go 0 EmptyString s.

(** No match of the separator starts inside [piece], a piece of a text
    that goes on with [rest]. *)
Definition unmatched (piece rest : string) : Prop :=
  ∀ u v, piece = u +:+ v → v ≠ EmptyString → sep_len (v +:+ rest) = None.

(** *** The pattern of [joinize]

    [re.match(r"\s*([\w]+)\.([\w]+)\s*=\s*([\w]+)\.([\w]+)\s*$", pred)]:
    the four groups when the text matches.  A class and the character that
    follows it in the pattern are disjoint, so each greedy run is the whole
    run and the match, when there is one, is the only one.  As [\s*] takes
    a final newline, [$] stands for the end of the text. *)

(** [[\w]+]: the non-empty run of word characters, and the rest. *)
Definition word_run (s : string) : option (string * string) :=
  let '(g, r) := span is_word s in
  if is_empty g then None else Some (g, r).

(** One given character, and the rest. *)
Definition expect (c : ascii) (s : string) : option string :=
  match s with
  | String d s' => if Ascii.eqb d c then Some s' else None
  | EmptyString => None
  end.

Definition match_equality (pred : string) : option (string * string * string * string) :=
  '(g1, s) ← word_run (skip_spaces pred);
  s ← expect "." s;
  '(g2, s) ← word_run s;
  s ← expect "=" (skip_spaces s);
  '(g3, s) ← word_run (skip_spaces s);
  s ← expect "." s;
  '(g4, s) ← word_run s;
  if is_empty (skip_spaces s) then Some (g1, g2, g3, g4) else None.

(** The texts of the pattern, spelled out: spaces, a word, a dot, a word,
    spaces, the equals sign, spaces, a word, a dot, a word, spaces. *)
Definition equality_text (pred g1 g2 g3 g4 : string) : Prop :=
  ∃ w0 w1 w2 w3,
    pred = w0 +:+ g1 +:+ "." +:+ g2 +:+ w1 +:+ "=" +:+ w2 +:+ g3 +:+ "." +:+ g4 +:+ w3
    ∧ Forall (λ w, all_chars is_space w = true) [w0; w1; w2; w3]
    ∧ Forall (λ g, all_chars is_word g = true ∧ g ≠ EmptyString) [g1; g2; g3; g4].

(** *** The pattern of [having_to_where]

    [re.search(r"\b(SUM|COUNT|AVG|MIN|MAX)\s*\(", pred, re.IGNORECASE)] *)
Definition agg_names : list string := ["SUM"; "COUNT"; "AVG"; "MIN"; "MAX"].

Definition opens_paren (s : string) : bool :=
  match skip_spaces s with
  | String "("%char _ => true
  | _ => false
  end.

Definition agg_call_here (s : string) : bool :=
  existsb (fun nm => prefix_ci nm s && opens_paren (drop (String.length nm) s))
          agg_names.

Definition is_word_opt (c : option ascii) : bool :=
  match c with Some c => is_word c | None => false end.

Definition first_char (s : string) : option ascii :=
  match s with String c _ => Some c | EmptyString => None end.

(** [\b]: exactly one of the two neighbours is a word character. *)
Definition word_boundary (prev : option ascii) (s : string) : bool :=
  xorb (is_word_opt prev) (is_word_opt (first_char s)).

Fixpoint search_agg (prev : option ascii) (s : string) : bool :=
  (word_boundary prev s && agg_call_here s)
  || match s with
     | EmptyString => false
     | String c s' => search_agg (Some c) s'
     end.

Definition has_aggregate_call (pred : string) : bool := search_agg None pred.

(** The texts in which the pattern is found, spelled out: somewhere in the
    text, at a word boundary, one of the five names in any mix of upper and
    lower case, then spaces, then an opening parenthesis. *)
Fixpoint same_ci (a b : string) : bool :=
  match a, b with
  | EmptyString, EmptyString => true
  | String x a', String y b' => Ascii.eqb (upper x) (upper y) && same_ci a' b'
  | _, _ => false
  end.

Fixpoint last_char (prev : option ascii) (s : string) : option ascii :=
  match s with
  | EmptyString => prev
  | String c s' => last_char (Some c) s'
  end.

Definition aggregate_call_text (pred : string) : Prop :=
  ∃ pre nm txt ws post,
    pred = pre +:+ txt +:+ ws +:+ "(" +:+ post
    ∧ nm ∈ agg_names
    ∧ same_ci nm txt = true
    ∧ all_chars is_space ws = true
    ∧ word_boundary (last_char None pre) (txt +:+ ws +:+ "(" +:+ post) = true.

(** *** The token scan of [projection_pushdown] on aggregate texts

    [v.replace("`","").replace("("," ").replace(")"," ").replace(","," ").split()] *)
Fixpoint remove_char (x : ascii) (s : string) : string :=
  match s with
  | EmptyString => EmptyString
  | String c s' => if Ascii.eqb c x then remove_char x s' else String c (remove_char x s')
  end.

Fixpoint replace_char (x y : ascii) (s : string) : string :=
  match s with
  | EmptyString => EmptyString
  | String c s' => String (if Ascii.eqb c x then y else c) (replace_char x y s')
  end.

(** [str.split()] with no argument: the maximal runs of non-space characters. *)
Fixpoint split_ws_go (cur : option string) (s : string) : list string :=
  match s with
  | EmptyString => option_list (String.rev <$> cur)
  | String c s' =>
      if is_space c then option_list (String.rev <$> cur) ++ split_ws_go None s'
      else split_ws_go (Some (String c (default EmptyString cur))) s'
  end.

Definition split_ws (s : string) : list string := split_ws_go None s.

Definition agg_tokens (v : string) : list string :=
  split_ws (replace_char "," " " (replace_char ")" " " (replace_char "(" " "
    (remove_char "`" v)))).

(** *** Sorting

    A stable insertion sort.  [sorted(xs)] on strings is the sort by code
    points; [xs.sort(key=k, reverse=True)] keeps the elements of equal
    key in their order. *)
Section Sort.
Context {A : Type} (before : A -> A -> bool).

Fixpoint insert_sorted (x : A) (l : list A) : list A :=
  match l with
  | [] => [x]
  | y :: l' => if before x y then x :: l else y :: insert_sorted x l'
  end.

Definition stable_sort (l : list A) : list A := foldr insert_sorted [] l.
End Sort.

Definition sorted (l : list string) : list string := stable_sort String.leb l.

End Text.

(** ** The logical tree (logical_tree.py) *)

(** The property bag of a node.  Each key of the Python dictionary is a
    field, absent ([None]) or present with the type the constructors of
    [logical_tree.py] give it.  The value of ["on"] may itself be Python's
    [None]; ["aggs"] is a dictionary from output alias to aggregate text,
    kept in insertion order. *)
Record Props := mkProps {
  relation : option string;
  alias : option string;
  pred : option string;
  pred_attrs : option (list string);
  attrs : option (list string);
  on : option (option string);
  join_keys_left : option (list string);
  join_keys_right : option (list string);
  group_by : option (list string);
  aggs : option (list (string * string));
  order_by : option (list string)
}.

Definition no_props : Props :=
  mkProps None None None None None None None None None None None.

Unset Elimination Schemes.
Inductive Node := mkNode { op : string; children : list Node; props : Props }.
Set Elimination Schemes.

(** [props.get(key, default)] for the keys the passes read so. *)
Definition get_pred (p : Props) : string := default "" (pred p).
Definition get_pred_attrs (p : Props) : list string := default [] (pred_attrs p).
Definition get_attrs (p : Props) : list string := default [] (attrs p).
Definition get_join_keys_left (p : Props) : list string := default [] (join_keys_left p).
Definition get_join_keys_right (p : Props) : list string := default [] (join_keys_right p).
Definition get_group_by (p : Props) : list string := default [] (group_by p).
Definition get_aggs (p : Props) : list (string * string) := default [] (aggs p).
Definition get_order_by (p : Props) : list string := default [] (order_by p).

(** The property bags the constructors build. *)
Definition scan_props (rel al : string) : Props :=
  mkProps (Some rel) (Some al) None None None None None None None None None.
Definition pred_props (prd : string) (pa : list string) : Props :=
  mkProps None None (Some prd) (Some pa) None None None None None None None.
Definition attrs_props (l : list string) : Props :=
  mkProps None None None None (Some l) None None None None None None.
Definition join_props (o : option string) (kl kr : list string) : Props :=
  mkProps None None None None None (Some o) (Some kl) (Some kr) None None None.
Definition group_props (gb : list string) (ag : list (string * string)) : Props :=
  mkProps None None None None None None None None (Some gb) (Some ag) None.
Definition order_props (ob : list string) : Props :=
  mkProps None None None None None None None None None None (Some ob).

(** [alias or relation]: an empty alias is falsy. *)
Definition leaf_scan (rel : string) (al : option string) : Node :=
  mkNode "Scan" []
    (scan_props rel (match al with
                     | Some a => if Text.is_empty a then rel else a
                     | None => rel
                     end)).
Definition sigma (prd : string) (pa : list string) : Node :=
  mkNode "Select" [] (pred_props prd pa).
Definition pi (l : list string) : Node := mkNode "Project" [] (attrs_props l).
Definition join (kind : string) (o : option string) (lft rgt : Node)
    (keys_left keys_right : list string) : Node :=
  mkNode kind [lft; rgt] (join_props o keys_left keys_right).
Definition group (gb : list string) (ag : list (string * string)) : Node :=
  mkNode "Group" [] (group_props gb ag).
Definition having (prd : string) (pa : list string) : Node :=
  mkNode "Having" [] (pred_props prd pa).
Definition order (ob : list string) : Node := mkNode "Order" [] (order_props ob).

(** [op in {"Cross", "Join"}] *)
Definition is_join (o : string) : bool := String.eqb o "Cross" || String.eqb o "Join".

(** ** Results of a pass

    [option] where the recursion is structural; where the source calls
    itself on a node it has just built, the model counts the depth of the
    calls with a fuel, and [Starved] tells an exhausted fuel from a raised
    exception. *)
Inductive run (A : Type) : Type :=
| Done (a : A)
| Raised
| Starved.
Arguments Done {A} a.
Arguments Raised {A}.
Arguments Starved {A}.

Global Instance run_ret : MRet run := λ A a, Done a.
Global Instance run_bind : MBind run := λ A B f r,
  match r with
  | Done a => f a
  | Raised => Raised
  | Starved => Starved
  end.

Definition lift {A} (o : option A) : run A :=
  match o with Some a => Done a | None => Raised end.

Definition settle {A} (r : run A) : option A :=
  match r with Done a => Some a | _ => None end.

Section Traversals.
Context {A B S : Type}.

(** [[f(c) for c in l]] *)
Section MapOpt.
Context (f : A → option B).
Fixpoint map_opt (l : list A) : option (list B) :=
  match l with
  | [] => Some []
  | x :: l' => y ← f x; ys ← map_opt l'; Some (y :: ys)
  end.
End MapOpt.

Section MapRun.
Context (f : A → run B).
Fixpoint map_run (l : list A) : run (list B) :=
  match l with
  | [] => Done []
  | x :: l' => y ← f x; ys ← map_run l'; Done (y :: ys)
  end.
End MapRun.

(** [[f(c, seen) for c in l]] where [f] updates [seen] in place. *)
Section MapState.
Context (f : A → S → option (B * S)).
Fixpoint map_state (l : list A) (s : S) : option (list B * S) :=
  match l with
  | [] => Some ([], s)
  | x :: l' =>
      '(y, s1) ← f x s; '(ys, s2) ← map_state l' s1; Some (y :: ys, s2)
  end.
End MapState.
End Traversals.

(** Number of nodes; the fuel of the passes that need one. *)
Fixpoint size (node : Node) : nat :=
  match node with
  | mkNode _ cs _ => S (sum_list_with size cs)
  end.

(** ** The passes (rules.py) *)

(** The local [aliases] of [selection_pushdown] and [_aliases] of
    [projection_pushdown], the same function: the alias of a Scan
    ([props["alias"]], a [KeyError] when absent), the union over the
    children elsewhere. *)
Fixpoint aliases (node : Node) : option (gset string) :=
  match node with
  | mkNode o cs p =>
      if String.eqb o "Scan" then a ← alias p; Some {[ a ]}
      else sets ← map_opt aliases cs; Some (⋃ sets)
  end.

(** *** Pass 1: breakup_conjuncts *)

(** The chain built by the loop over [parts[::-1]]: each part wraps the
    chain built so far. *)
Definition select_chain (parts : list string) (pa : list string) (cur : Node) : Node :=
  foldl (λ cur q, mkNode "Select" [cur] (pred_props q pa)) cur (reverse parts).

Fixpoint breakup_helper (node : Node) : option Node :=
  match node with
  | mkNode o cs p =>
      if String.eqb o "Select" && Text.contains " AND " (get_pred p) then
        prd ← pred p;
        match cs with
        | [] => None
        | cur :: _ => Some (select_chain (Text.re_split_AND prd) (get_pred_attrs p) cur)
        end
      else
        cs' ← map_opt breakup_helper cs;
        Some (mkNode o cs' p)
  end.

Definition breakup_conjuncts (n : Node) : option Node := breakup_helper n.

(** *** Pass 2: selection_pushdown

    [helper] calls itself on the Select it has just moved below a join, a
    node that is no part of its argument, so the model counts the depth of
    the calls.  The pass keeps the number of nodes and the moved Select
    stands above a smaller subtree, so the number of nodes of the tree is
    fuel enough ([pushdown_helper_fuel] below). *)

(** [{a.split(".")[0] for a in pred_attrs if "." in a}] *)
Definition involved_aliases (p : Props) : gset string :=
  list_to_set (Text.before_dot <$> List.filter Text.has_dot (get_pred_attrs p)).

Fixpoint pushdown_helper (fuel : nat) (node : Node) : run Node :=
  match fuel with
  | O => Starved
  | S fuel' =>
      match node with
      | mkNode o cs p =>
          if String.eqb o "Select" then
            match cs with
            | [] => Raised
            | c0 :: rest =>
                child ← pushdown_helper fuel' c0;
                let involved := involved_aliases p in
                if decide (involved = ∅) then Done (mkNode o (child :: rest) p)
                else if is_join (op child) then
                  match children child with
                  | [lft; rgt] =>
                      la ← lift (aliases lft);
                      ra ← lift (aliases rgt);
                      if decide (involved ⊆ la) then
                        sub ← pushdown_helper fuel' (mkNode o (lft :: rest) p);
                        Done (mkNode (op child) [sub; rgt] (props child))
                      else if decide (involved ⊆ ra) then
                        sub ← pushdown_helper fuel' (mkNode o (rgt :: rest) p);
                        Done (mkNode (op child) [lft; sub] (props child))
                      else Done (mkNode o (child :: rest) p)
                  | _ => Raised
                  end
                else Done (mkNode o (child :: rest) p)
            end
          else
            cs' ← map_run (pushdown_helper fuel') cs;
            Done (mkNode o cs' p)
      end
  end.

Definition selection_pushdown (n : Node) : option Node :=
  settle (pushdown_helper (size n) n).

(** *** Pass 3: joinize *)

Fixpoint joinize_helper (node : Node) : option Node :=
  match node with
  | mkNode o cs p =>
      cs' ← map_opt joinize_helper cs;
      if String.eqb o "Select" then
        c0 ← head cs';
        if String.eqb (op c0) "Cross" then
          match Text.match_equality (get_pred p) with
          | Some (g1, g2, g3, g4) =>
              match children c0 with
              | [lft; rgt] =>
                  Some (mkNode "Join" [lft; rgt]
                          (join_props (Some (get_pred p))
                                      [g1 +:+ "." +:+ g2] [g3 +:+ "." +:+ g4]))
              | _ => None
              end
          | None => Some (mkNode o cs' p)
          end
        else Some (mkNode o cs' p)
      else Some (mkNode o cs' p)
  end.

Definition joinize (n : Node) : option Node := joinize_helper n.

(** *** Pass 4: projection_pushdown *)

(** One side of the split of a Join/Cross need:
    [{a for a in needed if a.split(".")[0] in _aliases(side)} |
     {k for k in keys if k.split(".")[0] in _aliases(side)}].
    [_aliases(side)] is evaluated once per element, so it is not evaluated
    at all when both sets are empty. *)
Definition side_need (needed keys : gset string) (side : Node) : option (gset string) :=
  if decide (needed = ∅ ∧ keys = ∅) then Some ∅
  else
    al ← aliases side;
    Some (filter (λ a, Text.before_dot a ∈ al) needed
          ∪ filter (λ k, Text.before_dot k ∈ al) keys).

(** The attributes named in the aggregate texts of a Group. *)
Definition agg_attrs (p : Props) : gset string :=
  list_to_set (List.filter Text.has_dot
                 (concat ((λ kv, Text.agg_tokens (snd kv)) <$> get_aggs p))).

Fixpoint projection_helper (node : Node) (needed : gset string) : option Node :=
  match node with
  | mkNode o cs p =>
      if String.eqb o "Scan" then
        if decide ("*" ∈ needed ∨ needed = ∅) then Some node
        else
          a ← alias p;
          match List.filter (λ x, String.eqb (Text.before_dot x) a) (elements needed) with
          | [] => Some node
          | kept => Some (mkNode "Project" [node] (attrs_props (Text.sorted kept)))
          end
      else if String.eqb o "Select" || String.eqb o "Having" then
        match cs with
        | [] => None
        | c0 :: rest =>
            child ← projection_helper c0 (needed ∪ list_to_set (get_pred_attrs p));
            Some (mkNode o (child :: rest) p)
        end
      else if is_join o then
        match cs with
        | [lft; rgt] =>
            let keys : gset string :=
              list_to_set (get_join_keys_left p) ∪ list_to_set (get_join_keys_right p) in
            left_needed ← side_need needed keys lft;
            right_needed ← side_need needed keys rgt;
            l' ← projection_helper lft left_needed;
            r' ← projection_helper rgt right_needed;
            Some (mkNode o [l'; r'] p)
        | _ => None
        end
      else if String.eqb o "Group" then
        match cs with
        | [] => None
        | c0 :: rest =>
            child ← projection_helper c0 (list_to_set (get_group_by p) ∪ agg_attrs p);
            Some (mkNode o (child :: rest) p)
        end
      else if String.eqb o "Project" then
        let own : gset string := list_to_set (get_attrs p) in
        let own := if decide ("*" ∈ own ∨ own = ∅) then needed else own in
        match cs with
        | [] => None
        | c0 :: rest =>
            child ← projection_helper c0 own;
            Some (mkNode o (child :: rest) p)
        end
      else if String.eqb o "Order" then
        match cs with
        | [] => None
        | c0 :: rest =>
            child ← projection_helper c0 (needed ∪ list_to_set (get_order_by p));
            Some (mkNode o (child :: rest) p)
        end
      else
        cs' ← map_opt (λ c, projection_helper c needed) cs;
        Some (mkNode o cs' p)
  end.

Definition projection_pushdown (n : Node) : option Node :=
  let needs : gset string :=
    if String.eqb (op n) "Project" then list_to_set (get_attrs (props n))
    else if String.eqb (op n) "Order" then list_to_set (get_order_by (props n))
    else ∅ in
  projection_helper n needs.

(** *** Pass 5: reorder_joins

    [helper] calls itself on the factors that [collect_factors] returns;
    they are proper subtrees, and the number of nodes of the tree is fuel
    enough ([reorder_helper_fuel] below). *)

Fixpoint collect_factors (node : Node) : option (list Node) :=
  match node with
  | mkNode o cs p =>
      if is_join o then
        match cs with
        | c0 :: c1 :: _ =>
            f0 ← collect_factors c0;
            f1 ← collect_factors c1;
            Some (f0 ++ f1)
        | _ => None
        end
      else Some [node]
  end.

Fixpoint count_selections (node : Node) : option nat :=
  match node with
  | mkNode o cs p =>
      if String.eqb o "Select" then
        match cs with
        | c0 :: _ => k ← count_selections c0; Some (1 + k)
        | [] => None
        end
      else
        ks ← map_opt count_selections cs;
        Some (foldl Nat.add 0 ks)
  end.

(** The node of the loop of [rebuild_chain]. *)
Definition join_node (cur nxt : Node) : Node :=
  mkNode "Join" [cur; nxt] (join_props None [] []).

Definition rebuild_chain (factors : list Node) : option Node :=
  match factors with
  | [] => None
  | first :: others => Some (foldl join_node first others)
  end.

(** [factors.sort(key=count_selections, reverse=True)]: the keys are
    computed first, one call per factor; the sort is stable, also when
    reversed. *)
Definition sort_by_selections (factors : list Node) : option (list Node) :=
  keyed ← map_opt (λ f, k ← count_selections f; Some (k, f)) factors;
  Some (snd <$> Text.stable_sort (λ x y : nat * Node, fst y <=? fst x) keyed).

Fixpoint reorder_helper (fuel : nat) (node : Node) : run Node :=
  match fuel with
  | O => Starved
  | S fuel' =>
      match node with
      | mkNode o cs p =>
          if is_join o then
            factors ← lift (collect_factors node);
            factors ← map_run (reorder_helper fuel') factors;
            factors ← lift (sort_by_selections factors);
            lift (rebuild_chain factors)
          else
            cs' ← map_run (reorder_helper fuel') cs;
            Done (mkNode o cs' p)
      end
  end.

Definition reorder_joins (n : Node) : option Node :=
  settle (reorder_helper (size n) n).

(** *** Pass 6: having_to_where *)

Fixpoint having_helper (node : Node) : option Node :=
  match node with
  | mkNode o cs p =>
      if String.eqb o "Having" then
        match cs with
        | [] => None
        | c0 :: rest =>
            if Text.has_aggregate_call (get_pred p) then
              c ← having_helper c0;
              Some (mkNode o (c :: rest) p)
            else
              g ← having_helper c0;
              match children g with
              | [] => None
              | g0 :: grest =>
                  let sel := mkNode "Select" [g0] p in
                  Some (mkNode (op g) (sel :: grest) (props g))
              end
        end
      else
        cs' ← map_opt having_helper cs;
        Some (mkNode o cs' p)
  end.

Definition having_to_where (n : Node) : option Node := having_helper n.

(** *** Pass 7: dedup_selections *)

Fixpoint dedup_helper (node : Node) (seen : gset string) : option (Node * gset string) :=
  match node with
  | mkNode o cs p =>
      if String.eqb o "Select" then
        let prd := get_pred p in
        match cs with
        | [] => None
        | c0 :: rest =>
            if decide (prd ∈ seen) then dedup_helper c0 seen
            else
              '(c, seen') ← dedup_helper c0 ({[ prd ]} ∪ seen);
              Some (mkNode o (c :: rest) p, seen')
        end
      else
        '(cs', seen') ← map_state dedup_helper cs seen;
        Some (mkNode o cs' p, seen')
  end.

Definition dedup_selections (n : Node) : option Node :=
  fst <$> dedup_helper n ∅.

(** *** The driver

    The trace receives appends only; it is omitted, as it has no part in
    the tree that is returned. *)
Definition optimize_pipeline (root : Node) : option Node :=
  root ← breakup_conjuncts root;
  root ← selection_pushdown root;
  root ← joinize root;
  root ← projection_pushdown root;
  root ← reorder_joins root;
  root ← having_to_where root;
  dedup_selections root.

(** ** The canonical grammar and the invariants of the trees *)

(** Arity of each node kind (§3). *)
Definition arity (o : string) : option nat :=
  if String.eqb o "Scan" then Some 0
  else if String.eqb o "Select" || String.eqb o "Project" || String.eqb o "Group"
          || String.eqb o "Having" || String.eqb o "Order" then Some 1
  else if is_join o then Some 2
  else None.

Definition has_arity (o : string) (cs : list Node) : bool :=
  match arity o with
  | Some k => length cs =? k
  | None => false
  end.

Fixpoint arity_ok (node : Node) : bool :=
  match node with
  | mkNode o cs _ => has_arity o cs && forallb arity_ok cs
  end.

(** The trees the passes are run on: the eight kinds at their arities,
    every Scan with its alias, every Having directly above a Group. *)
Definition node_ok (o : string) (cs : list Node) (p : Props) : bool :=
  has_arity o cs
  && (if String.eqb o "Scan" then bool_decide (is_Some (alias p)) else true)
  && (if String.eqb o "Having"
      then match cs with c :: _ => String.eqb (op c) "Group" | [] => false end
      else true).

Fixpoint well_formed (node : Node) : bool :=
  match node with
  | mkNode o cs p => node_ok o cs p && forallb well_formed cs
  end.

(** The canonical form the front end builds: a left-leaning chain of Cross
    nodes over Scans, a chain of Selects above it, an optional Group, an
    optional Having above the Group, one Project, an optional Order. *)
Definition is_scan_leaf (node : Node) : bool :=
  String.eqb (op node) "Scan"
  && match children node with [] => true | _ => false end
  && bool_decide (is_Some (alias (props node))).

Fixpoint is_cross_chain (node : Node) : bool :=
  match node with
  | mkNode o cs p =>
      if String.eqb o "Cross" then
        match cs with
        | [l; r] => is_cross_chain l && is_scan_leaf r
        | _ => false
        end
      else is_scan_leaf node
  end.

Fixpoint is_select_chain (node : Node) : bool :=
  match node with
  | mkNode o cs p =>
      if String.eqb o "Select" then
        match cs with
        | [c] => is_select_chain c
        | _ => false
        end
      else is_cross_chain node
  end.

Definition is_group_over_selects (node : Node) : bool :=
  String.eqb (op node) "Group"
  && match children node with [c] => is_select_chain c | _ => false end.

Definition is_grouped (node : Node) : bool :=
  if String.eqb (op node) "Having" then
    match children node with [g] => is_group_over_selects g | _ => false end
  else if String.eqb (op node) "Group" then is_group_over_selects node
  else is_select_chain node.

Definition is_projected (node : Node) : bool :=
  String.eqb (op node) "Project"
  && match children node with [c] => is_grouped c | _ => false end.

Definition canonical (node : Node) : bool :=
  if String.eqb (op node) "Order" then
    match children node with [c] => is_projected c | _ => false end
  else is_projected node.

(** What stands above the body of a canonical tree: the Project, and the
    Order when there is one. *)
Inductive top_context :=
| TopProject (project : Props)
| TopOrder (order project : Props).

Definition plug (k : top_context) (body : Node) : Node :=
  match k with
  | TopProject pp => mkNode "Project" [body] pp
  | TopOrder po pp => mkNode "Order" [mkNode "Project" [body] pp] po
  end.

(** Number of nodes of a kind. *)
Fixpoint count_op (name : string) (node : Node) : nat :=
  match node with
  | mkNode o cs _ =>
      (if String.eqb o name then 1 else 0) + sum_list_with (count_op name) cs
  end.

(** A Project at the root, or immediately below a root Order. *)
Definition project_on_top (node : Node) : bool :=
  String.eqb (op node) "Project"
  || (String.eqb (op node) "Order"
      && match children node with
         | c :: _ => String.eqb (op c) "Project"
         | [] => false
         end).

(** The grammar invariants of the emission interface: the arities, and
    exactly one Project, on top. *)
Definition grammar_invariants (node : Node) : bool :=
  arity_ok node && (count_op "Project" node =? 1) && project_on_top node.


(** The predicate texts of the Select nodes, in pre-order. *)
Fixpoint select_preds (node : Node) : list string :=
  match node with
  | mkNode o cs p =>
      (if String.eqb o "Select" then [get_pred p] else [])
      ++ concat (select_preds <$> cs)
  end.

(** The first occurrence of each text, the texts of [seen] apart. *)
Fixpoint keep_first (seen : gset string) (l : list string) : list string :=
  match l with
  | [] => []
  | x :: l' =>
      if decide (x ∈ seen) then keep_first seen l'
      else x :: keep_first ({[ x ]} ∪ seen) l'
  end.

(** Every Select has exactly one child. *)
Fixpoint selects_unary (node : Node) : bool :=
  match node with
  | mkNode o cs _ =>
      (if String.eqb o "Select" then length cs =? 1 else true)
      && forallb selects_unary cs
  end.

(** An induction principle that reaches the children of a node. *)
Section NodeInduction.
Context (P : Node → Prop).
Hypothesis step : ∀ o cs p, Forall P cs → P (mkNode o cs p).

Fixpoint Node_ind (n : Node) : P n :=
  match n with
  | mkNode o cs p =>
      step o cs p
        ((fix all (l : list Node) : Forall P l :=
            match l with
            | [] => @List.Forall_nil _ P
            | c :: l' => @List.Forall_cons _ P c l' (Node_ind c) (all l')
            end) cs)
  end.
End NodeInduction.


(** The shapes of the nodes of a well-formed tree. *)
Inductive shape : string → list Node → Props → Prop :=
| shape_Scan p : is_Some (alias p) → shape "Scan" [] p
| shape_Select c p : shape "Select" [c] p
| shape_Project c p : shape "Project" [c] p
| shape_Group c p : shape "Group" [c] p
| shape_Order c p : shape "Order" [c] p
| shape_Having g p : op g = "Group" → shape "Having" [g] p
| shape_Cross l r p : shape "Cross" [l; r] p
| shape_Join l r p : shape "Join" [l; r] p.

(** The kinds that no pass replaces at the root of a subtree. *)
Definition is_stable (o : string) : bool :=
  String.eqb o "Group" || String.eqb o "Project" || String.eqb o "Order".

(** What a pass keeps of a tree [t] in its result [t']: the result is well
    formed, a root of a stable kind keeps its kind, a Project on top stays
    on top, and the Projects are as many as before ([strict]) or as many at
    least. *)
Definition kept (strict : bool) (t t' : Node) : Prop :=
  well_formed t' = true
  ∧ (if strict then count_op "Project" t' = count_op "Project" t
     else count_op "Project" t ≤ count_op "Project" t')
  ∧ (is_stable (op t) = true → op t' = op t)
  ∧ (project_on_top t = true → project_on_top t' = true).

(** The score of reorder_joins on the trees where it raises nothing. *)
Fixpoint selections (node : Node) : nat :=
  match node with
  | mkNode o cs p =>
      if String.eqb o "Select" then
        1 + match cs with c0 :: _ => selections c0 | [] => 0 end
      else sum_list_with selections cs
  end.

(** The passes that leave the number of Projects as it is, and all seven. *)
Definition six_passes : list (Node → option Node) :=
  [breakup_conjuncts; selection_pushdown; joinize; reorder_joins;
   having_to_where; dedup_selections].

Definition seven_passes : list (Node → option Node) :=
  [breakup_conjuncts; selection_pushdown; joinize; projection_pushdown;
   reorder_joins; having_to_where; dedup_selections].


(** On trees whose Selects have one child, a run keeps the first occurrence
    of each text among the texts in pre-order. *)
Definition dedup_keeps_first (t : Node) : Prop :=
  ∀ seen t' seen',
    selects_unary t = true →
    dedup_helper t seen = Some (t', seen') →
    select_preds t' = keep_first seen (select_preds t)
    ∧ seen' = seen ∪ list_to_set (select_preds t).

(** What reorder_joins keeps of a subtree, beyond [kept]: the score, and
    the kind of a root that is no Join or Cross. *)
Definition reordered (t t' : Node) : Prop :=
  kept true t t'
  ∧ selections t' = selections t
  ∧ (is_join (op t) = false → op t' = op t).

(** ** Measures on trees *)

(** The nodes of a tree counted with a weight that is read off the kind
    and the properties of each node. *)
Fixpoint tally (w : string → Props → nat) (node : Node) : nat :=
  match node with
  | mkNode o cs p => w o p + sum_list_with (tally w) cs
  end.

(** Every node of the tree passes the test [P] on its kind and properties. *)
Fixpoint all_nodes (P : string → Props → bool) (node : Node) : bool :=
  match node with
  | mkNode o cs p => P o p && forallb (all_nodes P) cs
  end.

(** A property bag with a join condition or join keys, as the passes and
    the emitter read them: a truthy ["on"], or a key list that is not
    empty. *)
Definition has_condition (p : Props) : bool :=
  match on p with
  | Some (Some s) => negb (Text.is_empty s)
  | _ => false
  end
  || negb (bool_decide (get_join_keys_left p = []))
  || negb (bool_decide (get_join_keys_right p = [])).

(** The test of a node that reorder_joins has built or left alone: no
    Cross, and no Join with a condition or keys. *)
Definition bare_join (o : string) (p : Props) : bool :=
  negb (is_join o) || (String.eqb o "Join" && negb (has_condition p)).

(** The weight that counts the nodes failing a test. *)
Definition failing (P : string → Props → bool) (o : string) (p : Props) : nat :=
  if P o p then 0 else 1.

(** No Join or Cross node has a Join or Cross as its second child. *)
Fixpoint left_deep (node : Node) : bool :=
  match node with
  | mkNode o cs p =>
      (if is_join o
       then match cs with
            | _ :: r :: _ => negb (is_join (op r))
            | _ => true
            end
       else true)
      && forallb left_deep cs
  end.

(** The weight that counts the nodes of one kind. *)
Definition of_kind (name : string) (o : string) (p : Props) : nat :=
  if String.eqb o name then 1 else 0.

(** The test of a node that having_to_where leaves: a Having only with an
    aggregate call in its text. *)
Definition aggregate_having (o : string) (p : Props) : bool :=
  negb (String.eqb o "Having") || Text.has_aggregate_call (get_pred p).

(** The order of the sort of reorder_joins: a higher score first. *)
Definition by_score (x y : Node) : bool := selections y <=? selections x.

(** ** Further functions of rules.py and logical_tree.py *)

(** [_collect_scans] of rules.py: the Scan nodes from left to right; the
    search does not go below a Scan. *)
Fixpoint collect_scans (n : Node) : list Node :=
  match n with
  | mkNode o cs p =>
      if String.eqb o "Scan" then [n] else concat (collect_scans <$> cs)
  end.

(** [Node.needed_attrs] of logical_tree.py.  The node's own share: the
    list under ["attrs"] when the key is there, and the lists under the
    five other keys when they are there and not empty. *)
Definition own_attrs (p : Props) : gset string :=
  list_to_set (get_attrs p)
  ∪ list_to_set (get_pred_attrs p) ∪ list_to_set (get_group_by p)
  ∪ list_to_set (get_order_by p) ∪ list_to_set (get_join_keys_left p)
  ∪ list_to_set (get_join_keys_right p).

Fixpoint needed_attrs (n : Node) : gset string :=
  match n with
  | mkNode o cs p => own_attrs p ∪ ⋃ (needed_attrs <$> cs)
  end.

(** The weight that tells the nodes whose own share names [x]. *)
Definition naming (x : string) (o : string) (p : Props) : nat :=
  if decide (x ∈ own_attrs p) then 1 else 0.

(** The join keys that projection_pushdown reads at a Join or Cross. *)
Definition join_keys (p : Props) : gset string :=
  list_to_set (get_join_keys_left p) ∪ list_to_set (get_join_keys_right p).

(** ** The emitter (sqlify.py)

    [sql_from_tree] reads the clauses of the query off the top of the tree
    into local variables and then puts the text together.  The record
    [clauses] holds these variables, with the names they have in the
    source; a Python [None] is [None] here.  An [IndexError] of
    [children[0]] and the failed [assert] are [None] of the result. *)

Module Sqlify.

(** The text of a value inside an f-string. *)
Definition fmt (v : option string) : string := default "None" v.

Definition newline : string := String (ascii_of_nat 10) EmptyString.

(** The truth value of a text or of a list that may be [None]. *)
Definition truthy (v : option string) : bool :=
  match v with
  | Some s => negb (Text.is_empty s)
  | None => false
  end.

(** [strip_selects], with the list [where_preds] that it appends to. *)
Fixpoint strip_selects (node : Node) (where_preds : list string)
    : option (Node * list string) :=
  match node with
  | mkNode o cs p =>
      if String.eqb o "Select" then
        match cs with
        | [] => None
        | c0 :: _ => strip_selects c0 (where_preds ++ [get_pred p])
        end
      else
        '(cs', where_preds) ← map_state strip_selects cs where_preds;
        Some (mkNode o cs' p, where_preds)
  end.

(** [emit_from]; its value is a text, or [None] at a Scan without a
    relation. *)
Fixpoint emit_from (node : Node) : option (option string) :=
  match node with
  | mkNode o cs p =>
      if String.eqb o "Scan" then
        Some (if truthy (alias p) && negb (bool_decide (alias p = relation p))
              then Some (fmt (relation p) +:+ " " +:+ fmt (alias p))
              else relation p)
      else if String.eqb o "Join" || String.eqb o "Cross" then
        match cs with
        | c0 :: c1 :: _ =>
            lft ← emit_from c0;
            rgt ← emit_from c1;
            Some (Some (if String.eqb o "Join" && truthy (mjoin (on p))
                        then fmt lft +:+ " JOIN " +:+ fmt rgt +:+ " ON " +:+ fmt (mjoin (on p))
                        else fmt lft +:+ ", " +:+ fmt rgt))
        | _ => None
        end
      else Some (Some "(SUBQ)")
  end.

Record clauses := mkClauses {
  select_list : string;
  from_sql : option string;
  where_preds : list string;
  group_by : option (list string);
  having : option string;
  order_by : option (list string)
}.

(** [n = n.children[0]] under a test on the kind of [n]: the value read
    at the node and the node to go on with. *)
Definition descend {A} (name : string) (read : Props → A) (none : A) (n : Node)
    : option (A * Node) :=
  if String.eqb (op n) name then c ← head (children n); Some (read (props n), c)
  else Some (none, n).

Definition agg_list (aggs : list (string * string)) : string :=
  String.concat ", " ((λ kv, snd kv +:+ " AS " +:+ fst kv) <$> aggs).

Definition select_text (select_attrs : list string) (aggs : list (string * string)) : string :=
  let select_list :=
    if bool_decide (select_attrs = []) || bool_decide ("*" ∈ select_attrs) then "*"
    else String.concat ", " select_attrs in
  match aggs with
  | [] => select_list
  | _ =>
      if negb (String.eqb select_list "*")
      then String.concat ", " [select_list; agg_list aggs]
      else agg_list aggs
  end.

Definition sql_clauses (n : Node) : option clauses :=
  '(order_by, n) ← descend "Order" (λ p, Some (get_order_by p)) None n;
  if negb (String.eqb (op n) "Project") then None
  else
    let select_attrs := get_attrs (props n) in
    n ← head (children n);
    '(having, n) ← descend "Having" pred None n;
    '(grouping, n) ← descend "Group" (λ p, (Some (get_group_by p), get_aggs p)) (None, []) n;
    '(n, where_preds) ← strip_selects n [];
    from_sql ← emit_from n;
    Some (mkClauses (select_text select_attrs (snd grouping)) from_sql where_preds
            (fst grouping) having order_by).

Definition listed (l : option (list string)) : list string := default [] l.

Definition sql_text (c : clauses) : string :=
  "SELECT " +:+ select_list c +:+ newline +:+ "FROM " +:+ fmt (from_sql c)
  +:+ match where_preds c with
      | [] => ""
      | _ => newline +:+ "WHERE " +:+ String.concat " AND " (where_preds c)
      end
  +:+ match listed (group_by c) with
      | [] => ""
      | g => newline +:+ "GROUP BY " +:+ String.concat ", " g
      end
  +:+ (if truthy (having c) then newline +:+ "HAVING " +:+ fmt (having c) else "")
  +:+ match listed (order_by c) with
      | [] => ""
      | o => newline +:+ "ORDER BY " +:+ String.concat ", " o
      end
  +:+ ";".

Definition sql_from_tree (n : Node) : option string := sql_text <$> sql_clauses n.

End Sqlify.

(** What strip_selects answers for a subtree: no Select is left, the
    other nodes are the nodes of the input, a root that is no Select keeps
    its kind, its properties and the number of its children. *)
Definition stripped (n n' : Node) : Prop :=
  count_op "Select" n' = 0
  ∧ (∀ w, (∀ p, w "Select" p = 0) → tally w n' = tally w n)
  ∧ (String.eqb (op n) "Select" = false →
     op n' = op n ∧ props n' = props n ∧ length (children n') = length (children n)).

(** ** The textual rewrite (unnesting.py)

    [re.sub(r"\bNOT\s+kw\s*\(", repl, s, flags=re.IGNORECASE)] for a
    keyword [kw] of ASCII letters and a replacement without a backslash.
    The pattern has no alternative and each of its parts ends where the
    next one cannot start, so a match at a position is found without
    backtracking; a match is never empty, and the search goes on where the
    match ended, with the last character of the match before it. *)

Module Unnesting.

(** The length of the match at the head of [s], [prev] being the character
    before [s]. *)
Definition match_len (kw : string) (prev : option ascii) (s : string) : option nat :=
  if Text.word_boundary prev s && Text.prefix_ci "NOT" s then
    let '(sp1, r1) := Text.span Text.is_space (Text.drop 3 s) in
    if Text.is_empty sp1 then None
    else if Text.prefix_ci kw r1 then
      let '(sp2, r2) := Text.span Text.is_space (Text.drop (String.length kw) r1) in
      match r2 with
      | String "("%char _ =>
          Some (3 + String.length sp1 + String.length kw + String.length sp2 + 1)
      | _ => None
      end
    else None
  else None.

(** The scan of [re.sub]: [skip] characters of a match are still to be
    passed over. *)
Fixpoint sub_go (kw repl : string) (skip : nat) (prev : option ascii) (s : string) : string :=
  match s with
  | EmptyString => EmptyString
  | String c s' =>
      match skip with
      | S k => sub_go kw repl k (Some c) s'
      | O =>
          match match_len kw prev s with
          | Some m => repl +:+ sub_go kw repl (m - 1) (Some c) s'
          | None => String c (sub_go kw repl 0 (Some c) s')
          end
      end
  end.

Definition re_sub (kw repl s : string) : string := sub_go kw repl 0 None s.

Definition unnest_exists_in (sql_str : string) : string :=
  let s := sql_str in
  let s := re_sub "IN" " /*ANTI_IN*/ IN (" s in
  let s := re_sub "EXISTS" " /*ANTI_EXISTS*/ EXISTS (" s in
  s.

(** The pattern matches nowhere in [s], [prev] being the character before
    [s]. *)
Fixpoint no_match (kw : string) (prev : option ascii) (s : string) : Prop :=
  match_len kw prev s = None
  ∧ match s with
    | EmptyString => True
    | String c s' => no_match kw (Some c) s'
    end.

(** [pat] occurs in [s], in any mix of upper and lower case. *)
Fixpoint mentions_ci (pat s : string) : bool :=
  Text.prefix_ci pat s
  || match s with
     | EmptyString => false
     | String _ s' => mentions_ci pat s'
     end.

(** A text and what a scan makes of it, as far as a look-ahead can tell:
    the same characters up to the first replacement, which starts with a
    space and a slash. *)
Inductive annotated : string → string → Prop :=
| annotated_end : annotated EmptyString EmptyString
| annotated_same c s o : annotated s o → annotated (String c s) (String c o)
| annotated_mark s o : annotated s (String " " (String "/" o)).

(** The characters of a keyword: no space, in either case. *)
Definition letters (kw : string) : Prop :=
  Text.all_chars (λ c, negb (Ascii.eqb (Text.upper c) " ")) kw = true
  ∧ ∀ r, Text.prefix_ci kw (String "/" r) = false.

End Unnesting.

(** The text that emit_from writes for a node, as [sql_from_tree] puts it
    after FROM. *)
Definition from_text (n : Node) : string :=
  Sqlify.fmt (default None (Sqlify.emit_from n)).

(** The test of breakup_conjuncts on a node, and the nodes that fail it. *)
Definition is_conjunction (o : string) (p : Props) : bool :=
  String.eqb o "Select" && Text.contains " AND " (get_pred p).

Definition plain (o : string) (p : Props) : bool := negb (is_conjunction o p).

(** No conjunction has a conjunction somewhere below its first child. *)
Fixpoint shielded (node : Node) : bool :=
  match node with
  | mkNode o cs p =>
      if is_conjunction o p then
        match cs with
        | c0 :: _ => all_nodes plain c0
        | [] => true
        end
      else forallb shielded cs
  end.

(** ** The result of dedup_selections as the design document words it

    "The first occurrence of a given predicate text is kept at its original
    position; any later Select node anywhere in the tree carrying identical
    predicate text is removed (its child is spliced into its parent's
    slot)."  The Select nodes are numbered in pre-order, from 0.  The
    Select of number [i] is a later occurrence when its text is the text of
    a Select of a smaller number.  [splice_out] rebuilds the tree with
    every node in its place, except that a later occurrence gives way to
    its child.  None of this is read off the code of the pass; the pass is
    compared with it. *)


Section MapThread.
Context {A B S : Type} (f : A → S → B * S).
End MapThread.




(** A weight, with every Having that fails the test [aggregate_having]
    weighed as a Select with the same properties. *)
Definition having_as_select (w : string → Props → nat) (o : string) (p : Props) : nat :=
  if aggregate_having o p then w o p else w "Select" p.

(** ** Sample trees *)

Module Sample.
Definition scan_a : Node := leaf_scan "A" (Some "a").
Definition scan_b : Node := leaf_scan "B" (Some "b").
Definition scan_c : Node := leaf_scan "C" (Some "c").
Definition select (prd : string) (pa : list string) (c : Node) : Node :=
  mkNode "Select" [c] (pred_props prd pa).
Definition cross (l r : Node) : Node := join "Cross" None l r [] [].
Definition project (l : list string) (c : Node) : Node :=
  mkNode "Project" [c] (attrs_props l).

(** The canonical tree of
    [SELECT a.x, SUM(b.y) FROM A a JOIN B b ON a.id = b.aid
     WHERE a.x > 5 AND b.y < 100 GROUP BY a.x]. *)
Definition grouped_query : Node :=
  project ["a.x"]
    (mkNode "Group"
       [select "a.id = b.aid" []
          (select "b.y < 100" ["b.y"]
             (select "a.x > 5" ["a.x"] (cross scan_a scan_b)))]
       (group_props ["a.x"] [("SUM(b.y)", "SUM(b.y)")])).

(** A conjunction kept in one Select. *)
Definition conjunction : Node :=
  select "a.x > 5 AND b.y < 100" ["a.x"; "b.y"] (cross scan_a scan_b).

(** A disjunction with a conjunction in parentheses. *)
Definition parenthesised : Node :=
  select "(a.x = 1 AND a.y = 2) OR a.z = 3" ["a.x"; "a.y"; "a.z"] scan_a.


(** A predicate on [a.x] and a column [y] with no alias, above a product. *)
Definition half_qualified : Node :=
  select "a.x > y" ["a.x"; "y"] (cross scan_a scan_b).

(** An equality between two columns of the same side, above a product:
    [SELECT * FROM A a JOIN B b ON a.x = a.y]. *)
Definition same_side_equality : Node :=
  select "a.x = a.y" [] (cross scan_a scan_b).

(** [SELECT x, a.y FROM A a] *)
Definition bare_column : Node := project ["x"; "a.y"] scan_a.

(** [SELECT a.x FROM A a] *)
Definition one_column : Node := project ["a.x"] scan_a.
End Sample.

(** * Properties *)

(** ** The text functions on sample texts *)

Module TextTests.
Import Text.

Example split1 : re_split_AND "a.x > 5 AND b.y < 100" = ["a.x > 5"; "b.y < 100"].
Proof. reflexivity. Qed.
Example split2 : re_split_AND " AND b" = [""; "b"].
Proof. reflexivity. Qed.
Example split3 : re_split_AND "a AND " = ["a"; ""].
Proof. reflexivity. Qed.
Example split4 : re_split_AND "a   AND   b AND c" = ["a"; "b"; "c"].
Proof. reflexivity. Qed.
Example split5 : re_split_AND "a ANDb AND c" = ["a ANDb"; "c"].
Proof. reflexivity. Qed.
Example eq1 : match_equality " a.id = b.aid " = Some ("a", "id", "b", "aid").
Proof. reflexivity. Qed.
Example eq2 : match_equality "a.id = 3" = None.
Proof. reflexivity. Qed.
Example agg1 : has_aggregate_call "COUNT(*) > 1" = true.
Proof. reflexivity. Qed.
Example agg2 : has_aggregate_call "a.x > 5" = false.
Proof. reflexivity. Qed.
Example agg3 : has_aggregate_call "discount (x) > 5" = false.
Proof. reflexivity. Qed.
Example agg4 : has_aggregate_call "1 < sum (x)" = true.
Proof. reflexivity. Qed.
Example tok1 : agg_tokens "SUM(b.y)" = ["SUM"; "b.y"].
Proof. reflexivity. Qed.
Example sort1 : sorted ["b.y"; "a.x"; "a.b"] = ["a.b"; "a.x"; "b.y"].
Proof. reflexivity. Qed.
Example dot1 : before_dot "a.x.y" = "a" ∧ before_dot "x" = "x" ∧ has_dot "x" = false.
Proof. repeat split; reflexivity. Qed.
Example split6 : re_split_AND "a.x = 1 and a.y = 2" = ["a.x = 1 and a.y = 2"].
Proof. reflexivity. Qed.
Example eq3 : match_equality "b.aid=a.id" = Some ("b", "aid", "a", "id").
Proof. reflexivity. Qed.
Example eq4 : match_equality "a.id = b.aid AND a.x = 1" = None.
Proof. reflexivity. Qed.
Example agg5 : has_aggregate_call "a.max > 5" = false.
Proof. reflexivity. Qed.
Example agg6 : has_aggregate_call "a.max(x)" = true ∧ has_aggregate_call "_SUM(x)" = false
  ∧ has_aggregate_call "9SUM(x)" = false ∧ has_aggregate_call "(SUM(x))" = true.
Proof. repeat split; reflexivity. Qed.
Example split7 : re_split_AND "x AND AND y" = ["x"; "AND y"]
  ∧ re_split_AND "a AND  AND b" = ["a"; "AND b"].
Proof. split; reflexivity. Qed.
Example split8 :
  re_split_AND (String "a" (String " " (String "009" (String "A" (String "N" (String "D"
                  (String "010" (String " " (String "b" EmptyString)))))))))
  = ["a"; "b"].
Proof. reflexivity. Qed.
Example eq5 :
  match_equality (String "a" (String "." (String "x" (String "=" (String "b" (String "."
                    (String "y" (String "010" EmptyString))))))))
  = Some ("a", "x", "b", "y").
Proof. reflexivity. Qed.
Example eq6 : match_equality "a.x==b.y" = None ∧ match_equality "a.x.y = b.z" = None.
Proof. split; reflexivity. Qed.
Example sort2 : sorted ["b.y"; "a.x"; "a.b"; "B.z"; "a"] = ["B.z"; "a"; "a.b"; "a.x"; "b.y"].
Proof. reflexivity. Qed.
Example classes :
  List.filter (λ n, is_space (ascii_of_nat n)) (seq 0 256)
  = [9; 10; 11; 12; 13; 28; 29; 30; 31; 32; 133; 160]
  ∧ length (List.filter (λ n, is_word (ascii_of_nat n)) (seq 0 256)) = 134.
Proof. split; vm_compute; reflexivity. Qed.
End TextTests.

(** ** Facts on the traversals *)

Ltac string_eqs :=
  repeat match goal with
         | H : String.eqb _ _ = true |- _ => apply String.eqb_eq in H; subst
         | H : String.eqb _ _ = false |- _ => apply String.eqb_neq in H
         end.

Lemma map_opt_Forall2 {A B} (f : A → option B) l l' :
  map_opt f l = Some l' ↔ Forall2 (λ x y, f x = Some y) l l'.
Proof.
  revert l'. induction l as [|x l IH]; intros l'; cbn [map_opt].
  - split.
    + intros [= <-]. constructor.
    + intros H. inversion H. reflexivity.
  - split.
    + intros H. destruct (f x) as [y|] eqn:Ey; [|discriminate].
      cbn in H. destruct (map_opt f l) as [ys|] eqn:Eys; [|discriminate].
      cbn in H. injection H as <-. constructor; [exact Ey|]. apply IH. reflexivity.
    + intros H. inversion H as [|? y ? ys Hy Hys]; subst.
      rewrite Hy. cbn. apply IH in Hys. rewrite Hys. reflexivity.
Qed.

Lemma map_opt_id {A} (f : A → option A) l :
  Forall (λ x, f x = Some x) l → map_opt f l = Some l.
Proof.
  intros H. apply map_opt_Forall2. induction H; constructor; assumption.
Qed.

Lemma map_opt_total {A B} (f : A → option B) (P : A → Prop) (Q : B → Prop) l :
  Forall P l → Forall (λ x, P x → ∃ y, f x = Some y ∧ Q y) l →
  ∃ l', map_opt f l = Some l' ∧ Forall2 (λ x y, f x = Some y) l l' ∧ Forall Q l'.
Proof.
  intros HP H. induction H as [|x l Hx Hl IH].
  - exists []. repeat split; constructor.
  - inversion HP as [|? ? Px Pl]; subst.
    destruct (Hx Px) as (y & Hy & Qy). destruct (IH Pl) as (ys & Hys & F2 & FQ).
    exists (y :: ys). cbn [map_opt]. rewrite Hy. cbn. rewrite Hys. cbn.
    repeat split; constructor; assumption.
Qed.

Lemma map_run_Forall2 {A B} (f : A → run B) l l' :
  map_run f l = Done l' ↔ Forall2 (λ x y, f x = Done y) l l'.
Proof.
  revert l'. induction l as [|x l IH]; intros l'; cbn [map_run].
  - split.
    + intros [= <-]. constructor.
    + intros H. inversion H. reflexivity.
  - split.
    + intros H. destruct (f x) as [y| |] eqn:Ey; try discriminate.
      cbn in H. destruct (map_run f l) as [ys| |] eqn:Eys; try discriminate.
      cbn in H. injection H as <-. constructor; [exact Ey|]. apply IH. reflexivity.
    + intros H. inversion H as [|? y ? ys Hy Hys]; subst.
      rewrite Hy. cbn. apply IH in Hys. rewrite Hys. reflexivity.
Qed.

Lemma forallb_Forall {A} (f : A → bool) l :
  forallb f l = true ↔ Forall (λ x, f x = true) l.
Proof.
  induction l as [|x l IH]; cbn [forallb].
  - split; [constructor|reflexivity].
  - rewrite andb_true_iff, IH. split.
    + intros [? ?]. constructor; assumption.
    + intros H. inversion H. split; assumption.
Qed.


Lemma bind_not_starved {A B} (r : run A) (f : A → run B) :
  r ≫= f ≠ Starved → r ≠ Starved.
Proof. intros H ->. apply H. reflexivity. Qed.

Lemma map_run_not_starved {A B} (f : A → run B) l :
  Forall (λ x, f x ≠ Starved) l → map_run f l ≠ Starved.
Proof.
  induction 1 as [|x l Hx _ IH]; cbn [map_run]; [done|].
  destruct (f x); [|done|done]. cbn. destruct (map_run f l); done.
Qed.

Lemma map_run_ext_not_starved {A B} (f g : A → run B) l :
  Forall (λ x, f x ≠ Starved → g x = f x) l →
  map_run f l ≠ Starved → map_run g l = map_run f l.
Proof.
  induction 1 as [|x l Hx _ IH]; cbn [map_run]; [done|].
  intros H. pose proof (bind_not_starved _ _ H) as Hfx.
  rewrite (Hx Hfx). destruct (f x) as [y| |]; [|done|done]. cbn in *.
  pose proof (bind_not_starved _ _ H) as Hl. rewrite (IH Hl). reflexivity.
Qed.

Lemma sum_sizes_Forall2 (f : Node → nat) l l' :
  Forall2 (λ x y, f y = f x) l l' → sum_list_with f l' = sum_list_with f l.
Proof. induction 1 as [|x y l l' H _ IH]; cbn; [reflexivity|]. rewrite H, IH. reflexivity. Qed.

Lemma size_pos n : 1 ≤ size n.
Proof. destruct n. cbn. lia. Qed.

Lemma size_child_le (c : Node) cs : c ∈ cs → size c ≤ sum_list_with size cs.
Proof.
  induction 1 as [|? ? ? _ IH]; cbn; lia.
Qed.

(** ** Facts on texts *)

Module TextFacts.
Import Text.

Lemma prefix_app (pat s : string) :
  String.prefix pat s = true → ∃ r, s = pat +:+ r.
Proof.
  revert s. induction pat as [|a pat IH]; intros s H.
  - exists s. reflexivity.
  - destruct s as [|b s]; simpl in H; [discriminate|].
    destruct (ascii_dec a b) as [->|]; [|discriminate].
    destruct (IH _ H) as [r ->]. exists r. reflexivity.
Qed.


Lemma sep_len_at_AND (r : string) : is_Some (sep_len (" AND " +:+ r)).
Proof.
  unfold sep_len.
  change (" AND " +:+ r) with (String " " (String "A" (String "N" (String "D" (String " " r))))).
  change (span is_space (String " " (String "A" (String "N" (String "D" (String " " r))))))
    with (String " " EmptyString, String "A" (String "N" (String "D" (String " " r)))).
  cbn [is_empty].
  change (String.prefix "AND" (String "A" (String "N" (String "D" (String " " r))))) with true.
  cbn [drop].
  change (span is_space (String " " r))
    with (let '(a, b) := span is_space r in (String " "%char a, b)).
  destruct (span is_space r) as [a b]. cbn [is_empty]. eauto.
Qed.



(** *** The pattern of joinize *)

Lemma append_cons c a b : String c a +:+ b = String c (a +:+ b).
Proof. reflexivity. Qed.

Lemma append_nil_r a : a +:+ EmptyString = a.
Proof. induction a as [|c a IH]; [reflexivity|]. rewrite append_cons, IH. reflexivity. Qed.

Lemma word_not_space c : is_word c = true → is_space c = false.
Proof. destruct c as [[] [] [] [] [] [] [] []]; vm_compute; congruence. Qed.

Lemma span_app p a b :
  all_chars p a = true → starts_outside p b → span p (a +:+ b) = (a, b).
Proof.
  induction a as [|c a IH]; intros Ha Hb.
  - change (EmptyString +:+ b) with b. destruct b as [|c b]; [reflexivity|].
    cbn in Hb |- *. rewrite Hb. reflexivity.
  - cbn [all_chars] in Ha. apply andb_true_iff in Ha as [Hc Ha].
    rewrite append_cons. cbn [span]. rewrite Hc, (IH Ha Hb). reflexivity.
Qed.

Lemma span_spec p s :
  ∀ a b, span p s = (a, b) → s = a +:+ b ∧ all_chars p a = true ∧ starts_outside p b.
Proof.
  induction s as [|c s IH]; intros a b H; cbn [span] in H.
  - injection H as <- <-. repeat split.
  - destruct (p c) eqn:Hc.
    + destruct (span p s) as [a' b']. injection H as <- <-.
      destruct (IH _ _ eq_refl) as (-> & Ha & Hb).
      split; [reflexivity|]. split; [|exact Hb]. cbn. rewrite Hc, Ha. reflexivity.
    + injection H as <- <-. repeat split. exact Hc.
Qed.

Lemma skip_spaces_app w r :
  all_chars is_space w = true → starts_outside is_space r → skip_spaces (w +:+ r) = r.
Proof. intros Hw Hr. unfold skip_spaces. rewrite (span_app _ _ _ Hw Hr). reflexivity. Qed.

Lemma skip_spaces_spec s :
  ∃ w, s = w +:+ skip_spaces s ∧ all_chars is_space w = true
       ∧ starts_outside is_space (skip_spaces s).
Proof.
  unfold skip_spaces. destruct (span is_space s) as [w r] eqn:E.
  exists w. exact (span_spec _ _ _ _ E).
Qed.

Lemma word_run_app g r :
  all_chars is_word g = true → g ≠ EmptyString → starts_outside is_word r →
  word_run (g +:+ r) = Some (g, r).
Proof.
  intros Hg Hne Hr. unfold word_run. rewrite (span_app _ _ _ Hg Hr).
  destruct g; [done|reflexivity].
Qed.

Lemma word_run_spec s g r :
  word_run s = Some (g, r) →
  s = g +:+ r ∧ all_chars is_word g = true ∧ g ≠ EmptyString ∧ starts_outside is_word r.
Proof.
  unfold word_run. destruct (span is_word s) as [g' r'] eqn:E.
  destruct g' as [|c g']; [discriminate|]. intros [= <- <-].
  destruct (span_spec _ _ _ _ E) as (-> & Hg & Hr). repeat split; try assumption. discriminate.
Qed.

Lemma expect_spec c s r : expect c s = Some r ↔ s = String c r.
Proof.
  unfold expect. destruct s as [|d s]; [split; discriminate|].
  destruct (Ascii.eqb_spec d c) as [->|Hne].
  - split; intros [= ->]; reflexivity.
  - split; [discriminate|]. intros [= -> ->]. done.
Qed.

Lemma expect_app c r : expect c (String c EmptyString +:+ r) = Some r.
Proof. change (String c EmptyString +:+ r) with (String c r). cbn. rewrite Ascii.eqb_refl. reflexivity. Qed.

Lemma starts_outside_after_word p g r :
  all_chars is_word g = true → g ≠ EmptyString →
  (∀ c, is_word c = true → p c = false) → starts_outside p (g +:+ r).
Proof.
  intros Hg Hne Hp. destruct g as [|c g]; [done|]. rewrite append_cons. cbn in *.
  apply andb_true_iff in Hg as [Hc _]. apply Hp, Hc.
Qed.

Lemma space_not_word c : is_space c = true → is_word c = false.
Proof. destruct c as [[] [] [] [] [] [] [] []]; vm_compute; congruence. Qed.

Lemma starts_outside_after_spaces w r :
  all_chars is_space w = true → starts_outside is_word r → starts_outside is_word (w +:+ r).
Proof.
  intros Hw Hr. destruct w as [|c w]; [exact Hr|]. rewrite append_cons. cbn in *.
  apply andb_true_iff in Hw as [Hc _]. apply space_not_word, Hc.
Qed.

Lemma is_empty_true s : is_empty s = true ↔ s = EmptyString.
Proof. destruct s; split; (done || discriminate). Qed.

(** The scan of [match_equality] accepts the texts of the pattern, and
    those only. *)
Lemma match_equality_spec pred g1 g2 g3 g4 :
  match_equality pred = Some (g1, g2, g3, g4) ↔ equality_text pred g1 g2 g3 g4.
Proof.
  split.
  - unfold match_equality. intros H.
    destruct (skip_spaces_spec pred) as (w0 & E0 & H0 & _).
    destruct (word_run (skip_spaces pred)) as [[a1 s1]|] eqn:R1; [|discriminate].
    cbn in H. apply word_run_spec in R1 as (E1 & Ha1 & Na1 & _).
    destruct (expect "." s1) as [s2|] eqn:X1; [|discriminate]. cbn in H.
    apply expect_spec in X1.
    destruct (word_run s2) as [[a2 s3]|] eqn:R2; [|discriminate]. cbn in H.
    apply word_run_spec in R2 as (E2 & Ha2 & Na2 & _).
    destruct (skip_spaces_spec s3) as (w1 & E3 & H1 & _).
    destruct (expect "=" (skip_spaces s3)) as [s4|] eqn:X2; [|discriminate]. cbn in H.
    apply expect_spec in X2.
    destruct (skip_spaces_spec s4) as (w2 & E4 & H2 & _).
    destruct (word_run (skip_spaces s4)) as [[a3 s5]|] eqn:R3; [|discriminate]. cbn in H.
    apply word_run_spec in R3 as (E5 & Ha3 & Na3 & _).
    destruct (expect "." s5) as [s6|] eqn:X3; [|discriminate]. cbn in H.
    apply expect_spec in X3.
    destruct (word_run s6) as [[a4 s7]|] eqn:R4; [|discriminate]. cbn in H.
    apply word_run_spec in R4 as (E6 & Ha4 & Na4 & _).
    destruct (skip_spaces_spec s7) as (w3 & E7 & H3 & _).
    destruct (is_empty (skip_spaces s7)) eqn:Ee; [|discriminate].
    apply is_empty_true in Ee. rewrite Ee, append_nil_r in E7.
    injection H as <- <- <- <-.
    exists w0, w1, w2, w3. split; [|split; repeat constructor; assumption].
    rewrite E0, E1, X1, E2, E3, X2, E4, E5, X3, E6, <- E7. reflexivity.
  - intros (w0 & w1 & w2 & w3 & -> & Hw & Hg).
    inversion Hw as [|? ? H0 Hw1]; subst. inversion Hw1 as [|? ? H1 Hw2]; subst.
    inversion Hw2 as [|? ? H2 Hw3]; subst. inversion Hw3 as [|? ? H3 _]; subst.
    inversion Hg as [|? ? [Ha1 Na1] Hg1]; subst. inversion Hg1 as [|? ? [Ha2 Na2] Hg2]; subst.
    inversion Hg2 as [|? ? [Ha3 Na3] Hg3]; subst. inversion Hg3 as [|? ? [Ha4 Na4] _]; subst.
    unfold match_equality.
    rewrite skip_spaces_app;
      [|exact H0|apply starts_outside_after_word; [assumption..|apply word_not_space]].
    rewrite word_run_app; [|assumption..|reflexivity]. cbn.
    rewrite expect_app. cbn.
    rewrite word_run_app;
      [|assumption..|apply starts_outside_after_spaces; [assumption|reflexivity]]. cbn.
    rewrite skip_spaces_app; [|assumption|reflexivity].
    rewrite expect_app. cbn.
    rewrite skip_spaces_app;
      [|exact H2|apply starts_outside_after_word; [assumption..|apply word_not_space]].
    rewrite word_run_app; [|assumption..|reflexivity]. cbn.
    rewrite expect_app. cbn.
    rewrite word_run_app;
      [|assumption..|destruct w3 as [|c w3]; [exact I|];
                    cbn in H3 |- *; apply andb_true_iff in H3 as [Hc _];
                    apply space_not_word, Hc]. cbn.
    rewrite <- (append_nil_r w3) at 1.
    rewrite skip_spaces_app; [reflexivity|assumption|exact I].
Qed.


(** *** The pattern of having_to_where *)

Lemma prefix_ci_spec nm s :
  prefix_ci nm s = true ↔ ∃ txt r, s = txt +:+ r ∧ same_ci nm txt = true.
Proof.
  revert s. induction nm as [|a nm IH]; intros s; cbn [prefix_ci].
  - split; [|reflexivity]. intros _. exists EmptyString, s. split; reflexivity.
  - destruct s as [|b s].
    + split; [discriminate|]. intros (txt & r & E & H).
      destruct txt; [discriminate|discriminate].
    + destruct (Ascii.eqb (upper a) (upper b)) eqn:Eab.
      * rewrite IH. split.
        -- intros (txt & r & -> & H). exists (String b txt), r.
           split; [reflexivity|]. cbn. rewrite Eab, H. reflexivity.
        -- intros (txt & r & E & H). destruct txt as [|c txt]; [discriminate|].
           rewrite append_cons in E. injection E as -> ->. cbn in H.
           apply andb_true_iff in H as [_ H]. eauto.
      * split; [discriminate|]. intros (txt & r & E & H).
        destruct txt as [|c txt]; [discriminate|].
        rewrite append_cons in E. injection E as -> ->. cbn in H.
        rewrite Eab in H. discriminate.
Qed.

Lemma drop_same_ci nm txt r :
  same_ci nm txt = true → drop (String.length nm) (txt +:+ r) = r.
Proof.
  revert txt. induction nm as [|a nm IH]; intros [|b txt] H; try discriminate.
  - destruct r; reflexivity.
  - cbn in H. apply andb_true_iff in H as [_ H]. rewrite append_cons. cbn. apply IH, H.
Qed.

Lemma opens_paren_spec r :
  opens_paren r = true
  ↔ ∃ ws post, r = ws +:+ "(" +:+ post ∧ all_chars is_space ws = true.
Proof.
  unfold opens_paren. split.
  - intros H. destruct (skip_spaces_spec r) as (w & E & Hw & _).
    destruct (skip_spaces r) as [|c post]; [discriminate|].
    destruct (Ascii.eqb_spec c "(") as [->|Hne].
    + exists w, post. split; assumption.
    + exfalso. revert H Hne. clear. destruct c as [[] [] [] [] [] [] [] []]; cbn; congruence.
  - intros (ws & post & -> & Hw). rewrite skip_spaces_app; [reflexivity|exact Hw|reflexivity].
Qed.

Lemma agg_call_here_spec s :
  agg_call_here s = true
  ↔ ∃ nm txt ws post,
      nm ∈ agg_names ∧ same_ci nm txt = true ∧ all_chars is_space ws = true
      ∧ s = txt +:+ ws +:+ "(" +:+ post.
Proof.
  unfold agg_call_here. rewrite existsb_exists. split.
  - intros (nm & Hin & H). apply andb_true_iff in H as [Hp Ho].
    apply prefix_ci_spec in Hp as (txt & r & -> & Hci).
    rewrite (drop_same_ci _ _ _ Hci) in Ho.
    apply opens_paren_spec in Ho as (ws & post & -> & Hw).
    exists nm, txt, ws, post. rewrite list_elem_of_In. auto.
  - intros (nm & txt & ws & post & Hin & Hci & Hw & ->).
    exists nm. rewrite <- list_elem_of_In. split; [exact Hin|].
    apply andb_true_iff. split.
    + apply prefix_ci_spec. eauto.
    + rewrite (drop_same_ci _ _ _ Hci). apply opens_paren_spec. eauto.
Qed.

Lemma search_agg_spec s :
  ∀ prev,
    search_agg prev s = true
    ↔ ∃ pre rest, s = pre +:+ rest
                  ∧ word_boundary (last_char prev pre) rest = true
                  ∧ agg_call_here rest = true.
Proof.
  induction s as [|c s IH]; intros prev; cbn [search_agg].
  - rewrite orb_false_r. split.
    + intros H. apply andb_true_iff in H as [H1 H2]. exists EmptyString, EmptyString. auto.
    + intros (pre & rest & E & H1 & H2).
      destruct pre; [|discriminate]. change (EmptyString +:+ rest) with rest in E.
      subst rest. cbn in H1. rewrite H1, H2. reflexivity.
  - rewrite orb_true_iff, andb_true_iff, IH. split.
    + intros [[H1 H2]|(pre & rest & -> & H1 & H2)].
      * exists EmptyString, (String c s). auto.
      * exists (String c pre), rest. auto.
    + intros (pre & rest & E & H1 & H2). destruct pre as [|d pre].
      * change (EmptyString +:+ rest) with rest in E. subst rest. left. auto.
      * rewrite append_cons in E. injection E as -> ->. right. eauto.
Qed.

(** The scan of [has_aggregate_call] finds the texts of the pattern, and
    those only. *)
Lemma has_aggregate_call_spec pred :
  has_aggregate_call pred = true ↔ aggregate_call_text pred.
Proof.
  unfold has_aggregate_call, aggregate_call_text. rewrite search_agg_spec. split.
  - intros (pre & rest & -> & Hb & Hh).
    apply agg_call_here_spec in Hh as (nm & txt & ws & post & Hin & Hci & Hw & ->).
    exists pre, nm, txt, ws, post. auto.
  - intros (pre & nm & txt & ws & post & -> & Hin & Hci & Hw & Hb).
    exists pre, (txt +:+ ws +:+ "(" +:+ post). split; [reflexivity|]. split; [exact Hb|].
    apply agg_call_here_spec. exists nm, txt, ws, post. auto.
Qed.


(** *** The pieces of re_split_AND *)

Lemma append_assoc a b c : (a +:+ b) +:+ c = a +:+ (b +:+ c).
Proof. induction a as [|x a IH]; [reflexivity|]. rewrite !append_cons, IH. reflexivity. Qed.

Lemma rev_app_append s1 s2 : String.rev_app s1 s2 = String.rev s1 +:+ s2.
Proof.
  unfold String.rev. revert s2. induction s1 as [|c s1 IH]; intros s2; [reflexivity|].
  cbn [String.rev_app]. rewrite IH, (IH (String c EmptyString)), append_assoc. reflexivity.
Qed.

Lemma rev_cons c s : String.rev (String c s) = String.rev s +:+ String c EmptyString.
Proof. unfold String.rev at 1. cbn [String.rev_app]. apply rev_app_append. Qed.

Lemma contains_spec pat s :
  contains pat s = true → ∃ u r, s = u +:+ pat +:+ r.
Proof.
  induction s as [|c s IH]; cbn [contains]; intros H.
  - rewrite orb_false_r in H. apply prefix_app in H as [r ->]. exists EmptyString, r. reflexivity.
  - apply orb_true_iff in H as [H|H].
    + apply prefix_app in H as [r ->]. exists EmptyString, r. reflexivity.
    + destruct (IH H) as (u & r & ->). exists (String c u), r. reflexivity.
Qed.

Lemma append_snoc_inv u v a c :
  u +:+ v = a +:+ String c EmptyString → v ≠ EmptyString →
  ∃ v0, v = v0 +:+ String c EmptyString ∧ a = u +:+ v0.
Proof.
  revert a. induction u as [|x u IH]; intros a E Hv.
  - change (EmptyString +:+ v) with v in E. subst v. exists a. split; reflexivity.
  - destruct a as [|y a].
    + rewrite append_cons in E. change (EmptyString +:+ String c EmptyString)
        with (String c EmptyString) in E.
      injection E as -> E. destruct u; [|discriminate].
      change (EmptyString +:+ v) with v in E. contradiction.
    + rewrite !append_cons in E. injection E as -> E.
      destruct (IH _ E Hv) as (v0 & -> & ->). exists v0. split; reflexivity.
Qed.

Lemma unmatched_free piece rest :
  unmatched piece rest → contains " AND " piece = false.
Proof.
  intros H. destruct (contains " AND " piece) eqn:E; [|reflexivity].
  apply contains_spec in E as (u & r & ->).
  specialize (H u (" AND " +:+ r) eq_refl ltac:(discriminate)).
  rewrite append_assoc in H. destruct (sep_len_at_AND (r +:+ rest)) as [n Hn]. congruence.
Qed.

Lemma re_split_go_free s :
  ∀ skip cur,
    unmatched (String.rev cur) s → (skip ≠ 0 → cur = EmptyString) →
    Forall (λ part, contains " AND " part = false) (re_split_go skip cur s).
Proof.
  induction s as [|c s IH]; intros skip cur Hu Hs; cbn [re_split_go].
  - constructor; [|constructor]. exact (unmatched_free _ _ Hu).
  - destruct skip as [|k].
    + destruct (sep_len (String c s)) as [n|] eqn:E.
      * constructor; [exact (unmatched_free _ _ Hu)|].
        apply IH; [|reflexivity]. intros u v Huv Hv.
        destruct u; [|discriminate]. change (EmptyString +:+ v) with v in Huv.
        subst v. done.
      * apply IH; [|done]. rewrite rev_cons. intros u v Huv Hv.
        destruct (append_snoc_inv _ _ _ _ (eq_sym Huv) Hv) as (v0 & -> & Hcur).
        rewrite append_assoc. change (String c EmptyString +:+ s) with (String c s).
        destruct v0 as [|x v0]; [exact E|].
        apply (Hu u (String x v0)); [exact Hcur|discriminate].
    + rewrite (Hs ltac:(discriminate)) in *. apply IH; [|reflexivity].
      intros u v Huv Hv. destruct u; [|discriminate].
      change (EmptyString +:+ v) with v in Huv. subst v. done.
Qed.

(** No piece of the split contains [" AND "]. *)
Lemma re_split_AND_free s :
  Forall (λ part, contains " AND " part = false) (re_split_AND s).
Proof.
  apply re_split_go_free; [|done]. intros u v Huv Hv.
  destruct u; [|discriminate]. change (EmptyString +:+ v) with v in Huv. subst v. done.
Qed.

End TextFacts.

(** ** Pass 1: breakup_conjuncts *)

Lemma select_chain_cons q parts pa cur :
  select_chain (q :: parts) pa cur
  = mkNode "Select" [select_chain parts pa cur] (pred_props q pa).
Proof. unfold select_chain. rewrite reverse_cons, foldl_app. reflexivity. Qed.


Lemma breakup_helper_split c rest p s :
  pred p = Some s → Text.contains " AND " s = true →
  breakup_helper (mkNode "Select" (c :: rest) p)
  = Some (select_chain (Text.re_split_AND s) (get_pred_attrs p) c).
Proof.
  intros Hp Hc. cbn [breakup_helper].
  unfold get_pred at 1. rewrite Hp.
  change (default "" (Some s)) with s. simpl String.eqb.
  rewrite Hc. reflexivity.
Qed.

Lemma breakup_helper_keep o cs p :
  String.eqb o "Select" && Text.contains " AND " (get_pred p) = false →
  breakup_helper (mkNode o cs p)
  = cs' ← map_opt breakup_helper cs; Some (mkNode o cs' p).
Proof. intros H. cbn [breakup_helper]. rewrite H. reflexivity. Qed.






(** ** Pass 3: joinize *)

(** What joinize does with a Select whose first child has become a Cross:
    the text of the predicate decides alone. *)
Lemma joinize_select_over_cross c p l r cp :
  joinize c = Some (mkNode "Cross" [l; r] cp) →
  joinize (mkNode "Select" [c] p)
  = Some match Text.match_equality (get_pred p) with
         | Some (g1, g2, g3, g4) =>
             mkNode "Join" [l; r]
               (join_props (Some (get_pred p)) [g1 +:+ "." +:+ g2] [g3 +:+ "." +:+ g4])
         | None => mkNode "Select" [mkNode "Cross" [l; r] cp] p
         end.
Proof.
  unfold joinize. intros H. cbn [joinize_helper map_opt]. rewrite H. cbn.
  destruct (Text.match_equality (get_pred p)) as [[[[g1 g2] g3] g4]|]; reflexivity.
Qed.

(** C1 fails on the code: the pattern of [joinize] looks at the text of the
    predicate only, never at the aliases of the two sides, so an equality
    between two columns of the left side is turned into a Join as well. *)
Lemma joinize_converts_same_side_equality :
  Text.match_equality "a.x = a.y" = Some ("a", "x", "a", "y")
  ∧ aliases Sample.scan_a = Some {[ "a" ]}
  ∧ aliases Sample.scan_b = Some {[ "b" ]}
  ∧ joinize Sample.same_side_equality
    = Some (mkNode "Join" [Sample.scan_a; Sample.scan_b]
              (join_props (Some "a.x = a.y") ["a.x"] ["a.y"])).
Proof. repeat split; vm_compute; reflexivity. Qed.

(** ** Pass 4: projection_pushdown *)

(** C3 fails on the code: the column [x], which the root Project lists, is
    not among the columns of the Project that the pass puts above the
    Scan. *)
Lemma projection_pushdown_drops_bare_column :
  projection_pushdown Sample.bare_column
  = Some (Sample.project ["x"; "a.y"] (Sample.project ["a.y"] Sample.scan_a)).
Proof. vm_compute. reflexivity. Qed.

(** C4, as stated, fails: projection_pushdown turns a canonical tree with
    its one Project into a tree with two. *)
Lemma projection_pushdown_adds_a_project :
  canonical Sample.one_column = true
  ∧ grammar_invariants Sample.one_column = true
  ∧ ∃ t', projection_pushdown Sample.one_column = Some t'
          ∧ count_op "Project" t' = 2
          ∧ grammar_invariants t' = false.
Proof.
  split; [reflexivity|]. split; [reflexivity|].
  exists (Sample.project ["a.x"] (Sample.project ["a.x"] Sample.scan_a)).
  repeat split; vm_compute; reflexivity.
Qed.

(** ** Pass 2: selection_pushdown *)

(** C2, as stated, fails: a Select that refers to a column with no alias is
    pushed below the product all the same. *)
Lemma selection_pushdown_pushes_half_qualified :
  get_pred_attrs (props Sample.half_qualified) = ["a.x"; "y"]
  ∧ Text.has_dot "y" = false
  ∧ selection_pushdown Sample.half_qualified
    = Some (Sample.cross (Sample.select "a.x > y" ["a.x"; "y"] Sample.scan_a)
                         Sample.scan_b).
Proof. repeat split; vm_compute; reflexivity. Qed.

(** ** Pass 6: having_to_where *)

Lemma having_helper_scan_leaf n :
  is_scan_leaf n = true → having_helper n = Some n.
Proof.
  destruct n as [o cs p]. unfold is_scan_leaf. cbn [op children props].
  intros H. apply andb_true_iff in H as [H _]. apply andb_true_iff in H as [Ho Hc].
  destruct cs; [|discriminate]. string_eqs. reflexivity.
Qed.

Lemma having_helper_cross_chain n :
  is_cross_chain n = true → having_helper n = Some n.
Proof.
  induction n as [o cs p IH] using Node_ind. cbn [is_cross_chain].
  destruct (String.eqb o "Cross") eqn:Eo.
  - string_eqs. destruct cs as [|l [|r [|? ?]]]; try discriminate.
    intros H. apply andb_true_iff in H as [Hl Hr].
    inversion IH as [|? ? IHl _]; subst.
    cbn [having_helper]. simpl String.eqb. cbn iota.
    cbn [map_opt]. rewrite (IHl Hl), (having_helper_scan_leaf _ Hr). reflexivity.
  - apply having_helper_scan_leaf.
Qed.

Lemma having_helper_select_chain n :
  is_select_chain n = true → having_helper n = Some n.
Proof.
  induction n as [o cs p IH] using Node_ind. cbn [is_select_chain].
  destruct (String.eqb o "Select") eqn:Eo.
  - string_eqs. destruct cs as [|c [|? ?]]; try discriminate.
    intros H. inversion IH as [|? ? IHc _]; subst.
    cbn [having_helper]. simpl String.eqb. cbn iota.
    cbn [map_opt]. rewrite (IHc H). reflexivity.
  - apply having_helper_cross_chain.
Qed.

Lemma having_helper_group n :
  is_group_over_selects n = true → having_helper n = Some n.
Proof.
  destruct n as [o cs p]. unfold is_group_over_selects. cbn [op children].
  intros H. apply andb_true_iff in H as [Ho Hc]. string_eqs.
  destruct cs as [|c [|? ?]]; try discriminate.
  cbn [having_helper]. simpl String.eqb. cbn iota.
  cbn [map_opt]. rewrite (having_helper_select_chain _ Hc). reflexivity.
Qed.

Lemma having_helper_plug k body body' :
  having_helper body = Some body' →
  having_helper (plug k body) = Some (plug k body').
Proof.
  intros H. destruct k; cbn [plug having_helper]; simpl String.eqb; cbn iota;
    cbn [map_opt having_helper]; simpl String.eqb; cbn iota; cbn [map_opt];
    rewrite H; reflexivity.
Qed.

(** C6.  On a canonical tree with a Having (above its Group), the pass
    leaves the tree as it is when the text of the Having holds a call of
    SUM, COUNT, AVG, MIN or MAX, and otherwise drops the Having and puts a
    Select with the properties of the Having between the Group and its
    former child; a canonical tree with no Having is left as it is. *)
Theorem having_to_where_moves_plain_predicates (k : top_context) :
  (∀ hp gp c,
     is_select_chain c = true →
     let t := plug k (mkNode "Having" [mkNode "Group" [c] gp] hp) in
     canonical t = true
     ∧ having_to_where t
       = Some (if Text.has_aggregate_call (get_pred hp) then t
               else plug k (mkNode "Group" [mkNode "Select" [c] hp] gp)))
  ∧ (∀ body,
       is_grouped body = true → String.eqb (op body) "Having" = false →
       canonical (plug k body) = true
       ∧ having_to_where (plug k body) = Some (plug k body)).
Proof.
  split.
  - intros hp gp c Hc t. subst t. split.
    + destruct k; cbn; rewrite Hc; reflexivity.
    + unfold having_to_where.
      destruct (Text.has_aggregate_call (get_pred hp)) eqn:Eagg;
        apply having_helper_plug;
        cbn [having_helper]; simpl String.eqb; cbn iota; rewrite Eagg;
        cbn [having_helper]; simpl String.eqb; cbn iota; cbn [map_opt];
        rewrite (having_helper_select_chain _ Hc); reflexivity.
  - intros body Hb Hh. split.
    + destruct k; cbn; rewrite Hb; reflexivity.
    + unfold having_to_where. apply having_helper_plug.
      unfold is_grouped in Hb. rewrite Hh in Hb.
      destruct (String.eqb (op body) "Group").
      * apply having_helper_group, Hb.
      * apply having_helper_select_chain, Hb.
Qed.

Lemma having_to_where_moves_plain_predicates_witness :
  (let t := plug (TopProject (attrs_props ["a.x"]))
              (mkNode "Having" [mkNode "Group" [Sample.scan_a] (group_props ["a.x"] [])]
                 (pred_props "a.x > 5" ["a.x"])) in
   canonical t = true
   ∧ having_to_where t
     = Some (plug (TopProject (attrs_props ["a.x"]))
               (mkNode "Group"
                  [mkNode "Select" [Sample.scan_a] (pred_props "a.x > 5" ["a.x"])]
                  (group_props ["a.x"] []))))
  ∧ (canonical (plug (TopProject (attrs_props ["a.x"])) Sample.scan_a) = true
     ∧ having_to_where (plug (TopProject (attrs_props ["a.x"])) Sample.scan_a)
       = Some (plug (TopProject (attrs_props ["a.x"])) Sample.scan_a)).
Proof.
  split.
  - exact (proj1 (having_to_where_moves_plain_predicates (TopProject (attrs_props ["a.x"])))
             (pred_props "a.x > 5" ["a.x"]) (group_props ["a.x"] []) Sample.scan_a eq_refl).
  - exact (proj2 (having_to_where_moves_plain_predicates (TopProject (attrs_props ["a.x"])))
             Sample.scan_a eq_refl eq_refl).
Defined.

(** ** Pass 7: dedup_selections *)

Lemma keep_first_elem seen l x :
  x ∈ keep_first seen l ↔ x ∈ l ∧ x ∉ seen.
Proof.
  revert seen. induction l as [|y l IH]; intros seen; cbn [keep_first].
  - set_solver.
  - destruct (decide (y ∈ seen)).
    + rewrite IH, elem_of_cons. split.
      * intros [? ?]. split; [right|]; set_solver.
      * intros [[->|?] ?]; [done|]. split; [done|]. set_solver.
    + rewrite !elem_of_cons, IH. split.
      * intros [->|[? ?]]; [tauto|]. split; [tauto|]. set_solver.
      * intros [[->|?] ?]; [tauto|]. destruct (decide (x = y)); [tauto|].
        right. split; [done|]. set_solver.
Qed.

Lemma keep_first_app seen l1 l2 :
  keep_first seen (l1 ++ l2)
  = keep_first seen l1 ++ keep_first (seen ∪ list_to_set l1) l2.
Proof.
  revert seen. induction l1 as [|y l1 IH]; intros seen; cbn [keep_first app].
  - f_equal. set_solver.
  - destruct (decide (y ∈ seen)).
    + rewrite IH. f_equal. f_equal. set_solver.
    + cbn [app]. f_equal. rewrite IH. f_equal. f_equal. set_solver.
Qed.



Lemma dedup_keeps_first_children cs :
  Forall dedup_keeps_first cs →
  ∀ seen cs' seen',
    forallb selects_unary cs = true →
    map_state dedup_helper cs seen = Some (cs', seen') →
    concat (select_preds <$> cs') = keep_first seen (concat (select_preds <$> cs))
    ∧ seen' = seen ∪ list_to_set (concat (select_preds <$> cs)).
Proof.
  induction 1 as [|c cs Hc _ IH]; intros seen cs' seen' U H;
    cbn [map_state] in H; cbn [forallb] in U.
  - injection H as <- <-. cbn. split; [reflexivity|set_solver].
  - apply andb_true_iff in U as [Uc Ucs].
    destruct (dedup_helper c seen) as [[c' s1]|] eqn:E1; [|discriminate]. cbn in H.
    destruct (map_state dedup_helper cs s1) as [[cs1 s2]|] eqn:E2; [|discriminate].
    cbn in H. injection H as <- <-.
    destruct (Hc _ _ _ Uc E1) as (Hp1 & ->).
    destruct (IH _ _ _ Ucs E2) as (Hp2 & ->).
    cbn [fmap list_fmap concat]. rewrite keep_first_app, Hp1, Hp2.
    split; [reflexivity|]. rewrite list_to_set_app_L. set_solver.
Qed.

Lemma dedup_helper_keeps_first t : dedup_keeps_first t.
Proof.
  induction t as [o cs p IH] using Node_ind.
  intros seen t' seen' U H. cbn [dedup_helper] in H. cbn [selects_unary] in U.
  apply andb_true_iff in U as [U1 Ucs].
  destruct (String.eqb o "Select") eqn:Eo.
  - string_eqs. destruct cs as [|c0 [|? ?]]; try discriminate.
    inversion IH as [|? ? IH0 _]; subst.
    cbn [forallb] in Ucs. rewrite andb_true_r in Ucs.
    cbn [select_preds]. simpl String.eqb. cbn iota.
    cbn [fmap list_fmap concat app]. rewrite app_nil_r.
    cbn [keep_first].
    destruct (decide (get_pred p ∈ seen)) as [Hin|Hnot].
    + destruct (IH0 _ _ _ Ucs H) as (-> & ->). split; [reflexivity|set_solver].
    + destruct (dedup_helper c0 ({[get_pred p]} ∪ seen)) as [[c s1]|] eqn:E1;
        [|discriminate].
      cbn in H. injection H as <- <-.
      destruct (IH0 _ _ _ Ucs E1) as (Hp & ->).
      cbn [select_preds]. simpl String.eqb. cbn iota.
      cbn [fmap list_fmap concat app]. rewrite app_nil_r, Hp.
      split; [reflexivity|set_solver].
  - destruct (map_state dedup_helper cs seen) as [[cs' s1]|] eqn:E1; [|discriminate].
    cbn in H. injection H as <- <-.
    destruct (dedup_keeps_first_children cs IH _ _ _ Ucs E1) as (Hp & ->).
    cbn [select_preds]. rewrite Eo. cbn [app]. split; [exact Hp|reflexivity].
Qed.

(** *** The pass and the tree of the design document *)






(** ** Pass 2: the fuel of selection_pushdown *)

Lemma pushdown_helper_mono k :
  ∀ n k', pushdown_helper k n ≠ Starved → k ≤ k' →
          pushdown_helper k' n = pushdown_helper k n.
Proof.
  induction k as [|k IH]; intros n k' H Hle; [done|].
  destruct k' as [|k']; [lia|]. assert (k ≤ k') as Hk by lia.
  destruct n as [o cs p]. cbn [pushdown_helper] in *.
  destruct (String.eqb o "Select").
  - destruct cs as [|c0 rest]; [reflexivity|].
    pose proof (bind_not_starved _ _ H) as H0. rewrite (IH _ _ H0 Hk).
    destruct (pushdown_helper k c0) as [child| |]; [|done|done]. cbn in *.
    destruct (decide (involved_aliases p = ∅)); [reflexivity|].
    destruct (is_join (op child)); [|reflexivity].
    destruct (children child) as [|l [|r [|? ?]]]; try reflexivity.
    destruct (lift (aliases l)) as [la| |]; [|done|done]. cbn in *.
    destruct (lift (aliases r)) as [ra| |]; [|done|done]. cbn in *.
    destruct (decide (involved_aliases p ⊆ la)).
    + pose proof (bind_not_starved _ _ H) as H1. rewrite (IH _ _ H1 Hk). reflexivity.
    + destruct (decide (involved_aliases p ⊆ ra)); [|reflexivity].
      pose proof (bind_not_starved _ _ H) as H1. rewrite (IH _ _ H1 Hk). reflexivity.
  - pose proof (bind_not_starved _ _ H) as H0.
    rewrite (map_run_ext_not_starved (pushdown_helper k) (pushdown_helper k')); [reflexivity| |exact H0].
    apply Forall_forall. intros c _ Hc. apply IH; assumption.
Qed.

(** With the size of the tree as fuel the recursion never starves, and the
    pass keeps the number of nodes. *)
Lemma pushdown_helper_fuel k :
  ∀ n, size n ≤ k →
       pushdown_helper k n ≠ Starved
       ∧ ∀ r, pushdown_helper k n = Done r → size r = size n.
Proof.
  induction k as [|k IH]; intros n Hk.
  { pose proof (size_pos n). lia. }
  destruct n as [o cs p]. cbn [size] in Hk. cbn [pushdown_helper].
  destruct (String.eqb o "Select").
  - destruct cs as [|c0 rest]; [split; [done|discriminate]|].
    cbn [sum_list_with] in Hk.
    destruct (IH c0 ltac:(lia)) as [N0 S0].
    destruct (pushdown_helper k c0) as [child| |]; [|split; [done|discriminate]|done].
    cbn. specialize (S0 _ eq_refl).
    assert (∀ r, Done (mkNode o (child :: rest) p) = Done r
                 → size r = size (mkNode o (c0 :: rest) p)) as Stay.
    { intros r [= <-]. cbn. lia. }
    destruct (decide (involved_aliases p = ∅)); [split; [done|exact Stay]|].
    destruct (is_join (op child)); [|split; [done|exact Stay]].
    destruct child as [oc csc pc]. cbn [children op props] in *.
    destruct csc as [|l [|r [|? ?]]]; try (split; [done|discriminate]).
    cbn [size sum_list_with] in S0.
    destruct (aliases l) as [la|]; [|split; [done|discriminate]]. cbn.
    destruct (aliases r) as [ra|]; [|split; [done|discriminate]]. cbn.
    pose proof (size_pos l). pose proof (size_pos r).
    destruct (decide (involved_aliases p ⊆ la)).
    + destruct (IH (mkNode o (l :: rest) p)) as [N1 S1]; [cbn; lia|].
      destruct (pushdown_helper k (mkNode o (l :: rest) p)) as [sub| |];
        [|split; [done|discriminate]|done].
      cbn. split; [done|]. intros x [= <-]. specialize (S1 _ eq_refl).
      cbn in *. lia.
    + destruct (decide (involved_aliases p ⊆ ra)); [|split; [done|exact Stay]].
      destruct (IH (mkNode o (r :: rest) p)) as [N1 S1]; [cbn; lia|].
      destruct (pushdown_helper k (mkNode o (r :: rest) p)) as [sub| |];
        [|split; [done|discriminate]|done].
      cbn. split; [done|]. intros x [= <-]. specialize (S1 _ eq_refl).
      cbn in *. lia.
  - assert (Forall (λ c, pushdown_helper k c ≠ Starved
                         ∧ ∀ r, pushdown_helper k c = Done r → size r = size c) cs) as F.
    { apply Forall_forall. intros c Hc. apply IH.
      pose proof (size_child_le c cs Hc). lia. }
    split.
    + pose proof (map_run_not_starved (pushdown_helper k) cs) as NS.
      destruct (map_run (pushdown_helper k) cs); cbn; [done|done|].
      exfalso. apply NS; [|reflexivity].
      eapply Forall_impl; [exact F|]. intros c [? _]. assumption.
    + intros r H.
      destruct (map_run (pushdown_helper k) cs) as [cs'| |] eqn:E; try discriminate.
      cbn in H. injection H as <-. cbn. f_equal.
      apply sum_sizes_Forall2. apply map_run_Forall2 in E.
      clear -E F. induction E as [|c c' cs cs' Hc _ IHE]; [constructor|].
      inversion F as [|? ? [_ Sc] Fcs]; subst. constructor; [apply Sc, Hc|apply IHE, Fcs].
Qed.

Lemma selection_pushdown_Some n r :
  selection_pushdown n = Some r ↔ pushdown_helper (size n) n = Done r.
Proof.
  unfold selection_pushdown. destruct (pushdown_helper (size n) n); cbn; split; congruence.
Qed.

(** A call inside the recursion, with the fuel that is left there, returns
    what the pass returns on that node. *)
Lemma pushdown_helper_settle k n r :
  size n ≤ k → pushdown_helper k n = Done r → selection_pushdown n = Some r.
Proof.
  intros Hk H. apply selection_pushdown_Some.
  rewrite <- H. symmetry. apply pushdown_helper_mono; [|exact Hk].
  apply pushdown_helper_fuel. lia.
Qed.

(** C2 (as amended).  The pass reads the aliases of the dotted tokens of
    [pred_attrs] only.  A Select goes below its Join or Cross child (the
    child as the pass has left it) only when that set of aliases is not
    empty and is included in the aliases of the left side, where it then
    goes, or else in the aliases of the right side; in every other case,
    and so whenever no token of [pred_attrs] has a dot, it stays above its
    child. *)
Theorem selection_pushdown_follows_qualified_aliases
    (c : Node) (rest : list Node) (p : Props) (t' : Node) :
  selection_pushdown (mkNode "Select" (c :: rest) p) = Some t' →
  ∃ c',
    selection_pushdown c = Some c'
    ∧ ((t' = mkNode "Select" (c' :: rest) p
        ∧ (involved_aliases p = ∅
           ∨ is_join (op c') = false
           ∨ ∃ l r la ra,
               children c' = [l; r] ∧ aliases l = Some la ∧ aliases r = Some ra
               ∧ involved_aliases p ⊈ la ∧ involved_aliases p ⊈ ra))
       ∨ (∃ l r la ra,
            involved_aliases p ≠ ∅ ∧ is_join (op c') = true
            ∧ children c' = [l; r] ∧ aliases l = Some la ∧ aliases r = Some ra
            ∧ ((involved_aliases p ⊆ la
                ∧ ∃ sub, selection_pushdown (mkNode "Select" (l :: rest) p) = Some sub
                         ∧ t' = mkNode (op c') [sub; r] (props c'))
               ∨ (involved_aliases p ⊈ la ∧ involved_aliases p ⊆ ra
                  ∧ ∃ sub, selection_pushdown (mkNode "Select" (r :: rest) p) = Some sub
                           ∧ t' = mkNode (op c') [l; sub] (props c'))))).
Proof.
  intros H. apply selection_pushdown_Some in H.
  cbn [size sum_list_with] in H. cbn [pushdown_helper] in H.
  simpl String.eqb in H. cbn iota in H.
  set (k := size c + sum_list_with size rest) in *.
  destruct (pushdown_helper k c) as [c'| |] eqn:Ec; try discriminate. cbn in H.
  assert (size c ≤ k) as Hc by (unfold k; lia).
  pose proof (proj2 (pushdown_helper_fuel k c Hc) _ Ec) as Sc.
  exists c'. split; [exact (pushdown_helper_settle _ _ _ Hc Ec)|].
  destruct (decide (involved_aliases p = ∅)) as [He|Hne].
  { injection H as <-. left. split; [reflexivity|]. left. exact He. }
  destruct (is_join (op c')) eqn:Ej.
  2:{ injection H as <-. left. split; [reflexivity|]. right. left. reflexivity. }
  destruct c' as [oc csc pc]. cbn [children op props] in *.
  destruct csc as [|l [|r [|? ?]]]; try discriminate.
  cbn [size sum_list_with] in Sc.
  destruct (aliases l) as [la|] eqn:El; [|discriminate]. cbn in H.
  destruct (aliases r) as [ra|] eqn:Er; [|discriminate]. cbn in H.
  pose proof (size_pos l). pose proof (size_pos r).
  destruct (decide (involved_aliases p ⊆ la)) as [Hl|Hl].
  - destruct (pushdown_helper k (mkNode "Select" (l :: rest) p)) as [sub| |] eqn:Es;
      try discriminate.
    cbn in H. injection H as <-. right. exists l, r, la, ra.
    repeat (split; [done|]). left. split; [exact Hl|]. exists sub. split; [|reflexivity].
    apply (pushdown_helper_settle k); [cbn; unfold k; lia|exact Es].
  - destruct (decide (involved_aliases p ⊆ ra)) as [Hr|Hr].
    + destruct (pushdown_helper k (mkNode "Select" (r :: rest) p)) as [sub| |] eqn:Es;
        try discriminate.
      cbn in H. injection H as <-. right. exists l, r, la, ra.
      repeat (split; [done|]). right. split; [exact Hl|]. split; [exact Hr|].
      exists sub. split; [|reflexivity].
      apply (pushdown_helper_settle k); [cbn; unfold k; lia|exact Es].
    + injection H as <-. left. split; [reflexivity|]. right. right.
      exists l, r, la, ra. repeat (split; [done|]). done.
Qed.

Lemma selection_pushdown_follows_qualified_aliases_witness :
  ∃ c',
    selection_pushdown (Sample.cross Sample.scan_a Sample.scan_b) = Some c'
    ∧ ((Sample.cross (Sample.select "a.x > y" ["a.x"; "y"] Sample.scan_a) Sample.scan_b
        = mkNode "Select" [c'] (pred_props "a.x > y" ["a.x"; "y"])
        ∧ (involved_aliases (pred_props "a.x > y" ["a.x"; "y"]) = ∅
           ∨ is_join (op c') = false
           ∨ ∃ l r la ra,
               children c' = [l; r] ∧ aliases l = Some la ∧ aliases r = Some ra
               ∧ involved_aliases (pred_props "a.x > y" ["a.x"; "y"]) ⊈ la
               ∧ involved_aliases (pred_props "a.x > y" ["a.x"; "y"]) ⊈ ra))
       ∨ (∃ l r la ra,
            involved_aliases (pred_props "a.x > y" ["a.x"; "y"]) ≠ ∅
            ∧ is_join (op c') = true
            ∧ children c' = [l; r] ∧ aliases l = Some la ∧ aliases r = Some ra
            ∧ ((involved_aliases (pred_props "a.x > y" ["a.x"; "y"]) ⊆ la
                ∧ ∃ sub,
                    selection_pushdown
                      (mkNode "Select" [l] (pred_props "a.x > y" ["a.x"; "y"])) = Some sub
                    ∧ Sample.cross (Sample.select "a.x > y" ["a.x"; "y"] Sample.scan_a)
                        Sample.scan_b
                      = mkNode (op c') [sub; r] (props c'))
               ∨ (involved_aliases (pred_props "a.x > y" ["a.x"; "y"]) ⊈ la
                  ∧ involved_aliases (pred_props "a.x > y" ["a.x"; "y"]) ⊆ ra
                  ∧ ∃ sub,
                      selection_pushdown
                        (mkNode "Select" [r] (pred_props "a.x > y" ["a.x"; "y"])) = Some sub
                      ∧ Sample.cross (Sample.select "a.x > y" ["a.x"; "y"] Sample.scan_a)
                          Sample.scan_b
                        = mkNode (op c') [l; sub] (props c'))))).
Proof.
  exact (selection_pushdown_follows_qualified_aliases
           (Sample.cross Sample.scan_a Sample.scan_b) []
           (pred_props "a.x > y" ["a.x"; "y"])
           (Sample.cross (Sample.select "a.x > y" ["a.x"; "y"] Sample.scan_a) Sample.scan_b)
           ltac:(vm_compute; reflexivity)).
Defined.

(** ** Well-formed trees *)

Lemma node_ok_shape o cs p : node_ok o cs p = true ↔ shape o cs p.
Proof.
  split.
  - unfold node_ok, has_arity, arity, is_join. intros H.
    destruct (String.eqb o "Scan") eqn:E1.
    { string_eqs. cbn in H. destruct cs; [|discriminate]. cbn in H.
      rewrite andb_true_r in H. apply bool_decide_eq_true in H. constructor. exact H. }
    destruct (String.eqb o "Select") eqn:E2.
    { string_eqs. cbn in H. destruct cs as [|c [|? ?]]; try discriminate. constructor. }
    destruct (String.eqb o "Project") eqn:E3.
    { string_eqs. cbn in H. destruct cs as [|c [|? ?]]; try discriminate. constructor. }
    destruct (String.eqb o "Group") eqn:E4.
    { string_eqs. cbn in H. destruct cs as [|c [|? ?]]; try discriminate. constructor. }
    destruct (String.eqb o "Having") eqn:E5.
    { string_eqs. cbn in H. destruct cs as [|c [|? ?]]; try discriminate.
      cbn in H. constructor. string_eqs. exact H. }
    destruct (String.eqb o "Order") eqn:E6.
    { string_eqs. cbn in H. destruct cs as [|c [|? ?]]; try discriminate. constructor. }
    destruct (String.eqb o "Cross") eqn:E7.
    { string_eqs. cbn in H. destruct cs as [|l [|r [|? ?]]]; try discriminate. constructor. }
    destruct (String.eqb o "Join") eqn:E8.
    { string_eqs. cbn in H. destruct cs as [|l [|r [|? ?]]]; try discriminate. constructor. }
    cbn in H. discriminate.
  - intros H. destruct H as [p H| | | | |g p H| |]; try reflexivity.
    + unfold node_ok. cbn. rewrite andb_true_r. apply bool_decide_eq_true. exact H.
    + unfold node_ok. cbn. rewrite H. reflexivity.
Qed.

Lemma well_formed_node o cs p :
  well_formed (mkNode o cs p) = true
  ↔ shape o cs p ∧ Forall (λ c, well_formed c = true) cs.
Proof.
  cbn [well_formed]. rewrite andb_true_iff, node_ok_shape, forallb_Forall. reflexivity.
Qed.

Lemma well_formed_ind (P : Node → Prop) :
  (∀ o cs p, shape o cs p → Forall (λ c, well_formed c = true) cs →
             Forall P cs → P (mkNode o cs p)) →
  ∀ t, well_formed t = true → P t.
Proof.
  intros step t. induction t as [o cs p IH] using Node_ind. intros H.
  apply well_formed_node in H as [Hs Hcs]. apply step; [exact Hs|exact Hcs|].
  clear Hs. induction Hcs as [|c cs Hc _ IHcs]; [constructor|].
  inversion IH; subst. constructor; auto.
Qed.

Lemma well_formed_arity_ok t : well_formed t = true → arity_ok t = true.
Proof.
  revert t. apply well_formed_ind. intros o cs p Hs _ IH.
  cbn [arity_ok]. apply andb_true_iff. split.
  - apply node_ok_shape in Hs. unfold node_ok in Hs.
    apply andb_true_iff in Hs as [Hs _]. apply andb_true_iff in Hs as [Hs _]. exact Hs.
  - apply forallb_Forall. exact IH.
Qed.

Lemma well_formed_aliases t : well_formed t = true → is_Some (aliases t).
Proof.
  revert t. apply well_formed_ind. intros o cs p Hs _ IH.
  assert (is_Some (map_opt aliases cs)) as [sets Hsets].
  { clear Hs. induction IH as [|c cs [a Ha] _ [l Hl]]; cbn [map_opt]; [eauto|].
    rewrite Ha. cbn. rewrite Hl. cbn. eauto. }
  destruct Hs as [p [a Ha]| | | | | | |]; cbn [aliases]; simpl String.eqb; cbn iota;
    try (rewrite Hsets; cbn; eauto).
  rewrite Ha. cbn. eauto.
Qed.

(** ** What the passes keep *)

Lemma kept_weaken t t' : kept true t t' → kept false t t'.
Proof. intros (? & E & ? & ?). split; [|split; [|split]]; try assumption. cbn in *. lia. Qed.

Lemma kept_refl strict t : well_formed t = true → kept strict t t.
Proof.
  intros H. split; [|split; [|split]]; try assumption; try tauto.
  destruct strict; cbn; lia.
Qed.

Lemma count_op_children name o cs cs' p :
  sum_list_with (count_op name) cs' = sum_list_with (count_op name) cs →
  count_op name (mkNode o cs' p) = count_op name (mkNode o cs p).
Proof. intros H. cbn. rewrite H. reflexivity. Qed.

(** A node whose children have been processed one by one. *)
Lemma kept_children strict o cs cs' p :
  shape o cs p → Forall2 (kept strict) cs cs' →
  kept strict (mkNode o cs p) (mkNode o cs' p).
Proof.
  intros Hs F. split; [|split; [|split]].
  - apply well_formed_node. split.
    + destruct Hs; repeat match goal with
                          | H : Forall2 _ (_ :: _) _ |- _ => inversion H; clear H; subst
                          | H : Forall2 _ [] _ |- _ => inversion H; clear H; subst
                          end; try (constructor; assumption); try constructor.
      match goal with H : kept _ g _ |- _ => destruct H as (_ & _ & Hst & _) end.
      rewrite Hst; [assumption|]. rewrite H. reflexivity.
    + clear Hs. induction F as [|c c' cs cs' (Hw & _) _ IH]; constructor; assumption.
  - assert (if strict
            then sum_list_with (count_op "Project") cs' = sum_list_with (count_op "Project") cs
            else sum_list_with (count_op "Project") cs ≤ sum_list_with (count_op "Project") cs')
      as Hsum.
    { clear Hs. induction F as [|c c' cs cs' (_ & Hc & _) _ IH].
      - destruct strict; cbn; lia.
      - destruct strict; cbn in *; lia. }
    destruct strict; cbn in *; lia.
  - reflexivity.
  - unfold project_on_top. cbn [op children].
    intros H. apply orb_true_iff in H as [H|H]; [rewrite H; reflexivity|].
    apply andb_true_iff in H as [Ho Hc]. rewrite Ho. cbn.
    destruct F as [|c c' cs cs' (_ & _ & Hst & _) _]; [discriminate|].
    string_eqs. rewrite Hst; [rewrite Hc; reflexivity|]. rewrite Hc. reflexivity.
Qed.

Lemma map_opt_kept strict (f : Node → option Node) cs :
  Forall (λ c, ∃ c', f c = Some c' ∧ kept strict c c') cs →
  ∃ cs', map_opt f cs = Some cs' ∧ Forall2 (kept strict) cs cs'.
Proof.
  induction 1 as [|c cs (c' & Hc & Kc) _ (cs' & Hcs & Kcs)].
  - exists []. split; [reflexivity|constructor].
  - exists (c' :: cs'). cbn [map_opt]. rewrite Hc. cbn. rewrite Hcs. cbn.
    split; [reflexivity|constructor; assumption].
Qed.

(** The result of a pass that only processes the children of a node. *)
Lemma kept_by_children strict (f : Node → option Node) o cs p :
  shape o cs p →
  Forall (λ c, ∃ c', f c = Some c' ∧ kept strict c c') cs →
  ∃ t', (cs' ← map_opt f cs; Some (mkNode o cs' p)) = Some t'
        ∧ kept strict (mkNode o cs p) t'.
Proof.
  intros Hs F. destruct (map_opt_kept strict f cs F) as (cs' & E & K).
  exists (mkNode o cs' p). rewrite E. split; [reflexivity|].
  apply kept_children; assumption.
Qed.

(** A Select replaced by something that keeps what its child had. *)
Lemma kept_in_place_of_select (strict : bool) c rest p t' :
  well_formed t' = true →
  (if strict then count_op "Project" t' = count_op "Project" (mkNode "Select" (c :: rest) p)
   else count_op "Project" (mkNode "Select" (c :: rest) p) ≤ count_op "Project" t') →
  kept strict (mkNode "Select" (c :: rest) p) t'.
Proof. intros Hw Hc. split; [|split; [|split]]; try assumption; discriminate. Qed.

Lemma well_formed_join_children t :
  well_formed t = true → is_join (op t) = true →
  ∃ l r, children t = [l; r] ∧ well_formed l = true ∧ well_formed r = true.
Proof.
  destruct t as [o cs p]. intros H Hj. apply well_formed_node in H as [Hs Hcs].
  cbn [op children] in *.
  destruct Hs; try discriminate;
    inversion Hcs as [|? ? ? Hr]; subst; inversion Hr; subst; eauto.
Qed.

Lemma well_formed_group_child t :
  well_formed t = true → op t = "Group" →
  ∃ c, children t = [c] ∧ well_formed c = true.
Proof.
  destruct t as [o cs p]. intros H Hg. apply well_formed_node in H as [Hs Hcs].
  cbn [op children] in *. subst o.
  inversion Hs; subst. inversion Hcs; subst. eauto.
Qed.

(** *** breakup_conjuncts *)

Lemma select_chain_well_formed parts pa cur :
  well_formed cur = true → well_formed (select_chain parts pa cur) = true.
Proof.
  intros H. induction parts as [|q parts IH]; [exact H|].
  rewrite select_chain_cons. apply well_formed_node. split; [constructor|].
  constructor; [exact IH|constructor].
Qed.

Lemma select_chain_count name parts pa cur :
  String.eqb "Select" name = false →
  count_op name (select_chain parts pa cur) = count_op name cur.
Proof.
  intros Hn. induction parts as [|q parts IH]; [reflexivity|].
  rewrite select_chain_cons. cbn [count_op sum_list_with]. rewrite Hn, IH. lia.
Qed.

Lemma breakup_helper_kept t :
  well_formed t = true → ∃ t', breakup_helper t = Some t' ∧ kept true t t'.
Proof.
  revert t. apply well_formed_ind. intros o cs p Hs Hcs IH.
  destruct (String.eqb o "Select" && Text.contains " AND " (get_pred p)) eqn:E.
  - apply andb_true_iff in E as [Eo Ec]. string_eqs.
    inversion Hs; subst. inversion Hcs; subst.
    unfold get_pred in Ec. destruct (pred p) as [s|] eqn:Ep; [|discriminate].
    cbn [default from_option id] in Ec.
    eexists. split; [apply breakup_helper_split; eassumption|].
    apply kept_in_place_of_select.
    + apply select_chain_well_formed. assumption.
    + rewrite select_chain_count by reflexivity. cbn. lia.
  - rewrite (breakup_helper_keep _ _ _ E).
    apply kept_by_children; assumption.
Qed.

(** *** joinize *)

Lemma joinize_helper_kept t :
  well_formed t = true → ∃ t', joinize_helper t = Some t' ∧ kept true t t'.
Proof.
  revert t. apply well_formed_ind. intros o cs p Hs Hcs IH.
  destruct (String.eqb o "Select") eqn:Eo.
  - string_eqs. inversion Hs; subst.
    destruct (map_opt_kept _ _ _ IH) as (cs' & E & K).
    inversion K as [|? c' ? ? Kc K0]; subst. inversion K0; subst.
    cbn [joinize_helper]. rewrite E. cbn.
    destruct (String.eqb (op c') "Cross") eqn:Ec.
    + destruct (Text.match_equality (get_pred p)) as [[[[g1 g2] g3] g4]|].
      * destruct Kc as (Wc & Cc & _).
        destruct (well_formed_join_children c' Wc) as (l & r & Hch & Wl & Wr).
        { unfold is_join. rewrite Ec. reflexivity. }
        rewrite Hch. eexists. split; [reflexivity|].
        apply kept_in_place_of_select.
        -- apply well_formed_node. split; [constructor|]. repeat constructor; assumption.
        -- cbn in Cc |- *. rewrite <- Cc. destruct c' as [oc csc pc].
           cbn [op children] in *. subst csc. string_eqs. cbn. lia.
      * eexists. split; [reflexivity|]. apply kept_children; [constructor|exact K].
    + eexists. split; [reflexivity|]. apply kept_children; [constructor|exact K].
  - destruct (kept_by_children true joinize_helper o cs p Hs IH) as (t' & E & K).
    exists t'. split; [|exact K].
    cbn [joinize_helper]. rewrite Eo.
    destruct (map_opt joinize_helper cs); [exact E|discriminate].
Qed.

(** *** having_to_where *)

Lemma having_helper_kept t :
  well_formed t = true → ∃ t', having_helper t = Some t' ∧ kept true t t'.
Proof.
  revert t. apply well_formed_ind. intros o cs p Hs Hcs IH.
  destruct (String.eqb o "Having") eqn:Eo.
  - string_eqs. inversion Hs as [| | | | |g ? Hg| |]; subst.
    inversion IH as [|? ? (g' & Eg & Kg) _]; subst.
    cbn [having_helper]. simpl String.eqb. cbn iota.
    destruct (Text.has_aggregate_call (get_pred p)).
    + rewrite Eg. cbn. eexists. split; [reflexivity|].
      apply kept_children; [exact Hs|]. constructor; [exact Kg|constructor].
    + rewrite Eg. cbn. destruct Kg as (Wg & Cg & Sg & _).
      assert (op g' = "Group") as Hg' by (rewrite Sg; [exact Hg|rewrite Hg; reflexivity]).
      destruct (well_formed_group_child g' Wg Hg') as (c & Hch & Wc).
      rewrite Hch. eexists. split; [reflexivity|].
      split; [|split; [|split]].
      * apply well_formed_node. rewrite Hg'. split; [constructor|].
        constructor; [|constructor]. apply well_formed_node.
        split; [constructor|]. constructor; [exact Wc|constructor].
      * cbn in Cg |- *. destruct g' as [og csg pg]. cbn [op children props] in *.
        subst og csg. cbn in *. lia.
      * discriminate.
      * discriminate.
  - cbn [having_helper]. rewrite Eo. apply kept_by_children; assumption.
Qed.

(** *** dedup_selections *)

Lemma map_state_kept (f : Node → gset string → option (Node * gset string)) cs :
  Forall (λ c, ∀ seen, ∃ c' seen', f c seen = Some (c', seen') ∧ kept true c c') cs →
  ∀ seen, ∃ cs' seen', map_state f cs seen = Some (cs', seen') ∧ Forall2 (kept true) cs cs'.
Proof.
  induction 1 as [|c cs Hc _ IH]; intros seen.
  - exists [], seen. split; [reflexivity|constructor].
  - destruct (Hc seen) as (c' & s1 & E1 & K1). destruct (IH s1) as (cs' & s2 & E2 & K2).
    exists (c' :: cs'), s2. cbn [map_state]. rewrite E1. cbn. rewrite E2. cbn.
    split; [reflexivity|constructor; assumption].
Qed.

Lemma dedup_helper_kept t :
  well_formed t = true →
  ∀ seen, ∃ t' seen', dedup_helper t seen = Some (t', seen') ∧ kept true t t'.
Proof.
  intros Ht. pattern t. revert t Ht. apply well_formed_ind.
  intros o cs p Hs Hcs IH seen.
  destruct (String.eqb o "Select") eqn:Eo.
  - string_eqs. inversion Hs; subst. inversion IH as [|? ? IHc _]; subst.
    cbn [dedup_helper]. simpl String.eqb. cbn iota.
    destruct (decide (get_pred p ∈ seen)).
    + destruct (IHc seen) as (c' & s1 & E1 & (W1 & C1 & _)).
      exists c', s1. split; [exact E1|].
      apply kept_in_place_of_select; [exact W1|]. cbn in *. lia.
    + destruct (IHc ({[get_pred p]} ∪ seen)) as (c' & s1 & E1 & K1).
      rewrite E1. cbn. eexists _, _. split; [reflexivity|].
      apply kept_children; [constructor|]. constructor; [exact K1|constructor].
  - destruct (map_state_kept dedup_helper cs IH seen) as (cs' & s1 & E1 & K1).
    cbn [dedup_helper]. rewrite Eo, E1. cbn. eexists _, _. split; [reflexivity|].
    apply kept_children; assumption.
Qed.

(** *** projection_pushdown *)

Lemma side_need_total needed keys side :
  well_formed side = true → is_Some (side_need needed keys side).
Proof.
  intros H. unfold side_need. destruct (decide _); [eauto|].
  destruct (well_formed_aliases side H) as [al ->]. cbn. eauto.
Qed.

Lemma projection_helper_kept t :
  well_formed t = true →
  ∀ needed, ∃ t', projection_helper t needed = Some t' ∧ kept false t t'.
Proof.
  intros Ht. pattern t. revert t Ht. apply well_formed_ind.
  intros o cs p Hs Hcs IH needed.
  assert (∀ c needed', Forall (λ c, ∀ needed, ∃ c', projection_helper c needed = Some c'
                                                    ∧ kept false c c') [c] →
            shape o [c] p →
            ∃ t', (child ← projection_helper c needed'; Some (mkNode o [child] p)) = Some t'
                  ∧ kept false (mkNode o [c] p) t') as Unary.
  { intros c needed' F Hs'. inversion F as [|? ? Hc _]; subst.
    destruct (Hc needed') as (c' & E & K). rewrite E. cbn.
    eexists. split; [reflexivity|]. apply kept_children; [exact Hs'|].
    constructor; [exact K|constructor]. }
  destruct Hs as [p [a Ha]|c p|c p|c p|c p|g p Hg|l r p|l r p];
    cbn [projection_helper]; simpl String.eqb; cbn iota.
  - destruct (decide _).
    + eexists. split; [reflexivity|]. apply kept_refl.
      apply well_formed_node. split; [constructor; eauto|constructor].
    + rewrite Ha. cbn.
      assert (well_formed (mkNode "Scan" [] p) = true) as Wn.
      { apply well_formed_node. split; [constructor; eauto|constructor]. }
      destruct (List.filter _ _).
      * eexists. split; [reflexivity|]. apply kept_refl. exact Wn.
      * eexists. split; [reflexivity|]. split; [|split; [|split]].
        -- apply well_formed_node. split; [constructor|]. constructor; [exact Wn|constructor].
        -- cbn. lia.
        -- discriminate.
        -- discriminate.
  - apply Unary; [exact IH|constructor].
  - apply Unary; [exact IH|constructor].
  - apply Unary; [exact IH|constructor].
  - apply Unary; [exact IH|constructor].
  - apply Unary; [exact IH|constructor; exact Hg].
  - inversion Hcs as [|? ? Wl Hcs']; subst. inversion Hcs' as [|? ? Wr _]; subst.
    inversion IH as [|? ? IHl IH']; subst. inversion IH' as [|? ? IHr _]; subst.
    destruct (side_need_total needed
                (list_to_set (get_join_keys_left p) ∪ list_to_set (get_join_keys_right p))
                l Wl) as [ln ->].
    destruct (side_need_total needed
                (list_to_set (get_join_keys_left p) ∪ list_to_set (get_join_keys_right p))
                r Wr) as [rn ->].
    cbn. destruct (IHl ln) as (l' & El & Kl). destruct (IHr rn) as (r' & Er & Kr).
    rewrite El. cbn. rewrite Er. cbn. eexists. split; [reflexivity|].
    apply kept_children; [constructor|].
    constructor; [exact Kl|]. constructor; [exact Kr|constructor].
  - inversion Hcs as [|? ? Wl Hcs']; subst. inversion Hcs' as [|? ? Wr _]; subst.
    inversion IH as [|? ? IHl IH']; subst. inversion IH' as [|? ? IHr _]; subst.
    destruct (side_need_total needed
                (list_to_set (get_join_keys_left p) ∪ list_to_set (get_join_keys_right p))
                l Wl) as [ln ->].
    destruct (side_need_total needed
                (list_to_set (get_join_keys_left p) ∪ list_to_set (get_join_keys_right p))
                r Wr) as [rn ->].
    cbn. destruct (IHl ln) as (l' & El & Kl). destruct (IHr rn) as (r' & Er & Kr).
    rewrite El. cbn. rewrite Er. cbn. eexists. split; [reflexivity|].
    apply kept_children; [constructor|].
    constructor; [exact Kl|]. constructor; [exact Kr|constructor].
Qed.

(** *** selection_pushdown *)

Lemma map_run_kept (f : Node → run Node) cs :
  Forall (λ c, ∃ c', f c = Done c' ∧ kept true c c') cs →
  ∃ cs', map_run f cs = Done cs' ∧ Forall2 (kept true) cs cs'.
Proof.
  induction 1 as [|c cs (c' & Hc & Kc) _ (cs' & Hcs & Kcs)].
  - exists []. split; [reflexivity|constructor].
  - exists (c' :: cs'). cbn [map_run]. rewrite Hc. cbn. rewrite Hcs. cbn.
    split; [reflexivity|constructor; assumption].
Qed.

Lemma is_join_cases o : is_join o = true → o = "Cross" ∨ o = "Join".
Proof.
  unfold is_join. intros H. apply orb_true_iff in H as [H|H]; string_eqs; auto.
Qed.

Lemma pushdown_helper_kept k :
  ∀ n, size n ≤ k → well_formed n = true →
       ∃ r, pushdown_helper k n = Done r ∧ kept true n r.
Proof.
  induction k as [|k IH]; intros n Hk Hw.
  { pose proof (size_pos n). lia. }
  destruct n as [o cs p]. apply well_formed_node in Hw as [Hs Hcs].
  cbn [size] in Hk. cbn [pushdown_helper].
  destruct (String.eqb o "Select") eqn:Eo.
  - string_eqs. inversion Hs; subst. inversion Hcs as [|? ? Wc _]; subst.
    cbn [sum_list_with] in Hk.
    destruct (IH c ltac:(lia) Wc) as (child & Ec & Kc).
    pose proof (proj2 (pushdown_helper_fuel k c ltac:(lia)) _ Ec) as Sc.
    rewrite Ec. cbn.
    assert (kept true (mkNode "Select" [c] p) (mkNode "Select" [child] p)) as Stay.
    { apply kept_children; [constructor|]. constructor; [exact Kc|constructor]. }
    destruct (decide (involved_aliases p = ∅)); [eauto|].
    destruct (is_join (op child)) eqn:Ej; [|eauto].
    destruct Kc as (Wchild & Cchild & _).
    destruct (well_formed_join_children child Wchild Ej) as (l & r & Hch & Wl & Wr).
    rewrite Hch.
    destruct (well_formed_aliases l Wl) as [la ->].
    destruct (well_formed_aliases r Wr) as [ra ->]. cbn.
    destruct child as [oc csc pc]. cbn [op children props] in *. subst csc.
    cbn [size sum_list_with] in Sc.
    pose proof (size_pos l). pose proof (size_pos r).
    assert (String.eqb oc "Project" = false) as Hnp.
    { destruct (is_join_cases _ Ej) as [-> | ->]; reflexivity. }
    assert (∀ x y, shape oc [x; y] pc) as Hshape.
    { intros x y. destruct (is_join_cases _ Ej) as [-> | ->]; constructor. }
    cbn [count_op sum_list_with] in Cchild. rewrite Hnp in Cchild.
    destruct (decide (involved_aliases p ⊆ la)).
    + destruct (IH (mkNode "Select" [l] p)) as (sub & Es & (Ws & Cs & _)).
      { cbn. lia. }
      { apply well_formed_node. split; [constructor|]. constructor; [exact Wl|constructor]. }
      rewrite Es. cbn. eexists. split; [reflexivity|].
      apply kept_in_place_of_select.
      * apply well_formed_node. split; [apply Hshape|].
        constructor; [exact Ws|]. constructor; [exact Wr|constructor].
      * cbn [count_op sum_list_with] in Cs |- *. rewrite Hnp. simpl String.eqb in *.
        cbn iota in *. lia.
    + destruct (decide (involved_aliases p ⊆ ra)); [|eauto].
      destruct (IH (mkNode "Select" [r] p)) as (sub & Es & (Ws & Cs & _)).
      { cbn. lia. }
      { apply well_formed_node. split; [constructor|]. constructor; [exact Wr|constructor]. }
      rewrite Es. cbn. eexists. split; [reflexivity|].
      apply kept_in_place_of_select.
      * apply well_formed_node. split; [apply Hshape|].
        constructor; [exact Wl|]. constructor; [exact Ws|constructor].
      * cbn [count_op sum_list_with] in Cs |- *. rewrite Hnp. simpl String.eqb in *.
        cbn iota in *. lia.
  - destruct (map_run_kept (pushdown_helper k) cs) as (cs' & E & K).
    { apply Forall_forall. intros c Hc. apply IH.
      - pose proof (size_child_le c cs Hc). lia.
      - rewrite Forall_forall in Hcs. apply Hcs, Hc. }
    rewrite E. cbn. eexists. split; [reflexivity|]. apply kept_children; assumption.
Qed.

Lemma selection_pushdown_kept t :
  well_formed t = true → ∃ t', selection_pushdown t = Some t' ∧ kept true t t'.
Proof.
  intros H. destruct (pushdown_helper_kept (size t) t (le_n _) H) as (r & E & K).
  exists r. split; [|exact K]. apply selection_pushdown_Some, E.
Qed.

(** ** Pass 5: the fuel of reorder_joins *)

Lemma reorder_helper_mono k :
  ∀ n k', reorder_helper k n ≠ Starved → k ≤ k' →
          reorder_helper k' n = reorder_helper k n.
Proof.
  induction k as [|k IH]; intros n k' H Hle; [done|].
  destruct k' as [|k']; [lia|]. assert (k ≤ k') as Hk by lia.
  destruct n as [o cs p]. cbn [reorder_helper] in *.
  destruct (is_join o).
  - destruct (lift (collect_factors (mkNode o cs p))) as [fs| |]; [|done|done].
    cbn in *. pose proof (bind_not_starved _ _ H) as H0.
    rewrite (map_run_ext_not_starved (reorder_helper k) (reorder_helper k')); [reflexivity| |exact H0].
    apply Forall_forall. intros c _ Hc. apply IH; assumption.
  - pose proof (bind_not_starved _ _ H) as H0.
    rewrite (map_run_ext_not_starved (reorder_helper k) (reorder_helper k')); [reflexivity| |exact H0].
    apply Forall_forall. intros c _ Hc. apply IH; assumption.
Qed.

Lemma collect_factors_size n :
  ∀ fs, collect_factors n = Some fs → Forall (λ f, size f ≤ size n) fs.
Proof.
  induction n as [o cs p IH] using Node_ind. intros fs H. cbn [collect_factors] in H.
  destruct (is_join o).
  - destruct cs as [|c0 [|c1 rest]]; try discriminate.
    inversion IH as [|? ? IH0 IH']; subst. inversion IH' as [|? ? IH1 _]; subst.
    destruct (collect_factors c0) as [f0|]; [|discriminate]. cbn in H.
    destruct (collect_factors c1) as [f1|]; [|discriminate]. cbn in H.
    injection H as <-. apply Forall_app. split.
    + eapply Forall_impl; [apply IH0; reflexivity|]. intros f Hf. cbn in *. lia.
    + eapply Forall_impl; [apply IH1; reflexivity|]. intros f Hf. cbn in *. lia.
  - injection H as <-. constructor; [lia|constructor].
Qed.

Lemma collect_factors_smaller o cs p fs :
  is_join o = true → collect_factors (mkNode o cs p) = Some fs →
  Forall (λ f, size f < size (mkNode o cs p)) fs.
Proof.
  intros Hj H. cbn [collect_factors] in H. rewrite Hj in H.
  destruct cs as [|c0 [|c1 rest]]; try discriminate.
  destruct (collect_factors c0) as [f0|] eqn:E0; [|discriminate]. cbn in H.
  destruct (collect_factors c1) as [f1|] eqn:E1; [|discriminate]. cbn in H.
  injection H as <-. apply Forall_app. split.
  - eapply Forall_impl; [apply (collect_factors_size _ _ E0)|]. intros f Hf. cbn in *. lia.
  - eapply Forall_impl; [apply (collect_factors_size _ _ E1)|]. intros f Hf. cbn in *. lia.
Qed.

Lemma reorder_helper_fuel k :
  ∀ n, size n ≤ k → reorder_helper k n ≠ Starved.
Proof.
  induction k as [|k IH]; intros n Hk.
  { pose proof (size_pos n). lia. }
  destruct n as [o cs p]. cbn [reorder_helper].
  destruct (is_join o) eqn:Ej.
  - destruct (collect_factors (mkNode o cs p)) as [fs|] eqn:Ef; [|done]. cbn.
    pose proof (collect_factors_smaller _ _ _ _ Ej Ef) as Hsm.
    pose proof (map_run_not_starved (reorder_helper k) fs) as NS.
    destruct (map_run (reorder_helper k) fs) as [fs'| |]; cbn; [|done|].
    + destruct (sort_by_selections fs'); [|done]. cbn.
      destruct (rebuild_chain _); done.
    + exfalso. apply NS; [|reflexivity].
      eapply Forall_impl; [exact Hsm|]. intros f Hf. cbn beta in Hf. apply IH. lia.
  - pose proof (map_run_not_starved (reorder_helper k) cs) as NS.
    destruct (map_run (reorder_helper k) cs); cbn; [done|done|].
    exfalso. apply NS; [|reflexivity].
    apply Forall_forall. intros c Hc. apply IH.
    pose proof (size_child_le c cs Hc). cbn in Hk. lia.
Qed.

Lemma reorder_joins_Some n r :
  reorder_joins n = Some r ↔ reorder_helper (size n) n = Done r.
Proof.
  unfold reorder_joins. destruct (reorder_helper (size n) n); cbn; split; congruence.
Qed.

Lemma reorder_helper_settle k n r :
  size n ≤ k → reorder_helper k n = Done r → reorder_joins n = Some r.
Proof.
  intros Hk H. apply reorder_joins_Some.
  rewrite <- H. symmetry. apply reorder_helper_mono; [|exact Hk].
  apply reorder_helper_fuel. lia.
Qed.

(** ** Pass 5: sorting and rebuilding *)

Lemma insert_sorted_Permutation {A} (before : A → A → bool) x l :
  Text.insert_sorted before x l ≡ₚ x :: l.
Proof.
  induction l as [|y l IH]; cbn [Text.insert_sorted]; [reflexivity|].
  destruct (before x y); [reflexivity|]. rewrite IH. apply Permutation_swap.
Qed.

Lemma stable_sort_Permutation {A} (before : A → A → bool) l :
  Text.stable_sort before l ≡ₚ l.
Proof.
  induction l as [|x l IH]; [reflexivity|].
  change (Text.stable_sort before (x :: l))
    with (Text.insert_sorted before x (Text.stable_sort before l)).
  rewrite insert_sorted_Permutation, IH. reflexivity.
Qed.

(** When every element may stand before every other, the sort moves
    nothing. *)
Lemma stable_sort_ties {A} (before : A → A → bool) l :
  (∀ x y, x ∈ l → y ∈ l → before x y = true) → Text.stable_sort before l = l.
Proof.
  induction l as [|x l IH]; intros H; [reflexivity|].
  change (Text.stable_sort before (x :: l))
    with (Text.insert_sorted before x (Text.stable_sort before l)).
  rewrite IH.
  - destruct l as [|y l]; [reflexivity|]. cbn [Text.insert_sorted].
    rewrite H; [reflexivity|left|right; left].
  - intros y z Hy Hz. apply H; right; assumption.
Qed.

Lemma foldl_add_fmap {A} (f : A → nat) l a :
  foldl Nat.add a (f <$> l) = a + sum_list_with f l.
Proof.
  revert a. induction l as [|x l IH]; intros a; cbn; [lia|]. rewrite IH. lia.
Qed.

Lemma count_selections_well_formed t :
  well_formed t = true → count_selections t = Some (selections t).
Proof.
  revert t. apply well_formed_ind. intros o cs p Hs _ IH.
  assert (map_opt count_selections cs = Some (selections <$> cs)) as Hm.
  { clear Hs. induction IH as [|c cs Hc _ IHcs]; [reflexivity|].
    cbn [map_opt]. rewrite Hc. cbn. rewrite IHcs. reflexivity. }
  destruct (String.eqb o "Select") eqn:Eo.
  - string_eqs. inversion Hs; subst. inversion IH as [|? ? Hc _]; subst.
    cbn [count_selections selections]. simpl String.eqb. cbn iota.
    rewrite Hc. reflexivity.
  - cbn [count_selections selections]. rewrite Eo, Hm. cbn.
    rewrite foldl_add_fmap. reflexivity.
Qed.

Lemma sort_by_selections_ties fs k :
  Forall (λ f, count_selections f = Some k) fs → sort_by_selections fs = Some fs.
Proof.
  intros H. unfold sort_by_selections.
  assert (map_opt (λ f, k ← count_selections f; Some (k, f)) fs
          = Some ((λ f, (k, f)) <$> fs)) as ->.
  { induction H as [|f fs Hf _ IH]; [reflexivity|].
    cbn [map_opt]. rewrite Hf. cbn. rewrite IH. reflexivity. }
  cbn. rewrite stable_sort_ties.
  - rewrite <- list_fmap_compose. cbn. rewrite list_fmap_id. reflexivity.
  - intros x y Hx Hy.
    apply list_elem_of_fmap in Hx as (? & -> & _).
    apply list_elem_of_fmap in Hy as (? & -> & _).
    cbn. apply Nat.leb_refl.
Qed.

Lemma sort_by_selections_well_formed fs :
  Forall (λ f, well_formed f = true) fs →
  ∃ fs', sort_by_selections fs = Some fs' ∧ fs' ≡ₚ fs.
Proof.
  intros H. unfold sort_by_selections.
  assert (map_opt (λ f, k ← count_selections f; Some (k, f)) fs
          = Some ((λ f, (selections f, f)) <$> fs)) as ->.
  { induction H as [|f fs Hf _ IH]; [reflexivity|].
    cbn [map_opt]. rewrite (count_selections_well_formed _ Hf). cbn.
    rewrite IH. reflexivity. }
  cbn. eexists. split; [reflexivity|].
  rewrite stable_sort_Permutation, <- list_fmap_compose. cbn.
  rewrite list_fmap_id. reflexivity.
Qed.

Lemma rebuild_chain_cons first others :
  rebuild_chain (first :: others) = Some (foldl join_node first others).
Proof. reflexivity. Qed.

Lemma chain_well_formed others :
  ∀ first, well_formed first = true → Forall (λ f, well_formed f = true) others →
           well_formed (foldl join_node first others) = true.
Proof.
  induction others as [|nxt others IH]; intros first Hf Ho; [exact Hf|].
  inversion Ho; subst. cbn [foldl]. apply IH; [|assumption].
  apply well_formed_node. split; [constructor|].
  constructor; [exact Hf|]. constructor; [assumption|constructor].
Qed.

Lemma chain_count name others :
  String.eqb "Join" name = false →
  ∀ first, count_op name (foldl join_node first others)
           = count_op name first + sum_list_with (count_op name) others.
Proof.
  intros Hn. induction others as [|nxt others IH]; intros first; cbn [foldl].
  - cbn. lia.
  - rewrite IH. cbn [join_node count_op sum_list_with]. rewrite Hn. lia.
Qed.

Lemma chain_selections others :
  ∀ first, selections (foldl join_node first others)
           = selections first + sum_list_with selections others.
Proof.
  induction others as [|nxt others IH]; intros first; cbn [foldl].
  - cbn. lia.
  - rewrite IH. cbn. lia.
Qed.

Lemma chain_factors others :
  Forall (λ f, is_join (op f) = false) others →
  ∀ first acc, collect_factors first = Some acc →
               collect_factors (foldl join_node first others) = Some (acc ++ others).
Proof.
  induction 1 as [|nxt others Hn _ IH]; intros first acc Hf; cbn [foldl].
  - rewrite app_nil_r. exact Hf.
  - rewrite (IH _ (acc ++ [nxt])).
    + rewrite <- app_assoc. reflexivity.
    + cbn [join_node collect_factors]. simpl is_join. cbn iota. rewrite Hf. cbn.
      destruct nxt as [on csn pn]. cbn [op] in Hn. cbn [collect_factors].
      rewrite Hn. reflexivity.
Qed.

Lemma collect_factors_leaf n :
  is_join (op n) = false → collect_factors n = Some [n].
Proof. destruct n as [o cs p]. cbn. intros ->. reflexivity. Qed.

(** The factors of a well-formed tree. *)
Lemma collect_factors_well_formed t :
  well_formed t = true →
  ∃ fs, collect_factors t = Some fs
        ∧ Forall (λ f, well_formed f = true) fs
        ∧ Forall (λ f, is_join (op f) = false) fs
        ∧ fs ≠ []
        ∧ sum_list_with (count_op "Project") fs = count_op "Project" t
        ∧ sum_list_with selections fs = selections t.
Proof.
  revert t. apply well_formed_ind. intros o cs p Hs Hcs IH.
  destruct (is_join o) eqn:Ej.
  - assert (String.eqb o "Project" = false ∧ String.eqb o "Select" = false) as [Hnp Hns].
    { destruct (is_join_cases _ Ej) as [-> | ->]; split; reflexivity. }
    assert (∃ l r, cs = [l; r]) as (l & r & ->).
    { destruct Hs; try discriminate; eauto. }
    inversion IH as [|? ? (fl & El & Wl & Jl & Nl & Cl & Sl) IH']; subst.
    inversion IH' as [|? ? (fr & Er & Wr & Jr & Nr & Cr & Sr) _]; subst.
    exists (fl ++ fr). cbn [collect_factors]. rewrite Ej, El. cbn. rewrite Er. cbn.
    split; [reflexivity|]. split; [apply Forall_app; auto|].
    split; [apply Forall_app; auto|].
    split; [destruct fl; [done|discriminate]|].
    rewrite !sum_list_with_app, Cl, Cr, Sl, Sr.
    cbn [count_op selections sum_list_with]. rewrite Hnp, Hns. split; lia.
  - exists [mkNode o cs p]. cbn [collect_factors]. rewrite Ej.
    split; [reflexivity|]. split.
    { constructor; [|constructor]. apply well_formed_node. split; assumption. }
    split; [constructor; [exact Ej|constructor]|].
    split; [discriminate|]. cbn [sum_list_with]. split; lia.
Qed.

Lemma map_run_related (Q : Node → Node → Prop) (f : Node → run Node) cs :
  Forall (λ c, ∃ c', f c = Done c' ∧ Q c c') cs →
  ∃ cs', map_run f cs = Done cs' ∧ Forall2 Q cs cs'.
Proof.
  induction 1 as [|c cs (c' & Hc & Kc) _ (cs' & Hcs & Kcs)].
  - exists []. split; [reflexivity|constructor].
  - exists (c' :: cs'). cbn [map_run]. rewrite Hc. cbn. rewrite Hcs. cbn.
    split; [reflexivity|constructor; assumption].
Qed.

Lemma reorder_helper_kept k :
  ∀ n, size n ≤ k → well_formed n = true →
       ∃ r, reorder_helper k n = Done r ∧ reordered n r.
Proof.
  induction k as [|k IH]; intros n Hk Hw.
  { pose proof (size_pos n). lia. }
  destruct n as [o cs p]. cbn [reorder_helper].
  destruct (is_join o) eqn:Ej.
  - destruct (collect_factors_well_formed _ Hw) as (fs & Ef & Wf & Jf & Nf & Cf & Sf).
    rewrite Ef. cbn [lift]. cbn.
    pose proof (collect_factors_smaller _ _ _ _ Ej Ef) as Hsm.
    destruct (map_run_related reordered (reorder_helper k) fs) as (fs' & Em & Rm).
    { rewrite Forall_forall in Hsm, Wf. apply Forall_forall. intros f Hf.
      apply IH; [|apply Wf, Hf]. specialize (Hsm f Hf). cbn beta in Hsm. lia. }
    rewrite Em. cbn.
    assert (Forall (λ f, well_formed f = true) fs') as Wf'.
    { clear -Rm. induction Rm as [|? ? ? ? ((W & _) & _) _ IHR]; constructor; assumption. }
    assert (sum_list_with (count_op "Project") fs' = sum_list_with (count_op "Project") fs
            ∧ sum_list_with selections fs' = sum_list_with selections fs) as [Cf' Sf'].
    { clear -Rm. induction Rm as [|? ? ? ? ((_ & C & _) & S & _) _ [IH1 IH2]]; [done|].
      cbn in *. lia. }
    destruct (sort_by_selections_well_formed fs' Wf') as (fs'' & Es & Ps).
    rewrite Es. cbn.
    destruct fs'' as [|first others].
    { apply Permutation_nil_l in Ps. subst fs'. inversion Rm; subst. done. }
    rewrite rebuild_chain_cons. cbn. eexists. split; [reflexivity|].
    assert (Forall (λ f, well_formed f = true) (first :: others)) as Wf''.
    { rewrite Ps. exact Wf'. }
    inversion Wf'' as [|? ? W1 W2]; subst.
    assert (String.eqb o "Project" = false ∧ String.eqb o "Select" = false) as [Hnp Hns].
    { destruct (is_join_cases _ Ej) as [-> | ->]; split; reflexivity. }
    split; [|split].
    + split; [|split; [|split]].
      * apply chain_well_formed; assumption.
      * rewrite chain_count by reflexivity.
        change (count_op "Project" first + sum_list_with (count_op "Project") others)
          with (sum_list_with (count_op "Project") (first :: others)).
        rewrite Ps, Cf', Cf. reflexivity.
      * cbn [op]. unfold is_stable.
        destruct (is_join_cases _ Ej) as [-> | ->]; discriminate.
      * unfold project_on_top. cbn [op].
        destruct (is_join_cases _ Ej) as [-> | ->]; discriminate.
    + rewrite chain_selections.
      change (selections first + sum_list_with selections others)
        with (sum_list_with selections (first :: others)).
      rewrite Ps, Sf', Sf. reflexivity.
    + cbn [op]. rewrite Ej. discriminate.
  - apply well_formed_node in Hw as [Hs Hcs].
    destruct (map_run_related reordered (reorder_helper k) cs) as (cs' & Em & Rm).
    { apply Forall_forall. intros c Hc. apply IH.
      - pose proof (size_child_le c cs Hc). cbn in Hk. lia.
      - rewrite Forall_forall in Hcs. apply Hcs, Hc. }
    rewrite Em. cbn. eexists. split; [reflexivity|]. split; [|split].
    + apply kept_children; [exact Hs|].
      clear -Rm. induction Rm as [|? ? ? ? (K & _) _ IHR]; constructor; assumption.
    + cbn [selections]. destruct (String.eqb o "Select").
      * destruct Rm as [|? ? ? ? (_ & S & _) _]; [reflexivity|]. rewrite S. reflexivity.
      * clear -Rm. induction Rm as [|? ? ? ? (_ & S & _) _ IHR]; [reflexivity|].
        cbn. rewrite S, IHR. reflexivity.
    + reflexivity.
Qed.

Lemma reorder_joins_kept t :
  well_formed t = true → ∃ t', reorder_joins t = Some t' ∧ kept true t t'.
Proof.
  intros H. destruct (reorder_helper_kept (size t) t (le_n _) H) as (r & E & K & _).
  exists r. split; [|exact K]. apply reorder_joins_Some, E.
Qed.

(** C8.  When the factors of a Join/Cross chain all have the same score,
    reorder_joins returns the left-deep chain of the reordered factors in
    their original order from left to right: the factors of the result are
    the results of the pass on the factors of the input, one by one. *)
Theorem reorder_joins_keeps_order_on_ties (n : Node) (fs : list Node) (k : nat) :
  well_formed n = true → is_join (op n) = true →
  collect_factors n = Some fs →
  Forall (λ f, count_selections f = Some k) fs →
  ∃ fs' t',
    Forall2 (λ f f', reorder_joins f = Some f') fs fs'
    ∧ reorder_joins n = Some t'
    ∧ rebuild_chain fs' = Some t'
    ∧ collect_factors t' = Some fs'.
Proof.
  intros Hw Hj Ef Hk.
  destruct (collect_factors_well_formed _ Hw) as (fs0 & Ef0 & Wf & Jf & Nf & _).
  rewrite Ef in Ef0. injection Ef0 as <-.
  destruct n as [o cs p]. cbn [op] in Hj.
  pose proof (collect_factors_smaller _ _ _ _ Hj Ef) as Hsm.
  set (fuel := sum_list_with size cs).
  destruct (map_run_related
              (λ f f', reorder_helper fuel f = Done f' ∧ reordered f f')
              (reorder_helper fuel) fs) as (fs' & Em & Rm).
  { rewrite Forall_forall in Hsm, Wf. apply Forall_forall. intros f Hf.
    specialize (Hsm f Hf). cbn in Hsm.
    destruct (reorder_helper_kept fuel f) as (f' & E & R); [unfold fuel; lia|apply Wf, Hf|].
    eauto. }
  assert (Forall (λ f, count_selections f = Some k) fs') as Hk'.
  { clear -Rm Hk Wf. induction Rm as [|f f' fs fs' (_ & (W & _) & S & _) _ IHR];
      [constructor|].
    inversion Hk as [|? ? Hkf Hkfs]; subst. inversion Wf as [|? ? Wf1 Wf2]; subst.
    constructor; [|apply IHR; assumption].
    rewrite (count_selections_well_formed _ W), S.
    rewrite <- (count_selections_well_formed _ Wf1). exact Hkf. }
  assert (Forall (λ f, is_join (op f) = false) fs') as Jf'.
  { clear -Rm Jf. induction Rm as [|f f' fs fs' (_ & _ & _ & O) _ IHR]; [constructor|].
    inversion Jf as [|? ? J1 J2]; subst.
    constructor; [rewrite (O J1); exact J1|apply IHR; assumption]. }
  destruct fs' as [|first others].
  { inversion Rm; subst. done. }
  exists (first :: others), (foldl join_node first others).
  split; [|split; [|split]].
  - clear -Rm Hsm. revert Rm Hsm. generalize (first :: others) as gs. intros gs Rm Hsm.
    induction Rm as [|f f' fs gs (E & _) _ IHR]; [constructor|].
    inversion Hsm as [|? ? S1 S2]; subst. constructor; [|apply IHR; assumption].
    apply (reorder_helper_settle fuel); [cbn in S1; unfold fuel; lia|exact E].
  - apply reorder_joins_Some. cbn [size]. fold fuel. cbn [reorder_helper].
    rewrite Hj, Ef. cbn -[sort_by_selections rebuild_chain].
    rewrite Em. cbn -[sort_by_selections rebuild_chain].
    rewrite (sort_by_selections_ties _ _ Hk'). reflexivity.
  - reflexivity.
  - inversion Jf' as [|? ? J1 J2]; subst.
    apply (chain_factors others J2 first [first]).
    apply collect_factors_leaf, J1.
Qed.

Lemma reorder_joins_keeps_order_on_ties_witness :
  ∃ fs' t',
    Forall2 (λ f f', reorder_joins f = Some f')
      [Sample.scan_a; Sample.scan_b; Sample.scan_c] fs'
    ∧ reorder_joins (Sample.cross Sample.scan_a (Sample.cross Sample.scan_b Sample.scan_c))
      = Some t'
    ∧ rebuild_chain fs' = Some t'
    ∧ collect_factors t' = Some fs'.
Proof.
  apply (reorder_joins_keeps_order_on_ties
           (Sample.cross Sample.scan_a (Sample.cross Sample.scan_b Sample.scan_c))
           [Sample.scan_a; Sample.scan_b; Sample.scan_c] 0).
  - reflexivity.
  - reflexivity.
  - reflexivity.
  - repeat constructor.
Defined.

(** ** Canonical trees and the pipeline *)

Lemma scan_leaf_well_formed n :
  is_scan_leaf n = true → well_formed n = true ∧ count_op "Project" n = 0.
Proof.
  destruct n as [o cs p]. unfold is_scan_leaf. cbn [op children props].
  intros H. apply andb_true_iff in H as [H Ha]. apply andb_true_iff in H as [Ho Hc].
  destruct cs; [|discriminate]. string_eqs. apply bool_decide_eq_true in Ha.
  split; [|reflexivity]. apply well_formed_node. split; constructor. exact Ha.
Qed.

Lemma cross_chain_well_formed n :
  is_cross_chain n = true → well_formed n = true ∧ count_op "Project" n = 0.
Proof.
  induction n as [o cs p IH] using Node_ind. cbn [is_cross_chain].
  destruct (String.eqb o "Cross") eqn:Eo; [|apply scan_leaf_well_formed].
  string_eqs. destruct cs as [|l [|r [|? ?]]]; try discriminate.
  intros H. apply andb_true_iff in H as [Hl Hr].
  inversion IH as [|? ? IHl _]; subst.
  destruct (IHl Hl) as [Wl Cl]. destruct (scan_leaf_well_formed _ Hr) as [Wr Cr].
  split.
  - apply well_formed_node. split; [constructor|]. repeat constructor; assumption.
  - cbn. lia.
Qed.

Lemma select_chain_canonical_well_formed n :
  is_select_chain n = true → well_formed n = true ∧ count_op "Project" n = 0.
Proof.
  induction n as [o cs p IH] using Node_ind. cbn [is_select_chain].
  destruct (String.eqb o "Select") eqn:Eo; [|apply cross_chain_well_formed].
  string_eqs. destruct cs as [|c [|? ?]]; try discriminate.
  intros H. inversion IH as [|? ? IHc _]; subst. destruct (IHc H) as [Wc Cc].
  split.
  - apply well_formed_node. split; [constructor|]. repeat constructor; assumption.
  - cbn. lia.
Qed.

Lemma group_over_selects_well_formed n :
  is_group_over_selects n = true → well_formed n = true ∧ count_op "Project" n = 0.
Proof.
  destruct n as [o cs p]. unfold is_group_over_selects. cbn [op children].
  intros H. apply andb_true_iff in H as [Ho Hc]. string_eqs.
  destruct cs as [|c [|? ?]]; try discriminate.
  destruct (select_chain_canonical_well_formed _ Hc) as [Wc Cc].
  split.
  - apply well_formed_node. split; [constructor|]. repeat constructor; assumption.
  - cbn. lia.
Qed.

Lemma grouped_well_formed n :
  is_grouped n = true → well_formed n = true ∧ count_op "Project" n = 0.
Proof.
  unfold is_grouped. destruct (String.eqb (op n) "Having") eqn:Eh.
  - destruct n as [o cs p]. cbn [op children] in *. string_eqs.
    destruct cs as [|g [|? ?]]; try discriminate. intros Hg.
    destruct (group_over_selects_well_formed _ Hg) as [Wg Cg].
    unfold is_group_over_selects in Hg. apply andb_true_iff in Hg as [Hg _]. string_eqs.
    split.
    + apply well_formed_node. split; [constructor; exact Hg|].
      repeat constructor; assumption.
    + cbn. lia.
  - destruct (String.eqb (op n) "Group").
    + apply group_over_selects_well_formed.
    + apply select_chain_canonical_well_formed.
Qed.

Lemma projected_well_formed n :
  is_projected n = true →
  well_formed n = true ∧ count_op "Project" n = 1 ∧ op n = "Project".
Proof.
  destruct n as [o cs p]. unfold is_projected. cbn [op children].
  intros H. apply andb_true_iff in H as [Ho Hc]. string_eqs.
  destruct cs as [|c [|? ?]]; try discriminate.
  destruct (grouped_well_formed _ Hc) as [Wc Cc].
  split; [|split; [|reflexivity]].
  - apply well_formed_node. split; [constructor|]. repeat constructor; assumption.
  - cbn. lia.
Qed.

Lemma canonical_well_formed t :
  canonical t = true → well_formed t = true ∧ grammar_invariants t = true.
Proof.
  unfold canonical. destruct (String.eqb (op t) "Order") eqn:Eo.
  - destruct t as [o cs p]. cbn [op children] in *. string_eqs.
    destruct cs as [|c [|? ?]]; try discriminate. intros Hc.
    destruct (projected_well_formed _ Hc) as (Wc & Cc & Oc).
    assert (well_formed (mkNode "Order" [c] p) = true) as W.
    { apply well_formed_node. split; [constructor|]. repeat constructor; assumption. }
    split; [exact W|]. unfold grammar_invariants.
    rewrite (well_formed_arity_ok _ W). cbn [count_op sum_list_with]. rewrite Cc.
    unfold project_on_top. cbn [op children]. rewrite Oc. reflexivity.
  - intros H. destruct (projected_well_formed _ H) as (W & C & O).
    split; [exact W|]. unfold grammar_invariants.
    rewrite (well_formed_arity_ok _ W), C. unfold project_on_top. rewrite O. reflexivity.
Qed.

Lemma kept_trans s1 s2 t t' t'' : kept s1 t t' → kept s2 t' t'' → kept false t t''.
Proof.
  intros (W1 & C1 & S1 & P1) (W2 & C2 & S2 & P2).
  split; [exact W2|]. split; [|split].
  - destruct s1, s2; cbn in *; lia.
  - intros H. rewrite S2; rewrite (S1 H); [reflexivity|exact H].
  - intros H. apply P2, P1, H.
Qed.

Lemma kept_grammar t t' :
  kept true t t' → grammar_invariants t = true → grammar_invariants t' = true.
Proof.
  intros (W & C & _ & P). unfold grammar_invariants.
  intros H. apply andb_true_iff in H as [H Hp]. apply andb_true_iff in H as [_ Hc].
  rewrite (well_formed_arity_ok _ W), C, Hc, (P Hp). reflexivity.
Qed.

Lemma projection_pushdown_kept t :
  well_formed t = true → ∃ t', projection_pushdown t = Some t' ∧ kept false t t'.
Proof. intros H. apply projection_helper_kept, H. Qed.

Lemma dedup_selections_kept t :
  well_formed t = true → ∃ t', dedup_selections t = Some t' ∧ kept true t t'.
Proof.
  intros H. destruct (dedup_helper_kept t H ∅) as (t' & s & E & K).
  exists t'. unfold dedup_selections. rewrite E. split; [reflexivity|exact K].
Qed.

Lemma six_passes_kept t :
  well_formed t = true →
  Forall (λ pass, ∃ t', pass t = Some t' ∧ kept true t t') six_passes.
Proof.
  intros H. unfold six_passes. repeat apply Forall_cons_2; [..|apply Forall_nil_2].
  - apply breakup_helper_kept, H.
  - apply selection_pushdown_kept, H.
  - apply joinize_helper_kept, H.
  - apply reorder_joins_kept, H.
  - apply having_helper_kept, H.
  - apply dedup_selections_kept, H.
Qed.

Lemma optimize_pipeline_kept t :
  well_formed t = true → ∃ t', optimize_pipeline t = Some t' ∧ kept false t t'.
Proof.
  intros H0. unfold optimize_pipeline.
  destruct (breakup_helper_kept t H0) as (t1 & E1 & K1).
  unfold breakup_conjuncts. rewrite E1. cbn.
  destruct (selection_pushdown_kept t1 (proj1 K1)) as (t2 & E2 & K2). rewrite E2. cbn.
  destruct (joinize_helper_kept t2 (proj1 K2)) as (t3 & E3 & K3).
  unfold joinize. rewrite E3. cbn.
  destruct (projection_pushdown_kept t3 (proj1 K3)) as (t4 & E4 & K4). rewrite E4. cbn.
  destruct (reorder_joins_kept t4 (proj1 K4)) as (t5 & E5 & K5). rewrite E5. cbn.
  destruct (having_helper_kept t5 (proj1 K5)) as (t6 & E6 & K6).
  unfold having_to_where. rewrite E6. cbn.
  destruct (dedup_selections_kept t6 (proj1 K6)) as (t7 & E7 & K7).
  exists t7. split; [exact E7|].
  pose proof (kept_trans _ _ _ _ _ K1 K2) as K12.
  pose proof (kept_trans _ _ _ _ _ K12 K3) as K13.
  pose proof (kept_trans _ _ _ _ _ K13 K4) as K14.
  pose proof (kept_trans _ _ _ _ _ K14 K5) as K15.
  pose proof (kept_trans _ _ _ _ _ K15 K6) as K16.
  exact (kept_trans _ _ _ _ _ K16 K7).
Qed.

(** C4 (as amended).  A canonical tree is well formed and satisfies the
    grammar invariants.  On a well-formed tree every pass returns a
    well-formed tree, so with the fixed arities, and leaves on top a Project
    that was on top; the six passes other than projection_pushdown keep the number
    of Project nodes, hence the grammar invariants, while
    projection_pushdown may add Project nodes and never removes one. *)
Theorem passes_keep_the_grammar (t : Node) :
  (canonical t = true → well_formed t = true ∧ grammar_invariants t = true)
  ∧ (well_formed t = true →
     Forall (λ pass, ∃ t',
               pass t = Some t'
               ∧ well_formed t' = true ∧ arity_ok t' = true
               ∧ count_op "Project" t' = count_op "Project" t
               ∧ (project_on_top t = true → project_on_top t' = true)
               ∧ (grammar_invariants t = true → grammar_invariants t' = true))
            six_passes
     ∧ ∃ t',
         projection_pushdown t = Some t'
         ∧ well_formed t' = true ∧ arity_ok t' = true
         ∧ count_op "Project" t ≤ count_op "Project" t'
         ∧ (project_on_top t = true → project_on_top t' = true)).
Proof.
  split; [apply canonical_well_formed|]. intros H. split.
  - eapply Forall_impl; [apply six_passes_kept, H|].
    intros pass (t' & E & K). exists t'. split; [exact E|].
    pose proof (kept_grammar _ _ K) as G. destruct K as (W & C & _ & P).
    repeat (split; [first [assumption | apply well_formed_arity_ok, W]|]). exact G.
  - destruct (projection_pushdown_kept t H) as (t' & E & (W & C & _ & P)).
    exists t'. split; [exact E|]. split; [exact W|].
    split; [apply well_formed_arity_ok, W|]. split; [exact C|exact P].
Qed.

Lemma passes_keep_the_grammar_witness :
  (well_formed Sample.grouped_query = true ∧ grammar_invariants Sample.grouped_query = true)
  ∧ Forall (λ pass, ∃ t',
              pass Sample.grouped_query = Some t'
              ∧ well_formed t' = true ∧ arity_ok t' = true
              ∧ count_op "Project" t' = count_op "Project" Sample.grouped_query
              ∧ (project_on_top Sample.grouped_query = true → project_on_top t' = true)
              ∧ (grammar_invariants Sample.grouped_query = true
                 → grammar_invariants t' = true))
           six_passes
  ∧ ∃ t',
      projection_pushdown Sample.grouped_query = Some t'
      ∧ well_formed t' = true ∧ arity_ok t' = true
      ∧ count_op "Project" Sample.grouped_query ≤ count_op "Project" t'
      ∧ (project_on_top Sample.grouped_query = true → project_on_top t' = true).
Proof.
  split.
  - exact (proj1 (passes_keep_the_grammar Sample.grouped_query) eq_refl).
  - exact (proj2 (passes_keep_the_grammar Sample.grouped_query) eq_refl).
Defined.

(** C9.  On a canonical tree each of the seven passes returns a tree, and
    so does the pipeline: no pass raises, and the two passes that are run
    with a fuel never exhaust it. *)
Theorem optimize_pipeline_total (t : Node) :
  canonical t = true →
  Forall (λ pass, is_Some (pass t)) seven_passes
  ∧ ∃ t', optimize_pipeline t = Some t' ∧ well_formed t' = true.
Proof.
  intros Hc. destruct (canonical_well_formed t Hc) as [H _]. split.
  - pose proof (six_passes_kept t H) as F. unfold six_passes in F.
    repeat match goal with
           | F : Forall _ (_ :: _) |- _ =>
               let X := fresh "X" in
               apply Forall_cons_1 in F as [X F]; destruct X as (? & X & _)
           end.
    destruct (projection_pushdown_kept t H) as (? & X' & _).
    unfold seven_passes. repeat apply Forall_cons_2; [..|apply Forall_nil_2]; eauto.
  - destruct (optimize_pipeline_kept t H) as (t' & E & W & _). eauto.
Qed.

Lemma optimize_pipeline_total_witness :
  Forall (λ pass, is_Some (pass Sample.grouped_query)) seven_passes
  ∧ ∃ t', optimize_pipeline Sample.grouped_query = Some t' ∧ well_formed t' = true.
Proof. exact (optimize_pipeline_total Sample.grouped_query eq_refl). Defined.

(** ** The pipeline on the sample query *)

Module PipelineTests.
Import Sample.

(** After selection_pushdown the two filters stand above their Scans and
    the join condition, whose [pred_attrs] the front end leaves empty,
    stays above the product. *)
Example pushdown_on_grouped_query :
  (t ← breakup_conjuncts grouped_query; selection_pushdown t)
  = Some (project ["a.x"]
            (mkNode "Group"
               [select "a.id = b.aid" []
                  (cross (select "a.x > 5" ["a.x"] scan_a)
                         (select "b.y < 100" ["b.y"] scan_b))]
               (group_props ["a.x"] [("SUM(b.y)", "SUM(b.y)")]))).
Proof. vm_compute. reflexivity. Qed.

(** joinize then turns the product into a Join on that condition, and
    projection_pushdown puts a Project above each Scan. *)
Example projection_on_grouped_query :
  (t ← breakup_conjuncts grouped_query; t ← selection_pushdown t;
   t ← joinize t; projection_pushdown t)
  = Some (project ["a.x"]
            (mkNode "Group"
               [mkNode "Join"
                  [select "a.x > 5" ["a.x"] (project ["a.id"; "a.x"] scan_a);
                   select "b.y < 100" ["b.y"] (project ["b.aid"; "b.y"] scan_b)]
                  (join_props (Some "a.id = b.aid") ["a.id"] ["b.aid"])]
               (group_props ["a.x"] [("SUM(b.y)", "SUM(b.y)")]))).
Proof. vm_compute. reflexivity. Qed.

(** reorder_joins rebuilds the chain with new Join nodes, which carry no
    condition and no keys. *)
Example pipeline_on_grouped_query :
  optimize_pipeline grouped_query
  = Some (project ["a.x"]
            (mkNode "Group"
               [mkNode "Join"
                  [select "a.x > 5" ["a.x"] (project ["a.id"; "a.x"] scan_a);
                   select "b.y < 100" ["b.y"] (project ["b.aid"; "b.y"] scan_b)]
                  (join_props None [] [])]
               (group_props ["a.x"] [("SUM(b.y)", "SUM(b.y)")]))).
Proof. vm_compute. reflexivity. Qed.

(** A predicate that occurs twice is kept once. *)
Example dedup_on_duplicate :
  dedup_selections (select "a.x = 1" ["a.x"] (select "a.x = 1" ["a.x"] scan_a))
  = Some (select "a.x = 1" ["a.x"] scan_a).
Proof. vm_compute. reflexivity. Qed.

(** A factor with more Selects above it moves to the left. *)
Example reorder_by_score :
  reorder_joins (cross scan_a (select "b.y < 100" ["b.y"] scan_b))
  = Some (join_node (select "b.y < 100" ["b.y"] scan_b) scan_a).
Proof. vm_compute. reflexivity. Qed.

End PipelineTests.

(** * Further properties of the passes *)

(** ** Which nodes a pass touches *)

Lemma tally_children w o cs cs' p :
  Forall2 (λ c c', tally w c' = tally w c) cs cs' →
  tally w (mkNode o cs' p) = tally w (mkNode o cs p).
Proof. intros F. cbn [tally]. rewrite (sum_sizes_Forall2 (tally w) cs cs' F). reflexivity. Qed.

Lemma map_opt_preserves {A} (m : Node → A) (f : Node → option Node) cs cs' :
  map_opt f cs = Some cs' →
  Forall (λ c, ∀ c', f c = Some c' → m c' = m c) cs →
  Forall2 (λ c c', m c' = m c) cs cs'.
Proof.
  intros H F. apply map_opt_Forall2 in H. induction H as [|c c' cs cs' Hc _ IH].
  - constructor.
  - inversion F as [|? ? Fc Fcs]; subst. constructor; [apply Fc, Hc|apply IH, Fcs].
Qed.

Lemma map_run_preserves {A} (m : Node → A) (f : Node → run Node) cs cs' :
  map_run f cs = Done cs' →
  Forall (λ c, ∀ c', f c = Done c' → m c' = m c) cs →
  Forall2 (λ c c', m c' = m c) cs cs'.
Proof.
  intros H F. apply map_run_Forall2 in H. induction H as [|c c' cs cs' Hc _ IH].
  - constructor.
  - inversion F as [|? ? Fc Fcs]; subst. constructor; [apply Fc, Hc|apply IH, Fcs].
Qed.

(** selection_pushdown only moves nodes. *)
Lemma pushdown_helper_tally w k :
  ∀ n res, pushdown_helper k n = Done res → tally w res = tally w n.
Proof.
  induction k as [|k IH]; intros n res H; [discriminate|].
  destruct n as [o cs p]. cbn [pushdown_helper] in H.
  destruct (String.eqb o "Select") eqn:Eo.
  - destruct cs as [|c0 rest]; [discriminate|].
    destruct (pushdown_helper k c0) as [child| |] eqn:Ec; try discriminate. cbn in H.
    pose proof (IH _ _ Ec) as Tc.
    assert (tally w (mkNode o (child :: rest) p) = tally w (mkNode o (c0 :: rest) p)) as Stay.
    { cbn. lia. }
    destruct (decide (involved_aliases p = ∅)); [injection H as <-; exact Stay|].
    destruct (is_join (op child)); [|injection H as <-; exact Stay].
    destruct child as [oc csc pc]. cbn [children op props] in *.
    destruct csc as [|l [|r [|? ?]]]; try discriminate.
    destruct (aliases l) as [la|]; [|discriminate]. cbn in H.
    destruct (aliases r) as [ra|]; [|discriminate]. cbn in H.
    destruct (decide (involved_aliases p ⊆ la)).
    + destruct (pushdown_helper k (mkNode o (l :: rest) p)) as [sub| |] eqn:Es;
        try discriminate.
      cbn in H. injection H as <-. pose proof (IH _ _ Es) as Ts. cbn in *. lia.
    + destruct (decide (involved_aliases p ⊆ ra)); [|injection H as <-; exact Stay].
      destruct (pushdown_helper k (mkNode o (r :: rest) p)) as [sub| |] eqn:Es;
        try discriminate.
      cbn in H. injection H as <-. pose proof (IH _ _ Es) as Ts. cbn in *. lia.
  - destruct (map_run (pushdown_helper k) cs) as [cs'| |] eqn:E; try discriminate.
    cbn in H. injection H as <-. apply tally_children.
    apply (map_run_preserves _ _ _ _ E). apply Forall_forall. intros c _ c'. apply IH.
Qed.

Lemma select_chain_tally w parts pa cur :
  (∀ p, w "Select" p = 0) → tally w (select_chain parts pa cur) = tally w cur.
Proof.
  intros Hw. induction parts as [|q parts IH]; [reflexivity|].
  rewrite select_chain_cons. cbn [tally sum_list_with]. rewrite Hw, IH. lia.
Qed.

Lemma breakup_helper_tally w :
  (∀ p, w "Select" p = 0) →
  ∀ t, well_formed t = true →
       ∀ t', breakup_helper t = Some t' → tally w t' = tally w t.
Proof.
  intros Hw t Ht. pattern t. revert t Ht. apply well_formed_ind.
  intros o cs p Hs Hcs IH t' H.
  destruct (String.eqb o "Select" && Text.contains " AND " (get_pred p)) eqn:E.
  - apply andb_true_iff in E as [Eo Ec]. string_eqs. inversion Hs; subst.
    unfold get_pred in Ec. destruct (pred p) as [s|] eqn:Ep; [|discriminate].
    cbn [default from_option id] in Ec.
    rewrite (breakup_helper_split _ _ _ _ Ep Ec) in H. injection H as <-.
    rewrite select_chain_tally by exact Hw. cbn. rewrite Hw. lia.
  - rewrite (breakup_helper_keep _ _ _ E) in H.
    destruct (map_opt breakup_helper cs) as [cs'|] eqn:Em; [|discriminate].
    cbn in H. injection H as <-. apply tally_children.
    exact (map_opt_preserves _ _ _ _ Em IH).
Qed.

Lemma joinize_helper_tally w :
  (∀ p, w "Select" p = 0) → (∀ p, w "Cross" p = 0) → (∀ p, w "Join" p = 0) →
  ∀ t, well_formed t = true →
       ∀ t', joinize_helper t = Some t' → tally w t' = tally w t.
Proof.
  intros Hws Hwc Hwj t Ht. pattern t. revert t Ht. apply well_formed_ind.
  intros o cs p Hs Hcs IH t' H. cbn [joinize_helper] in H.
  destruct (map_opt joinize_helper cs) as [cs'|] eqn:Em; [|discriminate]. cbn in H.
  pose proof (map_opt_preserves _ _ _ _ Em IH) as F.
  pose proof (tally_children w o cs cs' p F) as Keep.
  destruct (String.eqb o "Select") eqn:Eo; [|injection H as <-; exact Keep].
  string_eqs. inversion Hs; subst.
  inversion F as [|? c' ? ? Tc F0]; subst. inversion F0; subst. cbn in H.
  destruct (String.eqb (op c') "Cross") eqn:Ec; [|injection H as <-; exact Keep].
  destruct (Text.match_equality (get_pred p)) as [[[[g1 g2] g3] g4]|];
    [|injection H as <-; exact Keep].
  destruct c' as [oc csc pc]. cbn [op children] in *. string_eqs.
  destruct csc as [|l [|r [|? ?]]]; try discriminate. injection H as <-.
  cbn in Tc |- *. rewrite Hws, Hwj. rewrite Hwc in Tc. lia.
Qed.

Lemma having_helper_tally w :
  (∀ p, w "Having" p = 0) → (∀ p, w "Select" p = 0) →
  ∀ t, well_formed t = true →
       ∀ t', having_helper t = Some t' → tally w t' = tally w t.
Proof.
  intros Hwh Hws t Ht. pattern t. revert t Ht. apply well_formed_ind.
  intros o cs p Hs Hcs IH t' H. cbn [having_helper] in H.
  destruct (String.eqb o "Having") eqn:Eo.
  - string_eqs. inversion Hs; subst. inversion IH as [|? ? IHg _]; subst.
    destruct (Text.has_aggregate_call (get_pred p)).
    + destruct (having_helper g) as [g'|] eqn:Eg; [|discriminate].
      cbn in H. injection H as <-. pose proof (IHg _ eq_refl). cbn. lia.
    + destruct (having_helper g) as [g'|] eqn:Eg; [|discriminate]. cbn in H.
      pose proof (IHg _ eq_refl) as Tg. destruct g' as [og csg pg].
      cbn [children op props] in H. destruct csg as [|g0 grest]; [discriminate|].
      injection H as <-. cbn in Tg |- *. rewrite Hwh, Hws. lia.
  - destruct (map_opt having_helper cs) as [cs'|] eqn:Em; [|discriminate].
    cbn in H. injection H as <-. apply tally_children.
    exact (map_opt_preserves _ _ _ _ Em IH).
Qed.

Lemma map_state_preserves {A} (m : Node → A)
    (f : Node → gset string → option (Node * gset string)) cs :
  Forall (λ c, ∀ seen c' seen', f c seen = Some (c', seen') → m c' = m c) cs →
  ∀ seen cs' seen', map_state f cs seen = Some (cs', seen') →
                    Forall2 (λ c c', m c' = m c) cs cs'.
Proof.
  induction 1 as [|c cs Hc _ IH]; intros seen cs' seen' H; cbn [map_state] in H.
  - injection H as <- <-. constructor.
  - destruct (f c seen) as [[c' s1]|] eqn:E1; [|discriminate]. cbn in H.
    destruct (map_state f cs s1) as [[cs1 s2]|] eqn:E2; [|discriminate].
    cbn in H. injection H as <- <-. constructor; [exact (Hc _ _ _ E1)|exact (IH _ _ _ E2)].
Qed.

Lemma dedup_helper_tally w :
  (∀ p, w "Select" p = 0) →
  ∀ t, well_formed t = true →
       ∀ seen t' seen', dedup_helper t seen = Some (t', seen') → tally w t' = tally w t.
Proof.
  intros Hws t Ht. pattern t. revert t Ht. apply well_formed_ind.
  intros o cs p Hs Hcs IH seen t' seen' H. cbn [dedup_helper] in H.
  destruct (String.eqb o "Select") eqn:Eo.
  - string_eqs. inversion Hs; subst. inversion IH as [|? ? IHc _]; subst.
    destruct (decide (get_pred p ∈ seen)).
    + rewrite (IHc _ _ _ H). cbn. rewrite Hws. lia.
    + destruct (dedup_helper c ({[get_pred p]} ∪ seen)) as [[c' s1]|] eqn:E1;
        [|discriminate].
      cbn in H. injection H as <- <-. pose proof (IHc _ _ _ E1). cbn. lia.
  - destruct (map_state dedup_helper cs seen) as [[cs' s1]|] eqn:Em; [|discriminate].
    cbn in H. injection H as <- <-. apply tally_children.
    exact (map_state_preserves _ _ _ IH _ _ _ Em).
Qed.

Lemma projection_helper_tally w :
  ∀ t, well_formed t = true →
       ∀ needed t', projection_helper t needed = Some t' →
                    tally w t ≤ tally w t'
                    ∧ ((∀ p, w "Project" p = 0) → tally w t' = tally w t).
Proof.
  intros t Ht. pattern t. revert t Ht. apply well_formed_ind.
  intros o cs p Hs Hcs IH needed t' H.
  assert (∀ c needed',
            Forall (λ c, ∀ needed t', projection_helper c needed = Some t' →
                                       tally w c ≤ tally w t'
                                       ∧ ((∀ p, w "Project" p = 0) → tally w t' = tally w c)) [c] →
            (child ← projection_helper c needed'; Some (mkNode o [child] p)) = Some t' →
            tally w (mkNode o [c] p) ≤ tally w t'
            ∧ ((∀ p, w "Project" p = 0) → tally w t' = tally w (mkNode o [c] p))) as Unary.
  { intros c needed' F E. inversion F as [|? ? Fc _]; subst.
    destruct (projection_helper c needed') as [c'|] eqn:Ec; [|discriminate].
    cbn in E. injection E as <-. destruct (Fc _ _ Ec) as [Le Eq].
    split; [cbn; lia|]. intros Hw. cbn. rewrite (Eq Hw). reflexivity. }
  destruct Hs as [p [a Ha]|c p|c p|c p|c p|g p Hg|l r p|l r p];
    cbn [projection_helper] in H; simpl String.eqb in H; cbn iota in H;
    try (apply (Unary _ _ IH H)).
  - destruct (decide _); [injection H as <-; split; [lia|reflexivity]|].
    rewrite Ha in H. cbn in H.
    destruct (List.filter _ _); injection H as <-; [split; [lia|reflexivity]|].
    split; [cbn; lia|]. intros Hw. cbn. rewrite Hw. lia.
  - inversion IH as [|? ? IHl IH']; subst. inversion IH' as [|? ? IHr _]; subst.
    destruct (side_need needed _ l) as [ln|]; [|discriminate]. cbn in H.
    destruct (side_need needed _ r) as [rn|]; [|discriminate]. cbn in H.
    destruct (projection_helper l ln) as [l'|] eqn:El; [|discriminate]. cbn in H.
    destruct (projection_helper r rn) as [r'|] eqn:Er; [|discriminate]. cbn in H.
    injection H as <-. destruct (IHl _ _ El) as [Ll Ql]. destruct (IHr _ _ Er) as [Lr Qr].
    split; [cbn; lia|]. intros Hw. cbn. rewrite (Ql Hw), (Qr Hw). reflexivity.
  - inversion IH as [|? ? IHl IH']; subst. inversion IH' as [|? ? IHr _]; subst.
    destruct (side_need needed _ l) as [ln|]; [|discriminate]. cbn in H.
    destruct (side_need needed _ r) as [rn|]; [|discriminate]. cbn in H.
    destruct (projection_helper l ln) as [l'|] eqn:El; [|discriminate]. cbn in H.
    destruct (projection_helper r rn) as [r'|] eqn:Er; [|discriminate]. cbn in H.
    injection H as <-. destruct (IHl _ _ El) as [Ll Ql]. destruct (IHr _ _ Er) as [Lr Qr].
    split; [cbn; lia|]. intros Hw. cbn. rewrite (Ql Hw), (Qr Hw). reflexivity.
Qed.

(** ** reorder_joins: what the rebuilt chains look like *)

Lemma all_nodes_tally P t : all_nodes P t = true ↔ tally (failing P) t = 0.
Proof.
  induction t as [o cs p IH] using Node_ind. cbn [all_nodes tally].
  rewrite andb_true_iff, forallb_Forall. unfold failing at 1.
  assert (Forall (λ c, all_nodes P c = true) cs ↔ sum_list_with (tally (failing P)) cs = 0)
    as Hcs.
  { induction IH as [|c cs Hc _ IHcs]; cbn [sum_list_with].
    - split; [reflexivity|constructor].
    - split.
      + intros F. inversion F as [|? ? Fc Fcs]; subst.
        apply Hc in Fc. apply IHcs in Fcs. lia.
      + intros E. constructor; [apply Hc; lia|apply IHcs; lia]. }
  rewrite Hcs. destruct (P o p); split; try lia; intros [? ?]; (lia || discriminate).
Qed.

Lemma collect_factors_leaves n :
  ∀ fs, collect_factors n = Some fs → Forall (λ f, is_join (op f) = false) fs.
Proof.
  induction n as [o cs p IH] using Node_ind. intros fs H. cbn [collect_factors] in H.
  destruct (is_join o) eqn:Ej.
  - destruct cs as [|c0 [|c1 rest]]; try discriminate.
    inversion IH as [|? ? IH0 IH']; subst. inversion IH' as [|? ? IH1 _]; subst.
    destruct (collect_factors c0) as [f0|]; [|discriminate]. cbn in H.
    destruct (collect_factors c1) as [f1|]; [|discriminate]. cbn in H.
    injection H as <-. apply Forall_app. split; [apply IH0|apply IH1]; reflexivity.
  - injection H as <-. constructor; [exact Ej|constructor].
Qed.

Lemma reorder_helper_op k n r :
  is_join (op n) = false → reorder_helper k n = Done r → op r = op n.
Proof.
  destruct k as [|k]; [discriminate|]. destruct n as [o cs p]. cbn [op reorder_helper].
  intros -> H. destruct (map_run (reorder_helper k) cs); try discriminate.
  cbn in H. injection H as <-. reflexivity.
Qed.

Lemma sort_by_selections_Permutation fs fs' :
  sort_by_selections fs = Some fs' → fs' ≡ₚ fs.
Proof.
  unfold sort_by_selections. intros H.
  destruct (map_opt _ fs) as [keyed|] eqn:Em; [|discriminate]. cbn in H. injection H as <-.
  rewrite stable_sort_Permutation.
  apply map_opt_Forall2 in Em. clear -Em.
  induction Em as [|f kf fs keyed Hf _ IH]; [reflexivity|].
  destruct (count_selections f); [|discriminate]. cbn in Hf. injection Hf as <-.
  cbn. rewrite IH. reflexivity.
Qed.

Lemma chain_all_nodes others :
  ∀ first,
    all_nodes bare_join first = true →
    Forall (λ f, all_nodes bare_join f = true) others →
    all_nodes bare_join (foldl join_node first others) = true.
Proof.
  induction others as [|nxt others IH]; intros first Hf Ho; [exact Hf|].
  inversion Ho as [|? ? Hn Ho']; subst. cbn [foldl]. apply IH; [|exact Ho'].
  cbn [join_node all_nodes forallb]. rewrite Hf, Hn. reflexivity.
Qed.

Lemma chain_left_deep others :
  ∀ first,
    left_deep first = true →
    Forall (λ f, left_deep f = true ∧ is_join (op f) = false) others →
    left_deep (foldl join_node first others) = true.
Proof.
  induction others as [|nxt others IH]; intros first Hf Ho; [exact Hf|].
  inversion Ho as [|? ? [Hn Jn] Ho']; subst. cbn [foldl]. apply IH; [|exact Ho'].
  cbn [join_node left_deep forallb]. simpl is_join. cbn iota.
  rewrite Jn, Hf, Hn. reflexivity.
Qed.

(** What [reorder_helper] returns: chains of bare Joins, left-deep. *)
Lemma reorder_helper_rebuilt k :
  ∀ n r, reorder_helper k n = Done r →
         all_nodes bare_join r = true ∧ left_deep r = true.
Proof.
  induction k as [|k IH]; intros n r H; [discriminate|].
  destruct n as [o cs p]. cbn [reorder_helper] in H.
  destruct (is_join o) eqn:Ej.
  - destruct (collect_factors (mkNode o cs p)) as [fs|] eqn:Ef; [|discriminate].
    cbn -[sort_by_selections rebuild_chain] in H.
    destruct (map_run (reorder_helper k) fs) as [fs'| |] eqn:Em; try discriminate.
    cbn -[sort_by_selections rebuild_chain] in H.
    destruct (sort_by_selections fs') as [fs''|] eqn:Es; [|discriminate].
    cbn -[rebuild_chain] in H.
    destruct fs'' as [|first others]; [discriminate|]. cbn in H. injection H as <-.
    assert (Forall (λ f, (all_nodes bare_join f = true ∧ left_deep f = true)
                         ∧ is_join (op f) = false) fs') as Good.
    { pose proof (collect_factors_leaves _ _ Ef) as Lv.
      apply map_run_Forall2 in Em. clear -Em Lv IH.
      induction Em as [|f f' fs fs' Hf _ IHm]; [constructor|].
      inversion Lv as [|? ? L1 L2]; subst. constructor; [|apply IHm, L2].
      split; [exact (IH _ _ Hf)|]. rewrite (reorder_helper_op _ _ _ L1 Hf). exact L1. }
    apply sort_by_selections_Permutation in Es. rewrite <- Es in Good.
    inversion Good as [|? ? [[A1 D1] _] Good']; subst. split.
    + apply chain_all_nodes; [exact A1|].
      eapply Forall_impl; [exact Good'|]. intros f [[A _] _]. exact A.
    + apply chain_left_deep; [exact D1|].
      eapply Forall_impl; [exact Good'|]. intros f [[_ D] J]. split; assumption.
  - destruct (map_run (reorder_helper k) cs) as [cs'| |] eqn:Em; try discriminate.
    cbn in H. injection H as <-.
    assert (Forall (λ c, all_nodes bare_join c = true ∧ left_deep c = true) cs') as Good.
    { apply map_run_Forall2 in Em. clear -Em IH.
      induction Em as [|c c' cs cs' Hc _ IHm]; constructor; [exact (IH _ _ Hc)|exact IHm]. }
    cbn [all_nodes left_deep]. rewrite Ej. unfold bare_join. rewrite Ej. cbn.
    split; apply forallb_Forall; eapply Forall_impl; try exact Good; intros c [A D]; assumption.
Qed.

Lemma collect_factors_tally w :
  (∀ p, w "Cross" p = 0) → (∀ p, w "Join" p = 0) →
  ∀ t, well_formed t = true →
       ∀ fs, collect_factors t = Some fs → sum_list_with (tally w) fs = tally w t.
Proof.
  intros Hwc Hwj t Ht. pattern t. revert t Ht. apply well_formed_ind.
  intros o cs p Hs Hcs IH fs H. cbn [collect_factors] in H.
  destruct (is_join o) eqn:Ej.
  - assert (w o p = 0) as Hw by (destruct (is_join_cases _ Ej) as [-> | ->]; auto).
    assert (∃ l r, cs = [l; r]) as (l & r & ->) by (destruct Hs; try discriminate; eauto).
    inversion IH as [|? ? IHl IH']; subst. inversion IH' as [|? ? IHr _]; subst.
    destruct (collect_factors l) as [fl|]; [|discriminate]. cbn in H.
    destruct (collect_factors r) as [fr|]; [|discriminate]. cbn in H.
    injection H as <-. rewrite sum_list_with_app, (IHl _ eq_refl), (IHr _ eq_refl).
    cbn. lia.
  - injection H as <-. cbn. lia.
Qed.

Lemma chain_tally w others :
  (∀ p, w "Join" p = 0) →
  ∀ first, tally w (foldl join_node first others)
           = tally w first + sum_list_with (tally w) others.
Proof.
  intros Hw. induction others as [|nxt others IH]; intros first; cbn [foldl].
  - cbn. lia.
  - rewrite IH. cbn [join_node tally sum_list_with]. rewrite Hw. lia.
Qed.

Lemma reorder_helper_tally w :
  (∀ p, w "Cross" p = 0) → (∀ p, w "Join" p = 0) →
  ∀ k n, well_formed n = true →
         ∀ r, reorder_helper k n = Done r → tally w r = tally w n.
Proof.
  intros Hwc Hwj. induction k as [|k IH]; intros n Hw r H; [discriminate|].
  destruct n as [o cs p]. cbn [reorder_helper] in H.
  destruct (is_join o) eqn:Ej.
  - destruct (collect_factors_well_formed _ Hw) as (fs & Ef & Wf & _).
    pose proof (collect_factors_tally w Hwc Hwj _ Hw _ Ef) as Tf.
    rewrite Ef in H. cbn -[sort_by_selections rebuild_chain] in H.
    destruct (map_run (reorder_helper k) fs) as [fs'| |] eqn:Em; try discriminate.
    cbn -[sort_by_selections rebuild_chain] in H.
    destruct (sort_by_selections fs') as [fs''|] eqn:Es; [|discriminate].
    cbn -[rebuild_chain] in H.
    destruct fs'' as [|first others]; [discriminate|]. cbn in H. injection H as <-.
    rewrite chain_tally by exact Hwj.
    change (tally w first + sum_list_with (tally w) others)
      with (sum_list_with (tally w) (first :: others)).
    rewrite (sort_by_selections_Permutation _ _ Es), <- Tf.
    apply sum_sizes_Forall2. apply (map_run_preserves _ _ _ _ Em).
    eapply Forall_impl; [exact Wf|]. intros f Wff f' Hf. exact (IH _ Wff _ Hf).
  - apply well_formed_node in Hw as [Hs Hcs].
    destruct (map_run (reorder_helper k) cs) as [cs'| |] eqn:Em; try discriminate.
    cbn in H. injection H as <-. apply tally_children.
    apply (map_run_preserves _ _ _ _ Em).
    eapply Forall_impl; [exact Hcs|]. intros c Wc c' Hc. exact (IH _ Wc _ Hc).
Qed.

(** ** The nodes each pass keeps *)

(** X1.  selection_pushdown only moves nodes: whatever the weight given to
    the kinds and properties, the nodes of the result weigh what the nodes
    of the input weigh, and they are as many. *)
Theorem selection_pushdown_moves_nodes_only (w : string → Props → nat) (n r : Node) :
  selection_pushdown n = Some r →
  tally w r = tally w n ∧ size r = size n.
Proof.
  intros H. apply selection_pushdown_Some in H. split.
  - exact (pushdown_helper_tally w _ _ _ H).
  - exact (proj2 (pushdown_helper_fuel _ n (le_n _)) _ H).
Qed.

Lemma selection_pushdown_moves_nodes_only_witness :
  tally (of_kind "Select")
    (Sample.cross (Sample.select "a.x > y" ["a.x"; "y"] Sample.scan_a) Sample.scan_b)
  = tally (of_kind "Select") Sample.half_qualified
  ∧ size (Sample.cross (Sample.select "a.x > y" ["a.x"; "y"] Sample.scan_a) Sample.scan_b)
    = size Sample.half_qualified.
Proof.
  exact (selection_pushdown_moves_nodes_only (of_kind "Select") Sample.half_qualified
           (Sample.cross (Sample.select "a.x > y" ["a.x"; "y"] Sample.scan_a) Sample.scan_b)
           ltac:(vm_compute; reflexivity)).
Defined.

(** X2.  On a well-formed tree breakup_conjuncts adds Select nodes and does
    nothing else: a weight that is zero on Select nodes gives the result
    the weight of the input. *)
Theorem breakup_conjuncts_adds_selects_only (w : string → Props → nat) (t t' : Node) :
  well_formed t = true → (∀ p, w "Select" p = 0) →
  breakup_conjuncts t = Some t' → tally w t' = tally w t.
Proof. intros Hw H0 H. exact (breakup_helper_tally w H0 t Hw t' H). Qed.

Lemma breakup_conjuncts_adds_selects_only_witness :
  tally (of_kind "Scan")
    (Sample.select "a.x > 5" ["a.x"; "b.y"]
       (Sample.select "b.y < 100" ["a.x"; "b.y"] (Sample.cross Sample.scan_a Sample.scan_b)))
  = tally (of_kind "Scan") Sample.conjunction.
Proof.
  apply (breakup_conjuncts_adds_selects_only (of_kind "Scan") Sample.conjunction).
  - reflexivity.
  - intros p. reflexivity.
  - vm_compute. reflexivity.
Defined.

(** X3.  On a well-formed tree joinize rewrites Select, Cross and Join
    nodes only: a weight that is zero on these three kinds gives the result
    the weight of the input. *)
Theorem joinize_touches_joins_only (w : string → Props → nat) (t t' : Node) :
  well_formed t = true →
  (∀ p, w "Select" p = 0) → (∀ p, w "Cross" p = 0) → (∀ p, w "Join" p = 0) →
  joinize t = Some t' → tally w t' = tally w t.
Proof. intros Hw H1 H2 H3 H. exact (joinize_helper_tally w H1 H2 H3 t Hw t' H). Qed.

Lemma joinize_touches_joins_only_witness :
  tally (of_kind "Scan")
    (mkNode "Join" [Sample.scan_a; Sample.scan_b]
       (join_props (Some "a.x = a.y") ["a.x"] ["a.y"]))
  = tally (of_kind "Scan") Sample.same_side_equality.
Proof.
  apply (joinize_touches_joins_only (of_kind "Scan") Sample.same_side_equality).
  - reflexivity.
  - intros p. reflexivity.
  - intros p. reflexivity.
  - intros p. reflexivity.
  - vm_compute. reflexivity.
Defined.

(** X4.  On a well-formed tree projection_pushdown removes no node and adds
    Project nodes only: no weight decreases, and a weight that is zero on
    Project nodes is kept. *)
Theorem projection_pushdown_adds_projects_only (w : string → Props → nat) (t t' : Node) :
  well_formed t = true → projection_pushdown t = Some t' →
  tally w t ≤ tally w t' ∧ ((∀ p, w "Project" p = 0) → tally w t' = tally w t).
Proof. intros Hw H. exact (projection_helper_tally w t Hw _ t' H). Qed.

Lemma projection_pushdown_adds_projects_only_witness :
  tally (of_kind "Project") Sample.one_column
  ≤ tally (of_kind "Project")
      (Sample.project ["a.x"] (Sample.project ["a.x"] Sample.scan_a))
  ∧ ((∀ p, of_kind "Project" "Project" p = 0) →
     tally (of_kind "Project")
       (Sample.project ["a.x"] (Sample.project ["a.x"] Sample.scan_a))
     = tally (of_kind "Project") Sample.one_column).
Proof.
  apply (projection_pushdown_adds_projects_only (of_kind "Project") Sample.one_column).
  - reflexivity.
  - vm_compute. reflexivity.
Defined.

(** X5.  On a well-formed tree reorder_joins replaces Join and Cross nodes
    only: a weight that is zero on these two kinds gives the result the
    weight of the input. *)
Theorem reorder_joins_replaces_joins_only (w : string → Props → nat) (t t' : Node) :
  well_formed t = true → (∀ p, w "Cross" p = 0) → (∀ p, w "Join" p = 0) →
  reorder_joins t = Some t' → tally w t' = tally w t.
Proof.
  intros Hw H1 H2 H. apply reorder_joins_Some in H.
  exact (reorder_helper_tally w H1 H2 _ t Hw t' H).
Qed.

Lemma reorder_joins_replaces_joins_only_witness :
  tally (of_kind "Select")
    (join_node (Sample.select "b.y < 100" ["b.y"] Sample.scan_b) Sample.scan_a)
  = tally (of_kind "Select")
      (Sample.cross Sample.scan_a (Sample.select "b.y < 100" ["b.y"] Sample.scan_b)).
Proof.
  apply (reorder_joins_replaces_joins_only (of_kind "Select")
           (Sample.cross Sample.scan_a (Sample.select "b.y < 100" ["b.y"] Sample.scan_b))).
  - reflexivity.
  - intros p. reflexivity.
  - intros p. reflexivity.
  - vm_compute. reflexivity.
Defined.

(** X6.  On a well-formed tree having_to_where removes Having nodes and
    adds Select nodes only: a weight that is zero on these two kinds gives
    the result the weight of the input. *)
Theorem having_to_where_touches_having_only (w : string → Props → nat) (t t' : Node) :
  well_formed t = true → (∀ p, w "Having" p = 0) → (∀ p, w "Select" p = 0) →
  having_to_where t = Some t' → tally w t' = tally w t.
Proof. intros Hw H1 H2 H. exact (having_helper_tally w H1 H2 t Hw t' H). Qed.

Lemma having_to_where_touches_having_only_witness :
  tally (of_kind "Group")
    (mkNode "Group" [mkNode "Select" [Sample.scan_a] (pred_props "a.x > 5" ["a.x"])]
       (group_props ["a.x"] []))
  = tally (of_kind "Group")
      (mkNode "Having" [mkNode "Group" [Sample.scan_a] (group_props ["a.x"] [])]
         (pred_props "a.x > 5" ["a.x"])).
Proof.
  apply (having_to_where_touches_having_only (of_kind "Group")
           (mkNode "Having" [mkNode "Group" [Sample.scan_a] (group_props ["a.x"] [])]
              (pred_props "a.x > 5" ["a.x"]))).
  - reflexivity.
  - intros p. reflexivity.
  - intros p. reflexivity.
  - vm_compute. reflexivity.
Defined.

Lemma dedup_selections_removes_selects_only_aux (w : string → Props → nat) (t t' : Node) :
  well_formed t = true → (∀ p, w "Select" p = 0) →
  dedup_selections t = Some t' → tally w t' = tally w t.
Proof.
  unfold dedup_selections. intros Hw H0 H.
  destruct (dedup_helper t ∅) as [[r s]|] eqn:E; [|discriminate].
  cbn in H. injection H as <-. exact (dedup_helper_tally w H0 t Hw _ _ _ E).
Qed.

(** X7.  On a well-formed tree dedup_selections removes Select nodes only:
    a weight that is zero on Select nodes gives the result the weight of
    the input. *)
Theorem dedup_selections_removes_selects_only (w : string → Props → nat) (t t' : Node) :
  well_formed t = true → (∀ p, w "Select" p = 0) →
  dedup_selections t = Some t' → tally w t' = tally w t.
Proof. apply dedup_selections_removes_selects_only_aux. Qed.

Lemma dedup_selections_removes_selects_only_witness :
  tally (of_kind "Scan") (Sample.select "a.x = 1" ["a.x"] Sample.scan_a)
  = tally (of_kind "Scan")
      (Sample.select "a.x = 1" ["a.x"] (Sample.select "a.x = 1" ["a.x"] Sample.scan_a)).
Proof.
  apply (dedup_selections_removes_selects_only (of_kind "Scan")
           (Sample.select "a.x = 1" ["a.x"] (Sample.select "a.x = 1" ["a.x"] Sample.scan_a))).
  - reflexivity.
  - intros p. reflexivity.
  - vm_compute. reflexivity.
Defined.

(** The trees the pipeline goes through, one after the other. *)
Lemma optimize_pipeline_steps t t' :
  well_formed t = true → optimize_pipeline t = Some t' →
  ∃ t1 t2 t3 t4 t5 t6,
    breakup_conjuncts t = Some t1 ∧ well_formed t1 = true
    ∧ selection_pushdown t1 = Some t2 ∧ well_formed t2 = true
    ∧ joinize t2 = Some t3 ∧ well_formed t3 = true
    ∧ projection_pushdown t3 = Some t4 ∧ well_formed t4 = true
    ∧ reorder_joins t4 = Some t5 ∧ well_formed t5 = true
    ∧ having_to_where t5 = Some t6 ∧ well_formed t6 = true
    ∧ dedup_selections t6 = Some t'.
Proof.
  intros H0 H. unfold optimize_pipeline in H.
  destruct (breakup_helper_kept t H0) as (t1 & E1 & K1).
  unfold breakup_conjuncts in *. rewrite E1 in H. cbn in H.
  destruct (selection_pushdown_kept t1 (proj1 K1)) as (t2 & E2 & K2).
  rewrite E2 in H. cbn in H.
  destruct (joinize_helper_kept t2 (proj1 K2)) as (t3 & E3 & K3).
  unfold joinize in *. rewrite E3 in H. cbn in H.
  destruct (projection_pushdown_kept t3 (proj1 K3)) as (t4 & E4 & K4).
  rewrite E4 in H. cbn in H.
  destruct (reorder_joins_kept t4 (proj1 K4)) as (t5 & E5 & K5). rewrite E5 in H. cbn in H.
  destruct (having_helper_kept t5 (proj1 K5)) as (t6 & E6 & K6).
  unfold having_to_where in *. rewrite E6 in H. cbn in H.
  exists t1, t2, t3, t4, t5, t6.
  destruct K1, K2, K3, K4, K5, K6. repeat (split; [assumption|]). exact H.
Qed.

(** X8.  On a well-formed tree the pipeline keeps every node that is no
    Select, Cross, Join, Project or Having, with its properties: the Scan,
    Group and Order nodes of the result are those of the input. *)
Theorem optimize_pipeline_keeps_other_nodes (w : string → Props → nat) (t t' : Node) :
  well_formed t = true →
  (∀ p, w "Select" p = 0) → (∀ p, w "Cross" p = 0) → (∀ p, w "Join" p = 0) →
  (∀ p, w "Project" p = 0) → (∀ p, w "Having" p = 0) →
  optimize_pipeline t = Some t' → tally w t' = tally w t.
Proof.
  intros H0 Hs Hc Hj Hp Hh H.
  destruct (optimize_pipeline_steps t t' H0 H)
    as (t1 & t2 & t3 & t4 & t5 & t6 & E1 & W1 & E2 & W2 & E3 & W3 & E4 & W4
        & E5 & W5 & E6 & W6 & E7).
  rewrite (dedup_selections_removes_selects_only_aux w t6 t' W6 Hs E7).
  rewrite (having_helper_tally w Hh Hs t5 W5 t6 E6).
  apply reorder_joins_Some in E5. rewrite (reorder_helper_tally w Hc Hj _ t4 W4 t5 E5).
  rewrite (proj2 (projection_helper_tally w t3 W3 _ t4 E4) Hp).
  rewrite (joinize_helper_tally w Hs Hc Hj t2 W2 t3 E3).
  apply selection_pushdown_Some in E2. rewrite (pushdown_helper_tally w _ _ _ E2).
  exact (breakup_helper_tally w Hs t H0 t1 E1).
Qed.

Lemma optimize_pipeline_keeps_other_nodes_witness :
  ∃ t', optimize_pipeline Sample.grouped_query = Some t'
        ∧ tally (of_kind "Scan") t' = tally (of_kind "Scan") Sample.grouped_query.
Proof.
  eexists. split; [vm_compute; reflexivity|].
  apply (optimize_pipeline_keeps_other_nodes (of_kind "Scan") Sample.grouped_query).
  - reflexivity.
  - intros p. reflexivity.
  - intros p. reflexivity.
  - intros p. reflexivity.
  - intros p. reflexivity.
  - intros p. reflexivity.
  - vm_compute. reflexivity.
Defined.

(** X9.  Whatever the tree, the result of reorder_joins has no Cross node
    and no Join node with a condition or keys: every chain is rebuilt with
    new Join nodes, which take nothing over from the nodes they replace. *)
Theorem reorder_joins_drops_join_conditions (t t' : Node) :
  reorder_joins t = Some t' →
  all_nodes bare_join t' = true ∧ count_op "Cross" t' = 0.
Proof.
  intros H. apply reorder_joins_Some in H.
  destruct (reorder_helper_rebuilt _ _ _ H) as [A _]. split; [exact A|].
  clear H. induction t' as [o cs p IH] using Node_ind.
  cbn [all_nodes count_op] in *. apply andb_true_iff in A as [Ho Hcs].
  assert (sum_list_with (count_op "Cross") cs = 0) as ->.
  { rewrite forallb_Forall in Hcs. induction IH as [|c cs Hc _ IHcs]; [reflexivity|].
    inversion Hcs as [|? ? H1 H2]; subst. cbn. rewrite (Hc H1), (IHcs H2). reflexivity. }
  destruct (String.eqb o "Cross") eqn:Eo; [|reflexivity].
  string_eqs. discriminate.
Qed.

Lemma reorder_joins_drops_join_conditions_witness :
  all_nodes bare_join (join_node Sample.scan_a Sample.scan_b) = true
  ∧ count_op "Cross" (join_node Sample.scan_a Sample.scan_b) = 0.
Proof.
  exact (reorder_joins_drops_join_conditions
           (mkNode "Join" [Sample.scan_a; Sample.scan_b]
              (join_props (Some "a.id = b.aid") ["a.id"] ["b.aid"]))
           (join_node Sample.scan_a Sample.scan_b)
           ltac:(vm_compute; reflexivity)).
Defined.

(** X10.  Whatever the tree, the result of reorder_joins is left-deep: no
    Join node of the result has a Join or Cross as its second child. *)
Theorem reorder_joins_builds_left_deep_chains (t t' : Node) :
  reorder_joins t = Some t' → left_deep t' = true.
Proof.
  intros H. apply reorder_joins_Some in H. exact (proj2 (reorder_helper_rebuilt _ _ _ H)).
Qed.

Lemma reorder_joins_builds_left_deep_chains_witness :
  left_deep (join_node (join_node Sample.scan_a Sample.scan_b) Sample.scan_c) = true.
Proof.
  exact (reorder_joins_builds_left_deep_chains
           (Sample.cross Sample.scan_a (Sample.cross Sample.scan_b Sample.scan_c))
           (join_node (join_node Sample.scan_a Sample.scan_b) Sample.scan_c)
           ltac:(vm_compute; reflexivity)).
Defined.

(** X11.  On a well-formed tree the result of the whole pipeline has no
    Cross node and no Join node with a condition or keys: the conditions
    that joinize has put on its Join nodes are lost when reorder_joins
    rebuilds the chains, and no later pass brings them back. *)
Theorem optimize_pipeline_drops_join_conditions (t t' : Node) :
  well_formed t = true → optimize_pipeline t = Some t' →
  all_nodes bare_join t' = true.
Proof.
  intros H0 H.
  destruct (optimize_pipeline_steps t t' H0 H)
    as (t1 & t2 & t3 & t4 & t5 & t6 & _ & _ & _ & _ & _ & _ & _ & _
        & E5 & W5 & E6 & W6 & E7).
  apply reorder_joins_Some in E5.
  destruct (reorder_helper_rebuilt _ _ _ E5) as [A5 _].
  apply all_nodes_tally. apply all_nodes_tally in A5.
  rewrite (dedup_selections_removes_selects_only_aux (failing bare_join) t6 t' W6
             ltac:(reflexivity) E7).
  rewrite (having_helper_tally (failing bare_join) ltac:(reflexivity) ltac:(reflexivity)
             t5 W5 t6 E6).
  exact A5.
Qed.

Lemma optimize_pipeline_drops_join_conditions_witness :
  ∃ t', optimize_pipeline Sample.grouped_query = Some t'
        ∧ all_nodes bare_join t' = true.
Proof.
  eexists. split; [vm_compute; reflexivity|].
  apply (optimize_pipeline_drops_join_conditions Sample.grouped_query).
  - reflexivity.
  - vm_compute. reflexivity.
Defined.

(** ** The sort of reorder_joins *)

Section StableSort.
Context {A : Type} (before : A → A → bool).
Hypothesis before_total : ∀ x y, before x y = false → before y x = true.
Hypothesis before_trans : ∀ x y z, before x y = true → before y z = true → before x z = true.

Lemma insert_sorted_sorted x l :
  StronglySorted (λ a b, before a b = true) l →
  StronglySorted (λ a b, before a b = true) (Text.insert_sorted before x l).
Proof.
  induction 1 as [|y l Hl IH Hy]; cbn [Text.insert_sorted].
  - repeat constructor.
  - destruct (before x y) eqn:E.
    + constructor; [constructor; assumption|].
      constructor; [exact E|]. eapply Forall_impl; [exact Hy|].
      intros z Hz. exact (before_trans _ _ _ E Hz).
    + constructor; [exact IH|].
      rewrite (insert_sorted_Permutation before x l).
      constructor; [exact (before_total _ _ E)|exact Hy].
Qed.

Lemma stable_sort_sorted l :
  StronglySorted (λ a b, before a b = true) (Text.stable_sort before l).
Proof.
  induction l as [|x l IH]; [constructor|].
  change (Text.stable_sort before (x :: l))
    with (Text.insert_sorted before x (Text.stable_sort before l)).
  apply insert_sorted_sorted, IH.
Qed.

(** The elements of a class whose members may stand before one another
    keep their order. *)
Lemma stable_sort_stable (P : A → bool) l :
  (∀ x y, P x = true → P y = true → before x y = true) →
  List.filter P (Text.stable_sort before l) = List.filter P l.
Proof.
  intros Tie.
  assert (∀ x l, List.filter P (Text.insert_sorted before x l) = List.filter P (x :: l)) as Ins.
  { intros x. induction l0 as [|y l0 IH]; [reflexivity|]. cbn [Text.insert_sorted].
    destruct (before x y) eqn:E; [reflexivity|].
    cbn [List.filter] in *. rewrite IH.
    destruct (P x) eqn:Px, (P y) eqn:Py; try reflexivity.
    rewrite (Tie _ _ Px Py) in E. discriminate. }
  induction l as [|x l IH]; [reflexivity|].
  change (Text.stable_sort before (x :: l))
    with (Text.insert_sorted before x (Text.stable_sort before l)).
  rewrite Ins. cbn [List.filter]. rewrite IH. reflexivity.
Qed.
End StableSort.

(** Sorting the factors with their keys is sorting the factors. *)
Lemma insert_sorted_keyed (key : Node → nat) f (keyed : list (nat * Node)) :
  Forall (λ kf, fst kf = key (snd kf)) keyed →
  snd <$> Text.insert_sorted (λ x y : nat * Node, fst y <=? fst x) (key f, f) keyed
  = Text.insert_sorted (λ x y, key y <=? key x) f (snd <$> keyed).
Proof.
  induction 1 as [|[k g] keyed Hk _ IH]; [reflexivity|].
  cbn [Text.insert_sorted fmap list_fmap fst snd] in *. subst k.
  destruct (key g <=? key f); [reflexivity|]. cbn [fmap list_fmap snd]. rewrite IH. reflexivity.
Qed.

Lemma stable_sort_keyed (key : Node → nat) l :
  Forall (λ kf : nat * Node, fst kf = key (snd kf))
    (Text.stable_sort (λ x y : nat * Node, fst y <=? fst x) ((λ f, (key f, f)) <$> l))
  ∧ snd <$> Text.stable_sort (λ x y : nat * Node, fst y <=? fst x) ((λ f, (key f, f)) <$> l)
    = Text.stable_sort (λ x y, key y <=? key x) l.
Proof.
  induction l as [|f l [IH1 IH2]]; [split; [constructor|reflexivity]|].
  cbn [fmap list_fmap].
  change (Text.stable_sort ?b (?x :: ?l))
    with (Text.insert_sorted b x (Text.stable_sort b l)).
  split.
  - rewrite insert_sorted_Permutation. constructor; [reflexivity|exact IH1].
  - rewrite (insert_sorted_keyed key f _ IH1), IH2. reflexivity.
Qed.

Lemma sort_by_selections_by_score fs :
  Forall (λ f, well_formed f = true) fs →
  sort_by_selections fs = Some (Text.stable_sort by_score fs).
Proof.
  intros H. unfold sort_by_selections.
  assert (map_opt (λ f, k ← count_selections f; Some (k, f)) fs
          = Some ((λ f, (selections f, f)) <$> fs)) as ->.
  { induction H as [|f fs Hf _ IH]; [reflexivity|].
    cbn [map_opt]. rewrite (count_selections_well_formed _ Hf). cbn.
    rewrite IH. reflexivity. }
  cbn. f_equal. exact (proj2 (stable_sort_keyed selections fs)).
Qed.

Lemma by_score_total x y : by_score x y = false → by_score y x = true.
Proof. unfold by_score. rewrite Nat.leb_gt, Nat.leb_le. lia. Qed.

Lemma by_score_trans x y z : by_score x y = true → by_score y z = true → by_score x z = true.
Proof. unfold by_score. rewrite !Nat.leb_le. lia. Qed.

(** X12.  The factors of a well-formed Join/Cross chain come out of
    reorder_joins sorted by score, the highest first, and factors of equal
    score keep their order: the factors of the result are the results of
    the pass on the factors of the input, stably sorted. *)
Theorem reorder_joins_sorts_by_score (n : Node) (fs : list Node) :
  well_formed n = true → is_join (op n) = true → collect_factors n = Some fs →
  ∃ gs fs' t',
    Forall2 (λ f g, reorder_joins f = Some g) fs gs
    ∧ Forall (λ g, count_selections g = Some (selections g)) gs
    ∧ reorder_joins n = Some t'
    ∧ collect_factors t' = Some fs'
    ∧ fs' ≡ₚ gs
    ∧ StronglySorted (λ x y, selections y ≤ selections x) fs'
    ∧ ∀ k, List.filter (λ f, selections f =? k) fs'
           = List.filter (λ f, selections f =? k) gs.
Proof.
  intros Hw Hj Ef.
  destruct (collect_factors_well_formed _ Hw) as (fs0 & Ef0 & Wf & Jf & Nf & _).
  rewrite Ef in Ef0. injection Ef0 as <-.
  destruct n as [o cs p]. cbn [op] in Hj.
  pose proof (collect_factors_smaller _ _ _ _ Hj Ef) as Hsm.
  set (fuel := sum_list_with size cs).
  destruct (map_run_related
              (λ f f', reorder_helper fuel f = Done f' ∧ reordered f f')
              (reorder_helper fuel) fs) as (gs & Em & Rm).
  { rewrite Forall_forall in Hsm, Wf. apply Forall_forall. intros f Hf.
    specialize (Hsm f Hf). cbn in Hsm.
    destruct (reorder_helper_kept fuel f) as (f' & E & R); [unfold fuel; lia|apply Wf, Hf|].
    eauto. }
  assert (Forall (λ g, well_formed g = true) gs) as Wg.
  { clear -Rm. induction Rm as [|f g fs gs (_ & (W & _) & _) _ IHR]; constructor; assumption. }
  assert (Forall (λ g, is_join (op g) = false) gs) as Jg.
  { clear -Rm Jf. induction Rm as [|f g fs gs (_ & _ & _ & O) _ IHR]; [constructor|].
    inversion Jf as [|? ? J1 J2]; subst.
    constructor; [rewrite (O J1); exact J1|apply IHR; assumption]. }
  pose proof (stable_sort_Permutation by_score gs) as Ps.
  destruct (Text.stable_sort by_score gs) as [|first others] eqn:Esort.
  { apply Permutation_nil_l in Ps. subst gs. inversion Rm; subst. done. }
  exists gs, (first :: others), (foldl join_node first others).
  split; [|split; [|split; [|split; [|split; [|split]]]]].
  - clear -Rm Hsm. induction Rm as [|f g fs gs (E & _) _ IHR]; [constructor|].
    inversion Hsm as [|? ? S1 S2]; subst. constructor; [|apply IHR; assumption].
    apply (reorder_helper_settle fuel); [cbn in S1; unfold fuel; lia|exact E].
  - eapply Forall_impl; [exact Wg|]. intros g. apply count_selections_well_formed.
  - apply reorder_joins_Some. cbn [size]. fold fuel. cbn [reorder_helper].
    rewrite Hj, Ef. cbn -[sort_by_selections rebuild_chain].
    rewrite Em. cbn -[sort_by_selections rebuild_chain].
    rewrite (sort_by_selections_by_score _ Wg), Esort. reflexivity.
  - rewrite <- Ps in Jg. inversion Jg as [|? ? J1 J2]; subst.
    apply (chain_factors others J2 first [first]). apply collect_factors_leaf, J1.
  - exact Ps.
  - rewrite <- Esort.
    pose proof (stable_sort_sorted by_score by_score_total by_score_trans gs) as S.
    clear -S. induction S as [|x l _ IH Hx]; constructor; [exact IH|].
    eapply Forall_impl; [exact Hx|]. intros y Hy. unfold by_score in Hy.
    apply Nat.leb_le in Hy. exact Hy.
  - intros k. rewrite <- Esort. apply stable_sort_stable.
    intros x y Hx Hy. apply Nat.eqb_eq in Hx, Hy. unfold by_score.
    apply Nat.leb_le. lia.
Qed.

Lemma reorder_joins_sorts_by_score_witness :
  ∃ gs fs' t',
    Forall2 (λ f g, reorder_joins f = Some g)
      [Sample.scan_a; Sample.select "b.y < 100" ["b.y"] Sample.scan_b] gs
    ∧ Forall (λ g, count_selections g = Some (selections g)) gs
    ∧ reorder_joins
        (Sample.cross Sample.scan_a (Sample.select "b.y < 100" ["b.y"] Sample.scan_b))
      = Some t'
    ∧ collect_factors t' = Some fs'
    ∧ fs' ≡ₚ gs
    ∧ StronglySorted (λ x y, selections y ≤ selections x) fs'
    ∧ ∀ k, List.filter (λ f, selections f =? k) fs'
           = List.filter (λ f, selections f =? k) gs.
Proof.
  apply (reorder_joins_sorts_by_score
           (Sample.cross Sample.scan_a (Sample.select "b.y < 100" ["b.y"] Sample.scan_b))
           [Sample.scan_a; Sample.select "b.y < 100" ["b.y"] Sample.scan_b]).
  - reflexivity.
  - reflexivity.
  - reflexivity.
Defined.

(** ** dedup_selections: no text twice *)

Lemma keep_first_NoDup seen l : NoDup (keep_first seen l).
Proof.
  revert seen. induction l as [|x l IH]; intros seen; cbn [keep_first]; [constructor|].
  destruct (decide (x ∈ seen)); [apply IH|].
  constructor; [|apply IH]. rewrite keep_first_elem. set_solver.
Qed.

(** X13.  On a tree whose Select nodes have one child, no two Select nodes
    of the result of dedup_selections carry the same predicate text. *)
Theorem dedup_selections_leaves_no_duplicate (t t' : Node) :
  selects_unary t = true → dedup_selections t = Some t' →
  NoDup (select_preds t').
Proof.
  unfold dedup_selections. intros U H.
  destruct (dedup_helper t ∅) as [[r s]|] eqn:E; [|discriminate].
  cbn in H. injection H as <-.
  rewrite (proj1 (dedup_helper_keeps_first t _ _ _ U E)). apply keep_first_NoDup.
Qed.

Lemma dedup_selections_leaves_no_duplicate_witness :
  NoDup (select_preds (Sample.select "a.x = 1" ["a.x"] Sample.scan_a)).
Proof.
  apply (dedup_selections_leaves_no_duplicate
           (Sample.select "a.x = 1" ["a.x"] (Sample.select "a.x = 1" ["a.x"] Sample.scan_a))).
  - reflexivity.
  - vm_compute. reflexivity.
Defined.

(** ** having_to_where: the Having nodes that stay *)

Lemma having_helper_leaves_aggregates t :
  well_formed t = true →
  ∀ t', having_helper t = Some t' → all_nodes aggregate_having t' = true.
Proof.
  intros Ht. pattern t. revert t Ht. apply well_formed_ind.
  intros o cs p Hs Hcs IH t' H. cbn [having_helper] in H.
  destruct (String.eqb o "Having") eqn:Eo.
  - string_eqs. inversion Hs; subst. inversion IH as [|? ? IHg _]; subst.
    destruct (Text.has_aggregate_call (get_pred p)) eqn:Ea.
    + destruct (having_helper g) as [g'|] eqn:Eg; [|discriminate].
      cbn in H. injection H as <-. cbn [all_nodes forallb].
      unfold aggregate_having at 1. rewrite Ea, (IHg _ eq_refl). reflexivity.
    + destruct (having_helper g) as [g'|] eqn:Eg; [|discriminate]. cbn in H.
      pose proof (IHg _ eq_refl) as Ag. destruct g' as [og csg pg].
      cbn [children op props] in H. destruct csg as [|g0 grest]; [discriminate|].
      injection H as <-. cbn [all_nodes forallb] in Ag |- *.
      apply andb_true_iff in Ag as [A0 Ag]. apply andb_true_iff in Ag as [A1 A2].
      rewrite A0, A1, A2. reflexivity.
  - destruct (map_opt having_helper cs) as [cs'|] eqn:Em; [|discriminate].
    cbn in H. injection H as <-. cbn [all_nodes]. unfold aggregate_having at 1.
    rewrite Eo. cbn. apply forallb_Forall. apply map_opt_Forall2 in Em.
    clear -Em IH. induction Em as [|c c' cs cs' Hc _ IHm]; [constructor|].
    inversion IH as [|? ? I1 I2]; subst. constructor; [exact (I1 _ Hc)|exact (IHm I2)].
Qed.

Lemma having_helper_turns_into_selects w t :
  well_formed t = true →
  ∀ t', having_helper t = Some t' → tally w t' = tally (having_as_select w) t.
Proof.
  intros Ht. pattern t. revert t Ht. apply well_formed_ind.
  intros o cs p Hs Hcs IH t' H. cbn [having_helper] in H. cbn [tally].
  unfold having_as_select at 1, aggregate_having.
  destruct (String.eqb o "Having") eqn:Eo.
  - string_eqs. inversion Hs; subst. inversion IH as [|? ? IHg _]; subst.
    cbn [negb orb]. destruct (Text.has_aggregate_call (get_pred p)).
    + destruct (having_helper g) as [g'|] eqn:Eg; [|discriminate].
      cbn in H. injection H as <-. pose proof (IHg _ eq_refl). cbn. lia.
    + destruct (having_helper g) as [g'|] eqn:Eg; [|discriminate]. cbn in H.
      pose proof (IHg _ eq_refl) as Tg. destruct g' as [og csg pg].
      cbn [children op props] in H. destruct csg as [|g0 grest]; [discriminate|].
      injection H as <-. cbn in Tg |- *. lia.
  - destruct (map_opt having_helper cs) as [cs'|] eqn:Em; [|discriminate].
    cbn in H. injection H as <-. cbn [negb orb tally]. f_equal.
    apply map_opt_Forall2 in Em. clear -Em IH.
    induction Em as [|c c' cs cs' Hc _ IHm]; [reflexivity|].
    inversion IH as [|? ? I1 I2]; subst. cbn. rewrite (I1 _ Hc), (IHm I2). reflexivity.
Qed.

(** X14.  On a well-formed tree every Having node that having_to_where
    leaves in the result has a call of an aggregate function in its
    predicate text, and every other Having node of the input has become a
    Select node with the same properties, all other nodes being kept:
    whatever the weight given to the kinds and properties, the nodes of the
    result weigh what the nodes of the input weigh when each Having without
    such a call is weighed as a Select. *)
Theorem having_to_where_leaves_aggregate_havings (t t' : Node) :
  well_formed t = true → having_to_where t = Some t' →
  all_nodes aggregate_having t' = true
  ∧ ∀ w, tally w t' = tally (having_as_select w) t.
Proof.
  intros Hw H. split.
  - exact (having_helper_leaves_aggregates t Hw t' H).
  - intros w. exact (having_helper_turns_into_selects w t Hw t' H).
Qed.

Lemma having_to_where_leaves_aggregate_havings_witness :
  all_nodes aggregate_having
    (mkNode "Group" [mkNode "Select" [Sample.scan_a] (pred_props "a.x > 5" ["a.x"])]
       (group_props ["a.x"] []))
  = true
  ∧ ∀ w, tally w
           (mkNode "Group" [mkNode "Select" [Sample.scan_a] (pred_props "a.x > 5" ["a.x"])]
              (group_props ["a.x"] []))
         = tally (having_as_select w)
             (mkNode "Having" [mkNode "Group" [Sample.scan_a] (group_props ["a.x"] [])]
                (pred_props "a.x > 5" ["a.x"])).
Proof.
  apply (having_to_where_leaves_aggregate_havings
           (mkNode "Having" [mkNode "Group" [Sample.scan_a] (group_props ["a.x"] [])]
              (pred_props "a.x > 5" ["a.x"]))).
  - reflexivity.
  - vm_compute. reflexivity.
Defined.

(** ** joinize: the text decides alone *)

(** X15.  When the child of a Select has become a Cross of [l] and [r],
    joinize turns the Select into a Join of [l] and [r] exactly when the
    predicate text is spaces, a word, a dot, a word, spaces, the equals
    sign, spaces, a word, a dot, a word and spaces; the first pair of words
    becomes the left key and the second the right key, whatever the
    aliases of [l] and [r] are. *)
Theorem joinize_matches_the_text_only (c : Node) (p : Props) (l r : Node) (cp : Props) :
  joinize c = Some (mkNode "Cross" [l; r] cp) →
  (∀ g1 g2 g3 g4,
     Text.equality_text (get_pred p) g1 g2 g3 g4 →
     joinize (mkNode "Select" [c] p)
     = Some (mkNode "Join" [l; r]
               (join_props (Some (get_pred p)) [g1 +:+ "." +:+ g2] [g3 +:+ "." +:+ g4])))
  ∧ ((∀ g1 g2 g3 g4, ¬ Text.equality_text (get_pred p) g1 g2 g3 g4) →
     joinize (mkNode "Select" [c] p)
     = Some (mkNode "Select" [mkNode "Cross" [l; r] cp] p)).
Proof.
  intros H. rewrite (joinize_select_over_cross c p l r cp H). split.
  - intros g1 g2 g3 g4 E. apply TextFacts.match_equality_spec in E. rewrite E. reflexivity.
  - intros N. destruct (Text.match_equality (get_pred p)) as [[[[g1 g2] g3] g4]|] eqn:E;
      [|reflexivity].
    apply TextFacts.match_equality_spec in E. destruct (N _ _ _ _ E).
Qed.

Lemma joinize_matches_the_text_only_witness :
  joinize Sample.same_side_equality
  = Some (mkNode "Join" [Sample.scan_a; Sample.scan_b]
            (join_props (Some "a.x = a.y") ["a.x"] ["a.y"])).
Proof.
  exact (proj1 (joinize_matches_the_text_only
                  (Sample.cross Sample.scan_a Sample.scan_b) (pred_props "a.x = a.y" [])
                  Sample.scan_a Sample.scan_b (join_props None [] [])
                  ltac:(vm_compute; reflexivity))
           "a" "x" "a" "y"
           (proj1 (TextFacts.match_equality_spec "a.x = a.y" "a" "x" "a" "y") eq_refl)).
Defined.

(** ** The Scan nodes and their aliases *)

Lemma map_opt_app {A B} (f : A → option B) l1 l2 :
  map_opt f (l1 ++ l2) = a ← map_opt f l1; b ← map_opt f l2; Some (a ++ b).
Proof.
  induction l1 as [|x l1 IH]; cbn [map_opt app].
  - destruct (map_opt f l2); reflexivity.
  - destruct (f x); [|reflexivity]. cbn. rewrite IH.
    destruct (map_opt f l1); [|reflexivity]. cbn.
    destruct (map_opt f l2); reflexivity.
Qed.

(** X16.  [aliases] returns the set of the aliases of the Scan nodes that
    [_collect_scans] lists, and it raises exactly when one of these Scan
    nodes has no alias. *)
Theorem aliases_of_collected_scans (n : Node) :
  aliases n
  = names ← map_opt (λ s, alias (props s)) (collect_scans n); Some (list_to_set names).
Proof.
  induction n as [o cs p IH] using Node_ind. cbn [aliases collect_scans].
  destruct (String.eqb o "Scan").
  - cbn. destruct (alias p); [|reflexivity]. cbn. f_equal. set_solver.
  - induction IH as [|c cs Hc _ IHcs]; [reflexivity|].
    cbn [map_opt fmap list_fmap concat]. rewrite map_opt_app, Hc.
    destruct (map_opt (λ s, alias (props s)) (collect_scans c)) as [a|]; [|reflexivity].
    cbn. cbn in IHcs.
    destruct (map_opt aliases cs) as [sets|];
      destruct (map_opt (λ s, alias (props s)) (concat (collect_scans <$> cs))) as [b|];
      cbn in IHcs |- *; try discriminate; [|reflexivity].
    injection IHcs as IHcs. f_equal. rewrite list_to_set_app_L, <- IHcs. reflexivity.
Qed.

(** ** needed_attrs *)

Lemma needed_attrs_tally x n : x ∈ needed_attrs n ↔ 0 < tally (naming x) n.
Proof.
  induction n as [o cs p IH] using Node_ind. cbn [needed_attrs tally].
  assert (x ∈ ⋃ (needed_attrs <$> cs) ↔ 0 < sum_list_with (tally (naming x)) cs) as Hcs.
  { induction IH as [|c cs Hc _ IHcs]; cbn; [set_solver by lia|].
    rewrite elem_of_union, Hc, IHcs. lia. }
  rewrite elem_of_union, Hcs. generalize (sum_list_with (tally (naming x)) cs). intros k.
  unfold naming. destruct (decide (x ∈ own_attrs p)); [intuition lia|].
  split; [intros [?|?]; [done|lia]|intros ?; right; lia].
Qed.

(** X17.  selection_pushdown leaves [needed_attrs] as it is: the result
    names the attributes that the input names. *)
Theorem selection_pushdown_keeps_needed_attrs (n r : Node) :
  selection_pushdown n = Some r → needed_attrs r = needed_attrs n.
Proof.
  intros H. apply selection_pushdown_Some in H.
  apply set_eq. intros x. rewrite !needed_attrs_tally.
  rewrite (pushdown_helper_tally (naming x) _ _ _ H). reflexivity.
Qed.

Lemma selection_pushdown_keeps_needed_attrs_witness :
  needed_attrs
    (Sample.cross (Sample.select "a.x > y" ["a.x"; "y"] Sample.scan_a) Sample.scan_b)
  = needed_attrs Sample.half_qualified.
Proof.
  exact (selection_pushdown_keeps_needed_attrs Sample.half_qualified
           (Sample.cross (Sample.select "a.x > y" ["a.x"; "y"] Sample.scan_a) Sample.scan_b)
           ltac:(vm_compute; reflexivity)).
Defined.

(** ** projection_pushdown at a Scan and at a Join *)

Lemma leb_total x y : String.leb x y = false → String.leb y x = true.
Proof. intros H. destruct (String.leb_total x y) as [E|E]; congruence. Qed.

Lemma leb_trans x y z :
  String.leb x y = true → String.leb y z = true → String.leb x z = true.
Proof.
  intros H1 H2. apply Is_true_true. apply Is_true_true in H1, H2.
  exact (transitivity (R := String.le) H1 H2).
Qed.

Lemma sorted_spec l :
  Text.sorted l ≡ₚ l ∧ StronglySorted (λ x y, String.leb x y = true) (Text.sorted l).
Proof.
  split; [apply stable_sort_Permutation|].
  apply stable_sort_sorted; [exact leb_total|exact leb_trans].
Qed.

Lemma projection_helper_scan (cs : list Node) (p : Props) (a : string) (needed : gset string) :
  alias p = Some a → "*" ∉ needed → needed ≠ ∅ →
  ∃ kept,
    (∀ x, x ∈ kept ↔ x ∈ needed ∧ Text.before_dot x = a)
    ∧ NoDup kept
    ∧ StronglySorted (λ x y, String.leb x y = true) kept
    ∧ projection_helper (mkNode "Scan" cs p) needed
      = Some match kept with
             | [] => mkNode "Scan" cs p
             | _ => mkNode "Project" [mkNode "Scan" cs p] (attrs_props kept)
             end.
Proof.
  intros Ha Hstar Hne.
  set (kept0 := List.filter (λ x, String.eqb (Text.before_dot x) a) (elements needed)).
  destruct (sorted_spec kept0) as [Pk Sk].
  exists (Text.sorted kept0). split; [|split; [|split]].
  - intros x. rewrite Pk. unfold kept0.
    rewrite list_elem_of_In, filter_In, <- list_elem_of_In, elem_of_elements, String.eqb_eq.
    reflexivity.
  - rewrite Pk. unfold kept0. apply NoDup_ListNoDup, List.NoDup_filter, NoDup_ListNoDup, NoDup_elements.
  - exact Sk.
  - cbn [projection_helper]. simpl String.eqb. cbn iota.
    destruct (decide ("*" ∈ needed ∨ needed = ∅)) as [[?|?]|_]; [done|done|].
    rewrite Ha. cbn. fold kept0. clearbody kept0. destruct kept0 as [|x ks].
    + reflexivity.
    + destruct (Text.sorted (x :: ks)) eqn:E'; [|rewrite <- E'; reflexivity].
      apply Permutation_nil_l in Pk. discriminate.
Qed.

(** X18.  At a Scan with alias [a] whose need is not empty and holds no
    ["*"], projection_pushdown keeps the needed names whose text before
    the first dot is [a]: when there is none the Scan stays bare, otherwise
    it goes below a Project that lists them once each, in increasing
    order.  A name without a dot is therefore kept only if it is the alias
    itself. *)
Theorem projection_at_a_scan (cs : list Node) (p : Props) (a : string) (needed : gset string) :
  alias p = Some a → "*" ∉ needed → needed ≠ ∅ →
  ∃ kept,
    (∀ x, x ∈ kept ↔ x ∈ needed ∧ Text.before_dot x = a)
    ∧ NoDup kept
    ∧ StronglySorted (λ x y, String.leb x y = true) kept
    ∧ projection_helper (mkNode "Scan" cs p) needed
      = Some match kept with
             | [] => mkNode "Scan" cs p
             | _ => mkNode "Project" [mkNode "Scan" cs p] (attrs_props kept)
             end.
Proof. apply projection_helper_scan. Qed.

Lemma projection_at_a_scan_witness :
  ∃ kept,
    (∀ x, x ∈ kept ↔ x ∈ ({[ "x"; "a.y" ]} : gset string) ∧ Text.before_dot x = "a")
    ∧ NoDup kept
    ∧ StronglySorted (λ x y, String.leb x y = true) kept
    ∧ projection_helper (mkNode "Scan" [] (scan_props "A" "a")) {[ "x"; "a.y" ]}
      = Some match kept with
             | [] => mkNode "Scan" [] (scan_props "A" "a")
             | _ => mkNode "Project" [mkNode "Scan" [] (scan_props "A" "a")]
                      (attrs_props kept)
             end.
Proof.
  apply (projection_at_a_scan [] (scan_props "A" "a") "a" {[ "x"; "a.y" ]}).
  - reflexivity.
  - vm_compute. discriminate.
  - vm_compute. discriminate.
Defined.

Lemma side_need_elem needed keys side n x :
  side_need needed keys side = Some n → x ∈ n →
  (x ∈ needed ∨ x ∈ keys) ∧ ∃ al, aliases side = Some al ∧ Text.before_dot x ∈ al.
Proof.
  unfold side_need. destruct (decide (needed = ∅ ∧ keys = ∅)); [intros [= <-]; set_solver|].
  destruct (aliases side) as [al|]; [|discriminate]. cbn. intros [= <-] Hx.
  apply elem_of_union in Hx as [Hx|Hx]; apply elem_of_filter in Hx as [Hp Hx]; eauto.
Qed.

(** X19.  At a Join or Cross projection_pushdown forwards to a side only
    the names, of the incoming need and of the join keys, whose text before
    the first dot is an alias of that side: a name without a dot, and the
    wildcard ["*"] too, is forwarded to neither side unless it is itself
    an alias. *)
Theorem projection_splits_the_need_by_alias
    (o : string) (l r : Node) (p : Props) (needed : gset string) (t' : Node) :
  is_join o = true →
  projection_helper (mkNode o [l; r] p) needed = Some t' →
  ∃ ln rn l' r',
    t' = mkNode o [l'; r'] p
    ∧ projection_helper l ln = Some l'
    ∧ projection_helper r rn = Some r'
    ∧ (∀ x, x ∈ ln → (x ∈ needed ∨ x ∈ join_keys p)
                     ∧ ∃ al, aliases l = Some al ∧ Text.before_dot x ∈ al)
    ∧ (∀ x, x ∈ rn → (x ∈ needed ∨ x ∈ join_keys p)
                     ∧ ∃ al, aliases r = Some al ∧ Text.before_dot x ∈ al).
Proof.
  intros Hj H. cbn [projection_helper] in H.
  assert (String.eqb o "Scan" = false ∧ String.eqb o "Select" || String.eqb o "Having" = false)
    as [E1 E2].
  { destruct (is_join_cases _ Hj) as [-> | ->]; split; reflexivity. }
  rewrite E1, E2, Hj in H. fold (join_keys p) in H.
  destruct (side_need needed (join_keys p) l) as [ln|] eqn:El; [|discriminate]. cbn in H.
  destruct (side_need needed (join_keys p) r) as [rn|] eqn:Er; [|discriminate]. cbn in H.
  destruct (projection_helper l ln) as [l'|] eqn:Pl; [|discriminate]. cbn in H.
  destruct (projection_helper r rn) as [r'|] eqn:Pr; [|discriminate]. cbn in H.
  injection H as <-. exists ln, rn, l', r'.
  split; [reflexivity|]. split; [exact Pl|]. split; [exact Pr|]. split.
  - intros x. apply (side_need_elem _ _ _ _ _ El).
  - intros x. apply (side_need_elem _ _ _ _ _ Er).
Qed.

Lemma projection_splits_the_need_by_alias_witness :
  ∃ ln rn l' r',
    Sample.cross Sample.scan_a Sample.scan_b
    = mkNode "Cross" [l'; r'] (join_props None [] [])
    ∧ projection_helper Sample.scan_a ln = Some l'
    ∧ projection_helper Sample.scan_b rn = Some r'
    ∧ (∀ x, x ∈ ln → (x ∈ ({[ "*" ]} : gset string) ∨ x ∈ join_keys (join_props None [] []))
                     ∧ ∃ al, aliases Sample.scan_a = Some al ∧ Text.before_dot x ∈ al)
    ∧ (∀ x, x ∈ rn → (x ∈ ({[ "*" ]} : gset string) ∨ x ∈ join_keys (join_props None [] []))
                     ∧ ∃ al, aliases Sample.scan_b = Some al ∧ Text.before_dot x ∈ al).
Proof.
  apply (projection_splits_the_need_by_alias "Cross" Sample.scan_a Sample.scan_b
           (join_props None [] []) {[ "*" ]}).
  - reflexivity.
  - vm_compute. reflexivity.
Defined.

(** * The emitter *)

(** ** strip_selects *)

Lemma well_formed_selects_unary t : well_formed t = true → selects_unary t = true.
Proof.
  revert t. apply well_formed_ind. intros o cs p Hs _ IH. cbn [selects_unary].
  apply andb_true_iff. split; [|apply forallb_Forall, IH].
  destruct Hs; reflexivity.
Qed.

Lemma strip_selects_children cs :
  Forall (λ n, selects_unary n = true →
               ∀ acc, ∃ n', Sqlify.strip_selects n acc = Some (n', acc ++ select_preds n)
                            ∧ stripped n n') cs →
  forallb selects_unary cs = true →
  ∀ acc, ∃ cs', map_state Sqlify.strip_selects cs acc
                = Some (cs', acc ++ concat (select_preds <$> cs))
                ∧ Forall2 stripped cs cs'.
Proof.
  induction 1 as [|c cs Hc _ IH]; intros U acc; cbn [map_state fmap list_fmap concat].
  - exists []. rewrite app_nil_r. split; [reflexivity|constructor].
  - cbn [forallb] in U. apply andb_true_iff in U as [Uc Ucs].
    destruct (Hc Uc acc) as (c' & -> & Sc). cbn.
    destruct (IH Ucs (acc ++ select_preds c)) as (cs' & -> & Scs). cbn.
    exists (c' :: cs'). rewrite app_assoc. split; [reflexivity|]. constructor; assumption.
Qed.

Lemma strip_selects_spec n :
  selects_unary n = true →
  ∀ acc, ∃ n', Sqlify.strip_selects n acc = Some (n', acc ++ select_preds n) ∧ stripped n n'.
Proof.
  induction n as [o cs p IH] using Node_ind. intros U acc.
  cbn [selects_unary] in U. apply andb_true_iff in U as [U1 U2].
  cbn [Sqlify.strip_selects select_preds]. destruct (String.eqb o "Select") eqn:Eo.
  - apply String.eqb_eq in Eo as ->.
    destruct cs as [|c [|? ?]]; try discriminate.
    apply Forall_cons_1 in IH as [Hc _]. cbn [forallb] in U2.
    apply andb_true_iff in U2 as [Uc _].
    destruct (Hc Uc (acc ++ [get_pred p])) as (n' & E & S1 & S2 & _).
    exists n'. cbn [fmap list_fmap concat]. rewrite app_nil_r, E, <- app_assoc.
    split; [reflexivity|]. split; [exact S1|]. split; [|discriminate].
    intros w Hw. rewrite (S2 w Hw). cbn [tally sum_list_with]. rewrite Hw. lia.
  - destruct (strip_selects_children cs IH U2 acc) as (cs' & -> & F). cbn.
    exists (mkNode o cs' p). split; [reflexivity|]. split; [|split].
    + cbn [count_op]. rewrite Eo.
      clear -F. induction F as [|c c' cs cs' (Hc & _) _ IHF]; cbn; [reflexivity|]. lia.
    + intros w Hw. cbn [tally]. f_equal.
      clear -F Hw. induction F as [|c c' cs cs' (_ & Hc & _) _ IHF]; cbn; [reflexivity|].
      rewrite (Hc w Hw), IHF. reflexivity.
    + intros _. cbn. split; [reflexivity|]. split; [reflexivity|].
      symmetry. exact (Forall2_length _ _ _ F).
Qed.

Lemma strip_selects_well_formed n :
  well_formed n = true →
  ∀ acc n' w, Sqlify.strip_selects n acc = Some (n', w) → well_formed n' = true.
Proof.
  intros Hn. pattern n. revert n Hn. apply well_formed_ind.
  intros o cs p Hs Hcs IH acc n' w H.
  cbn [Sqlify.strip_selects] in H. destruct (String.eqb o "Select") eqn:Eo.
  - apply String.eqb_eq in Eo as ->. inversion Hs; subst.
    apply Forall_cons_1 in IH as [Hc _]. exact (Hc _ _ _ H).
  - destruct (map_state Sqlify.strip_selects cs acc) as [[cs' w']|] eqn:E; [|discriminate].
    cbn in H. injection H as <- <-.
    assert (Forall2 (λ c c', well_formed c' = true
                             ∧ (String.eqb (op c) "Select" = false → op c' = op c)) cs cs') as F.
    { clear Hs. revert acc cs' w' E.
      induction IH as [|c cs Hc _ IHcs]; intros acc cs' w' E; cbn [map_state] in E.
      - injection E as <- <-. constructor.
      - apply Forall_cons_1 in Hcs as [Wc Wcs].
        destruct (Sqlify.strip_selects c acc) as [[c' w1]|] eqn:Ec; [|discriminate]. cbn in E.
        destruct (map_state Sqlify.strip_selects cs w1) as [[cs1 w2]|] eqn:E1; [|discriminate].
        cbn in E. injection E as <- <-. constructor; [|exact (IHcs Wcs _ _ _ E1)].
        split; [exact (Hc _ _ _ Ec)|]. intros Hop.
        destruct (strip_selects_spec c (well_formed_selects_unary c Wc) acc)
          as (c2 & E2 & _ & _ & S3).
        rewrite Ec in E2. injection E2 as -> _. apply (S3 Hop). }
    apply well_formed_node. split.
    + destruct Hs; repeat match goal with
                          | H : Forall2 _ (_ :: _) _ |- _ => inversion H; clear H; subst
                          | H : Forall2 _ [] _ |- _ => inversion H; clear H; subst
                          end; try discriminate; try (constructor; assumption); try constructor.
      match goal with H : _ ∧ _ |- _ => destruct H as [_ Hop] end.
      rewrite Hop; [assumption|]. rewrite H. reflexivity.
    + clear -F. induction F as [|c c' cs cs' [Hc _] _ IHF]; constructor; assumption.
Qed.

(** X20.  On a tree whose Select nodes have one child each, strip_selects
    returns: the texts it adds to the WHERE list are the predicate texts of
    the Select nodes in pre-order, the tree it returns has no Select node
    left, and its other nodes are the nodes of the input. *)
Theorem strip_selects_collects_the_predicates (n : Node) (acc : list string) :
  selects_unary n = true →
  ∃ n', Sqlify.strip_selects n acc = Some (n', acc ++ select_preds n)
        ∧ count_op "Select" n' = 0
        ∧ ∀ w, (∀ p, w "Select" p = 0) → tally w n' = tally w n.
Proof.
  intros U. destruct (strip_selects_spec n U acc) as (n' & E & S1 & S2 & _).
  exists n'. auto.
Qed.

Lemma strip_selects_collects_the_predicates_witness :
  ∃ n', Sqlify.strip_selects Sample.half_qualified []
        = Some (n', [] ++ select_preds Sample.half_qualified)
        ∧ count_op "Select" n' = 0
        ∧ ∀ w, (∀ p, w "Select" p = 0) → tally w n' = tally w Sample.half_qualified.
Proof. exact (strip_selects_collects_the_predicates Sample.half_qualified [] eq_refl). Defined.

(** ** sql_from_tree *)

Lemma emit_from_total n : well_formed n = true → is_Some (Sqlify.emit_from n).
Proof.
  revert n. apply well_formed_ind. intros o cs p Hs _ IH.
  destruct Hs; cbn [Sqlify.emit_from]; simpl String.eqb; cbn iota; cbn [orb]; eauto;
    apply Forall_cons_1 in IH as [[a ->] IH]; apply Forall_cons_1 in IH as [[b ->] _];
    cbn; eauto.
Qed.

Lemma descend_well_formed {A} name (read : Props → A) none n :
  arity name = Some 1 → well_formed n = true →
  ∃ a n', Sqlify.descend name read none n = Some (a, n') ∧ well_formed n' = true.
Proof.
  intros Ha H. destruct n as [o cs p]. unfold Sqlify.descend. cbn [op children props].
  destruct (String.eqb o name) eqn:Eo; [|eauto].
  apply String.eqb_eq in Eo as ->. apply well_formed_node in H as [Hs Hcs].
  destruct Hs; vm_compute in Ha; try discriminate;
    apply Forall_cons_1 in Hcs as [Hc _]; cbn; eauto.
Qed.

Lemma sql_clauses_project t : is_Some (Sqlify.sql_clauses t) → project_on_top t = true.
Proof.
  intros [c H]. unfold Sqlify.sql_clauses, Sqlify.descend in H. unfold project_on_top.
  destruct (String.eqb (op t) "Order") eqn:Eo.
  - destruct (children t) as [|c0 rest]; [discriminate|].
    cbn in H. destruct (String.eqb (op c0) "Project"); [|discriminate].
    cbn. apply orb_true_r.
  - cbn in H. destruct (String.eqb (op t) "Project"); [reflexivity|discriminate].
Qed.

Lemma sql_clauses_total t :
  well_formed t = true → project_on_top t = true → is_Some (Sqlify.sql_clauses t).
Proof.
  intros W P. unfold Sqlify.sql_clauses.
  assert (∃ ob n1, Sqlify.descend "Order" (λ p, Some (get_order_by p)) None t = Some (ob, n1)
                   ∧ well_formed n1 = true ∧ String.eqb (op n1) "Project" = true)
    as (ob & n1 & -> & W1 & E1).
  { unfold Sqlify.descend, project_on_top in *. destruct t as [o cs p]. cbn [op children props] in *.
    destruct (String.eqb o "Order") eqn:Eo.
    - apply String.eqb_eq in Eo as ->. cbn in P.
      apply well_formed_node in W as [Hs Hcs]. inversion Hs; subst.
      apply Forall_cons_1 in Hcs as [Hc _]. cbn. eauto 6.
    - rewrite andb_false_l, orb_false_r in P. eauto 6. }
  cbn. rewrite E1. cbn. destruct n1 as [o1 cs1 p1]. cbn [op children props] in *.
  apply String.eqb_eq in E1 as ->. apply well_formed_node in W1 as [Hs Hcs].
  inversion Hs; subst. apply Forall_cons_1 in Hcs as [Wc _]. cbn.
  destruct (descend_well_formed "Having" pred None c eq_refl Wc) as (hv & n2 & -> & W2). cbn.
  destruct (descend_well_formed "Group" (λ p, (Some (get_group_by p), get_aggs p))
              (None, []) n2 eq_refl W2) as (gr & n3 & -> & W3). cbn.
  destruct (strip_selects_spec n3 (well_formed_selects_unary n3 W3) []) as (n4 & E4 & _).
  rewrite E4. cbn.
  destruct (emit_from_total n4 (strip_selects_well_formed n3 W3 _ _ _ E4)) as [f ->].
  cbn. eauto.
Qed.

(** X21.  On a well-formed tree sql_from_tree returns a text exactly when
    a Project is on top, at the root or immediately below a root Order;
    on every other well-formed tree it raises. *)
Theorem sql_from_tree_needs_a_project_on_top (t : Node) :
  well_formed t = true →
  is_Some (Sqlify.sql_from_tree t) ↔ project_on_top t = true.
Proof.
  intros W. unfold Sqlify.sql_from_tree. rewrite fmap_is_Some. split.
  - apply sql_clauses_project.
  - apply sql_clauses_total, W.
Qed.

Lemma sql_from_tree_needs_a_project_on_top_witness :
  is_Some (Sqlify.sql_from_tree Sample.one_column) ↔ project_on_top Sample.one_column = true.
Proof. exact (sql_from_tree_needs_a_project_on_top Sample.one_column eq_refl). Defined.

(** X22.  The driver's two steps compose: on a well-formed tree with a
    Project on top, so on every canonical tree, optimize_pipeline returns a
    tree and sql_from_tree returns a text for it. *)
Theorem pipeline_result_is_emitted (t : Node) :
  well_formed t = true → project_on_top t = true →
  ∃ t' s, optimize_pipeline t = Some t' ∧ Sqlify.sql_from_tree t' = Some s.
Proof.
  intros W P. destruct (optimize_pipeline_kept t W) as (t' & E & W' & _ & _ & P').
  destruct (sql_clauses_total t' W' (P' P)) as [c Hc].
  exists t', (Sqlify.sql_text c). split; [exact E|].
  unfold Sqlify.sql_from_tree. rewrite Hc. reflexivity.
Qed.

Lemma pipeline_result_is_emitted_witness :
  ∃ t' s, optimize_pipeline Sample.grouped_query = Some t'
          ∧ Sqlify.sql_from_tree t' = Some s.
Proof. exact (pipeline_result_is_emitted Sample.grouped_query eq_refl eq_refl). Defined.

Lemma projection_helper_project c0 rest p needed :
  projection_helper (mkNode "Project" (c0 :: rest) p) needed
  = child ← projection_helper c0
              (if decide ("*" ∈ (list_to_set (get_attrs p) : gset string)
                          ∨ (list_to_set (get_attrs p) : gset string) = ∅)
               then needed else list_to_set (get_attrs p));
    Some (mkNode "Project" (child :: rest) p).
Proof. reflexivity. Qed.

Lemma pipeline_on_a_projected_scan rel a cols x :
  x ∈ cols → Text.before_dot x = a → "*" ∉ cols →
  ∃ kept, kept ≠ []
    ∧ optimize_pipeline
        (mkNode "Project" [mkNode "Scan" [] (scan_props rel a)] (attrs_props cols))
      = Some (mkNode "Project"
                [mkNode "Project" [mkNode "Scan" [] (scan_props rel a)] (attrs_props kept)]
                (attrs_props cols)).
Proof.
  intros Hx Ha Hstar.
  destruct (projection_helper_scan [] (scan_props rel a) a (list_to_set cols))
    as (kept & Hk & _ & _ & E); [reflexivity|set_solver|set_solver|].
  exists kept. assert (kept ≠ []) as Hne.
  { intros ->. specialize (Hk x). rewrite elem_of_list_to_set in Hk.
    destruct Hk as [_ Hk]. specialize (Hk (conj Hx Ha)). inversion Hk. }
  split; [exact Hne|].
  set (s := mkNode "Scan" [] (scan_props rel a)) in *.
  set (t := mkNode "Project" [s] (attrs_props cols)).
  assert (breakup_conjuncts t = Some t) as E1 by reflexivity.
  assert (selection_pushdown t = Some t) as E2 by reflexivity.
  assert (joinize t = Some t) as E3 by reflexivity.
  assert (projection_pushdown t
          = Some (mkNode "Project" [mkNode "Project" [s] (attrs_props kept)]
                    (attrs_props cols))) as E4.
  { unfold projection_pushdown, t. cbn [op props]. simpl String.eqb. cbn iota.
    rewrite projection_helper_project. change (get_attrs (attrs_props cols)) with cols.
    destruct (decide _) as [[?|?]|_]; [set_solver|set_solver|].
    rewrite E. destruct kept; [done|reflexivity]. }
  unfold optimize_pipeline. rewrite E1. cbn [mbind option_bind]. rewrite E2.
  cbn [mbind option_bind]. rewrite E3. cbn [mbind option_bind]. rewrite E4.
  reflexivity.
Qed.

(** X23.  For a query over one relation whose select list has no ["*"]
    and names a column [x] qualified by the alias, the pipeline puts a
    Project between the root and the Scan, and the emitter then writes
    [(SUBQ)] where it wrote the relation for the tree before the
    pipeline. *)
Theorem pipeline_hides_a_projected_relation (rel a : string) (cols : list string) (x : string) :
  x ∈ cols → Text.before_dot x = a → "*" ∉ cols →
  let t := mkNode "Project" [mkNode "Scan" [] (scan_props rel a)] (attrs_props cols) in
  Sqlify.from_sql <$> Sqlify.sql_clauses t
  = Some (if Sqlify.truthy (Some a) && negb (String.eqb a rel)
          then Some (rel +:+ " " +:+ a) else Some rel)
  ∧ ∃ t', optimize_pipeline t = Some t'
          ∧ Sqlify.sql_from_tree t'
            = Some ("SELECT " +:+ String.concat ", " cols +:+ Sqlify.newline
                    +:+ "FROM (SUBQ);").
Proof.
  intros Hx Ha Hstar t. split.
  - unfold t. cbn. f_equal.
    destruct (String.eqb_spec a rel) as [->|Hn].
    + rewrite bool_decide_eq_true_2; reflexivity.
    + rewrite bool_decide_eq_false_2; [reflexivity|congruence].
  - destruct (pipeline_on_a_projected_scan rel a cols x Hx Ha Hstar) as (kept & _ & E).
    eexists. split; [exact E|].
    unfold Sqlify.sql_from_tree. cbn. f_equal. unfold Sqlify.sql_text, Sqlify.select_text.
    cbn. rewrite bool_decide_eq_false_2 by (intros ->; inversion Hx).
    rewrite bool_decide_eq_false_2 by exact Hstar. cbn. reflexivity.
Qed.

Lemma pipeline_hides_a_projected_relation_witness :
  Sqlify.from_sql <$> Sqlify.sql_clauses Sample.one_column = Some (Some "A a")
  ∧ ∃ t', optimize_pipeline Sample.one_column = Some t'
          ∧ Sqlify.sql_from_tree t'
            = Some ("SELECT a.x" +:+ Sqlify.newline +:+ "FROM (SUBQ);").
Proof.
  exact (pipeline_hides_a_projected_relation "A" "a" ["a.x"] "a.x"
           ltac:(vm_compute; left) ltac:(reflexivity)
           ltac:(vm_compute; intros H; inversion H as [|? ? ? H']; inversion H')).
Defined.

(** * The textual rewrite of unnesting.py *)

Module UnnestingFacts.
Import Text TextFacts Unnesting.

Lemma match_len_not kw prev s : prefix_ci "NOT" s = false → match_len kw prev s = None.
Proof. intros H. unfold match_len. rewrite H, andb_false_r. reflexivity. Qed.

Lemma sub_go_plain kw repl s :
  mentions_ci "NOT" s = false → ∀ prev, sub_go kw repl 0 prev s = s.
Proof.
  induction s as [|c s IH]; intros H prev; [reflexivity|].
  cbn [mentions_ci] in H. apply orb_false_iff in H as [H1 H2].
  cbn [sub_go]. rewrite (match_len_not _ _ _ H1), (IH H2). reflexivity.
Qed.

Lemma sub_go_fixed kw repl s :
  ∀ prev, no_match kw prev s → sub_go kw repl 0 prev s = s.
Proof.
  induction s as [|c s IH]; intros prev [H1 H2]; [reflexivity|].
  cbn [sub_go]. rewrite H1, (IH _ H2). reflexivity.
Qed.

Lemma sub_go_skip kw repl s :
  ∀ k prev, sub_go kw repl (S k) prev s
            = sub_go kw repl 0 (String.get k s) (drop (S k) s).
Proof.
  induction s as [|c s IH]; intros k prev; [reflexivity|].
  cbn [sub_go]. destruct k as [|k]; [reflexivity|]. rewrite IH. reflexivity.
Qed.

Lemma no_match_drop kw s :
  ∀ prev k c, no_match kw prev s → String.get k s = Some c →
              no_match kw (Some c) (drop (S k) s).
Proof.
  induction s as [|c0 s IH]; intros prev k c [_ H] G; [discriminate|].
  destruct k as [|k]; cbn in G.
  - injection G as <-. exact H.
  - exact (IH _ _ _ H G).
Qed.

Lemma drop_length_le s : ∀ k, String.length (drop k s) ≤ String.length s.
Proof.
  induction s as [|c s IH]; intros [|k]; cbn; try lia. specialize (IH k). lia.
Qed.

Lemma get_app a b : ∀ k, String.get (String.length a + k) (a +:+ b) = String.get k b.
Proof. induction a as [|c a IH]; intros k; [reflexivity|]. cbn. apply IH. Qed.

Lemma same_ci_length a b : same_ci a b = true → String.length b = String.length a.
Proof.
  revert b. induction a as [|x a IH]; intros [|y b] H; cbn in H; try discriminate.
  - reflexivity.
  - apply andb_true_iff in H as [_ H]. cbn. f_equal. apply IH, H.
Qed.

Lemma match_len_paren kw prev s m :
  match_len kw prev s = Some m → ∃ k, m = S k ∧ String.get k s = Some "("%char.
Proof.
  unfold match_len. destruct (word_boundary prev s && prefix_ci "NOT" s) eqn:E; [|discriminate].
  apply andb_true_iff in E as [_ E].
  destruct s as [|c1 [|c2 [|c3 r]]]; cbn in E; try discriminate;
    try (destruct (Ascii.eqb _ _); discriminate);
    try (destruct (Ascii.eqb _ _); [destruct (Ascii.eqb _ _)|]; discriminate).
  cbn [drop]. destruct (span is_space r) as [sp1 r1] eqn:S1.
  destruct (is_empty sp1); [discriminate|].
  destruct (prefix_ci kw r1) eqn:P; [|discriminate].
  destruct (span is_space (drop (String.length kw) r1)) as [sp2 r2] eqn:S2.
  destruct r2 as [|c r3]; [discriminate|].
  destruct (Ascii.eqb_spec c "("%char) as [->|Hc];
    [|destruct c as [[] [] [] [] [] [] [] []]; try discriminate; exfalso; apply Hc; reflexivity].
  intros [= <-].
  apply span_spec in S1 as (-> & _ & _).
  apply prefix_ci_spec in P as (txt & r1' & -> & Hci).
  rewrite (drop_same_ci _ _ _ Hci) in S2. apply span_spec in S2 as (-> & _ & _).
  exists (3 + String.length sp1 + String.length kw + String.length sp2). split; [lia|].
  rewrite <- (same_ci_length _ _ Hci).
  change (3 + String.length sp1 + String.length txt + String.length sp2)
    with (S (S (S (String.length sp1 + String.length txt + String.length sp2)))).
  cbn [String.get].
  replace (String.length sp1 + String.length txt + String.length sp2)
    with (String.length sp1 + (String.length txt + (String.length sp2 + 0))) by lia.
  rewrite !get_app. reflexivity.
Qed.

(** *** Looking ahead in the scanned text *)

Lemma annotated_prefix pat :
  all_chars (λ c, negb (Ascii.eqb (upper c) " ")) pat = true →
  ∀ s o, annotated s o → prefix_ci pat o = true →
         prefix_ci pat s = true
         ∧ annotated (drop (String.length pat) s) (drop (String.length pat) o).
Proof.
  induction pat as [|a pat IH]; intros Hp s o A P; [split; [reflexivity|exact A]|].
  cbn [all_chars] in Hp. apply andb_true_iff in Hp as [Ha Hp].
  destruct A as [|c s o A|s o]; cbn [prefix_ci] in P |- *.
  - discriminate.
  - destruct (Ascii.eqb (upper a) (upper c)); [|discriminate]. cbn [String.length drop].
    exact (IH Hp _ _ A P).
  - change (upper " ") with " "%char in P. destruct (Ascii.eqb (upper a) " "); discriminate.
Qed.

Lemma annotated_span s o :
  annotated s o →
  ∀ sp r, span is_space o = (sp, r) →
          (∃ rs, span is_space s = (sp, rs) ∧ annotated rs r) ∨ (∃ r', r = String "/" r').
Proof.
  induction 1 as [|c s o A IH|s o]; intros sp r E.
  - injection E as <- <-. left. exists EmptyString. split; [reflexivity|constructor].
  - cbn [span] in E |- *. destruct (is_space c).
    + destruct (span is_space o) as [a b]. injection E as <- <-.
      destruct (IH _ _ eq_refl) as [(rs & -> & Ar)|R]; [left|right; exact R].
      exists rs. split; [reflexivity|exact Ar].
    + injection E as <- <-. left. exists (String c s). split; [reflexivity|].
      constructor. exact A.
  - cbn in E. injection E as <- <-. right. eauto.
Qed.

Lemma match_len_local kw prev s o m :
  letters kw → annotated s o → match_len kw prev o = Some m → match_len kw prev s = Some m.
Proof.
  intros [L1 L2] A. unfold match_len.
  destruct (word_boundary prev o && prefix_ci "NOT" o) eqn:E; [|discriminate].
  apply andb_true_iff in E as [B P].
  destruct (annotated_prefix "NOT" eq_refl _ _ A P) as [Ps A3].
  assert (word_boundary prev s = true) as ->.
  { destruct A; [exact B|exact B|discriminate]. }
  rewrite Ps. cbn [andb]. change (String.length "NOT") with 3 in A3.
  destruct (span is_space (drop 3 o)) as [sp1 r1] eqn:S1.
  destruct (annotated_span _ _ A3 _ _ S1) as [(rs1 & -> & A1)|[r' ->]].
  - destruct (is_empty sp1); [discriminate|].
    destruct (prefix_ci kw r1) eqn:Pk; [|discriminate].
    destruct (annotated_prefix kw L1 _ _ A1 Pk) as [-> Ak].
    destruct (span is_space (drop (String.length kw) r1)) as [sp2 r2] eqn:S2.
    destruct (annotated_span _ _ Ak _ _ S2) as [(rs2 & -> & A2)|[r' ->]].
    + destruct A2 as [|c rs2 r2 A2|rs2 r2]; [discriminate|intros H; exact H|discriminate].
    + discriminate.
  - destruct (is_empty sp1); [discriminate|]. rewrite L2. discriminate.
Qed.

Lemma annotated_sub_go kw tail s :
  ∀ prev, annotated s (sub_go kw (String " " (String "/" tail)) 0 prev s).
Proof.
  induction s as [|c s IH]; intros prev; [constructor|]. cbn [sub_go].
  destruct (match_len kw prev (String c s)); [apply annotated_mark|].
  constructor. apply IH.
Qed.

Lemma letters_IN : letters "IN".
Proof. split; reflexivity. Qed.

Lemma letters_EXISTS : letters "EXISTS".
Proof. split; reflexivity. Qed.

(** *** No match is left *)

Lemma sub_go_no_match kw' kw tail :
  letters kw' →
  (∀ prev o, no_match kw' (Some "("%char) o
             → no_match kw' prev (String " " (String "/" tail) +:+ o)) →
  ∀ n s prev,
    String.length s ≤ n →
    kw' = kw ∨ no_match kw' prev s →
    no_match kw' prev (sub_go kw (String " " (String "/" tail)) 0 prev s).
Proof.
  intros L Hsafe. induction n as [|n IH]; intros s prev Hn H.
  - destruct s; [|cbn in Hn; lia]. split; [apply match_len_not; reflexivity|exact I].
  - destruct s as [|c s]; [split; [apply match_len_not; reflexivity|exact I]|].
    cbn in Hn. cbn [sub_go].
    destruct (match_len kw prev (String c s)) as [m|] eqn:E.
    + destruct (match_len_paren _ _ _ _ E) as (k & -> & G). apply Hsafe.
      replace (S k - 1) with k by lia. destruct k as [|k].
      * cbn in G. injection G as ->. apply IH; [lia|].
        destruct H as [H|[_ H]]; [left; exact H|right; exact H].
      * rewrite sub_go_skip. cbn in G. rewrite G. apply IH.
        -- pose proof (drop_length_le s (S k)). lia.
        -- destruct H as [H|[_ H]]; [left; exact H|right].
           exact (no_match_drop _ _ _ _ _ H G).
    + split.
      * assert (match_len kw' prev (String c s) = None) as E'.
        { destruct H as [->|[H _]]; assumption. }
        destruct (match_len kw' prev (String c (sub_go kw _ 0 (Some c) s))) as [m|] eqn:E2;
          [|reflexivity].
        rewrite (match_len_local kw' prev (String c s) _ m L
                   (annotated_same _ _ _ (annotated_sub_go kw tail s (Some c))) E2) in E'.
        discriminate.
      * apply IH; [lia|]. destruct H as [H|[_ H]]; [left; exact H|right; exact H].
Qed.

Lemma mark_IN_safe kw prev o :
  no_match kw (Some "("%char) o → no_match kw prev (" /*ANTI_IN*/ IN (" +:+ o).
Proof.
  intros H. repeat (split; [apply match_len_not; reflexivity|]). exact H.
Qed.

Lemma mark_EXISTS_safe kw prev o :
  no_match kw (Some "("%char) o → no_match kw prev (" /*ANTI_EXISTS*/ EXISTS (" +:+ o).
Proof.
  intros H. repeat (split; [apply match_len_not; reflexivity|]). exact H.
Qed.
End UnnestingFacts.

(** X24.  A text in which the letters NOT do not occur, in any mix of
    upper and lower case, is returned as it is: the rewrite only touches
    negated IN and EXISTS, and leaves [a IN (SELECT ...)] alone. *)
Theorem unnest_exists_in_needs_a_NOT (sql_str : string) :
  Unnesting.mentions_ci "NOT" sql_str = false →
  Unnesting.unnest_exists_in sql_str = sql_str.
Proof.
  intros H. unfold Unnesting.unnest_exists_in, Unnesting.re_sub.
  rewrite (UnnestingFacts.sub_go_plain _ _ _ H). apply UnnestingFacts.sub_go_plain, H.
Qed.

Lemma unnest_exists_in_needs_a_NOT_witness :
  Unnesting.unnest_exists_in "SELECT * FROM A WHERE a IN (SELECT x FROM B)"
  = "SELECT * FROM A WHERE a IN (SELECT x FROM B)".
Proof.
  exact (unnest_exists_in_needs_a_NOT "SELECT * FROM A WHERE a IN (SELECT x FROM B)" eq_refl).
Defined.

(** X25.  In the text that unnest_exists_in returns neither pattern
    matches any more, the pattern of NOT IN and the pattern of NOT EXISTS,
    at no position; so the rewrite of a rewritten text changes nothing. *)
Theorem unnest_exists_in_idempotent (sql_str : string) :
  Unnesting.no_match "IN" None (Unnesting.unnest_exists_in sql_str)
  ∧ Unnesting.no_match "EXISTS" None (Unnesting.unnest_exists_in sql_str)
  ∧ Unnesting.unnest_exists_in (Unnesting.unnest_exists_in sql_str)
    = Unnesting.unnest_exists_in sql_str.
Proof.
  unfold Unnesting.unnest_exists_in, Unnesting.re_sub.
  set (s1 := Unnesting.sub_go "IN" " /*ANTI_IN*/ IN (" 0 None sql_str).
  set (s2 := Unnesting.sub_go "EXISTS" " /*ANTI_EXISTS*/ EXISTS (" 0 None s1).
  assert (Unnesting.no_match "IN" None s1) as N1.
  { apply (UnnestingFacts.sub_go_no_match "IN" "IN" "*ANTI_IN*/ IN ("
             UnnestingFacts.letters_IN (UnnestingFacts.mark_IN_safe "IN")
             (String.length sql_str)); [lia|left; reflexivity]. }
  assert (Unnesting.no_match "IN" None s2) as N2.
  { apply (UnnestingFacts.sub_go_no_match "IN" "EXISTS" "*ANTI_EXISTS*/ EXISTS ("
             UnnestingFacts.letters_IN (UnnestingFacts.mark_EXISTS_safe "IN")
             (String.length s1)); [lia|right; exact N1]. }
  assert (Unnesting.no_match "EXISTS" None s2) as N3.
  { apply (UnnestingFacts.sub_go_no_match "EXISTS" "EXISTS" "*ANTI_EXISTS*/ EXISTS ("
             UnnestingFacts.letters_EXISTS (UnnestingFacts.mark_EXISTS_safe "EXISTS")
             (String.length s1)); [lia|left; reflexivity]. }
  split; [exact N2|]. split; [exact N3|].
  rewrite (UnnestingFacts.sub_go_fixed _ _ _ _ N2).
  apply UnnestingFacts.sub_go_fixed, N3.
Qed.

(** ** The emitter on canonical trees *)

Lemma concat_snoc sep l x :
  l ≠ [] → String.concat sep (l ++ [x]) = String.concat sep l +:+ sep +:+ x.
Proof.
  induction l as [|y [|z l] IH]; intros H; [done|reflexivity|].
  change (String.concat sep ((y :: z :: l) ++ [x]))
    with (y +:+ sep +:+ String.concat sep ((z :: l) ++ [x])).
  rewrite IH by done.
  change (String.concat sep (y :: z :: l)) with (y +:+ sep +:+ String.concat sep (z :: l)).
  rewrite !TextFacts.append_assoc. reflexivity.
Qed.

Lemma scan_leaf_emitted n :
  is_scan_leaf n = true →
  is_Some (Sqlify.emit_from n) ∧ collect_scans n = [n] ∧ select_preds n = []
  ∧ ∀ acc, Sqlify.strip_selects n acc = Some (n, acc).
Proof.
  destruct n as [o cs p]. unfold is_scan_leaf. cbn [op children props].
  intros H. apply andb_true_iff in H as [H _]. apply andb_true_iff in H as [Ho Hc].
  apply String.eqb_eq in Ho as ->. destruct cs; [|discriminate].
  split; [cbn; eauto|]. repeat split.
Qed.

Lemma cross_chain_emitted n :
  is_cross_chain n = true →
  (∃ v, Sqlify.emit_from n = Some v
        ∧ Sqlify.fmt v = String.concat ", " (from_text <$> collect_scans n))
  ∧ collect_scans n ≠ [] ∧ select_preds n = []
  ∧ ∀ acc, Sqlify.strip_selects n acc = Some (n, acc).
Proof.
  induction n as [o cs p IH] using Node_ind. cbn [is_cross_chain].
  destruct (String.eqb o "Cross") eqn:Eo.
  - apply String.eqb_eq in Eo as ->. destruct cs as [|l [|r [|? ?]]]; try discriminate.
    intros H. apply andb_true_iff in H as [Hl Hr].
    apply Forall_cons_1 in IH as [IHl _].
    destruct (IHl Hl) as ((vl & El & Tl) & Nl & Pl & Sl).
    destruct (scan_leaf_emitted r Hr) as ([vr Er] & Cr & Pr & Sr).
    split; [|split; [|split]].
    + exists (Some (Sqlify.fmt vl +:+ ", " +:+ Sqlify.fmt vr)). split.
      * cbn [Sqlify.emit_from]. simpl String.eqb. cbn iota. cbn [orb andb].
        rewrite El, Er. reflexivity.
      * cbn [collect_scans]. simpl String.eqb. cbn iota. cbn [fmap list_fmap concat].
        fold collect_scans. rewrite Cr, app_nil_r, fmap_app. cbn [fmap list_fmap].
        rewrite concat_snoc by (intros E; apply fmap_nil_inv in E; done).
        unfold from_text at 2. rewrite Er, <- Tl. reflexivity.
    + cbn [collect_scans]. simpl String.eqb. cbn iota. cbn [fmap list_fmap concat].
      fold collect_scans. rewrite Cr. intros E. apply app_eq_nil in E as [E _]. done.
    + cbn [select_preds]. simpl String.eqb. cbn iota. cbn [fmap list_fmap concat].
      fold select_preds. rewrite Pl, Pr. reflexivity.
    + intros acc. cbn [Sqlify.strip_selects]. simpl String.eqb. cbn iota.
      cbn [map_state]. rewrite Sl. cbn. rewrite Sr. reflexivity.
  - intros H. destruct (scan_leaf_emitted _ H) as ([v Ev] & C & P & S).
    split; [|split; [|split]]; try assumption.
    + exists v. split; [exact Ev|]. rewrite C. cbn [fmap list_fmap String.concat].
      unfold from_text. rewrite Ev. reflexivity.
    + rewrite C. done.
Qed.

Lemma select_chain_emitted n :
  is_select_chain n = true →
  ∃ b, is_cross_chain b = true ∧ collect_scans n = collect_scans b
       ∧ ∀ acc, Sqlify.strip_selects n acc = Some (b, acc ++ select_preds n).
Proof.
  induction n as [o cs p IH] using Node_ind. cbn [is_select_chain].
  destruct (String.eqb o "Select") eqn:Eo.
  - apply String.eqb_eq in Eo as ->. destruct cs as [|c [|? ?]]; try discriminate.
    intros H. apply Forall_cons_1 in IH as [IHc _].
    destruct (IHc H) as (b & Hb & Cb & Sb). exists b. split; [exact Hb|]. split.
    + cbn [collect_scans]. simpl String.eqb. cbn iota. cbn [fmap list_fmap concat].
      fold collect_scans. rewrite app_nil_r. exact Cb.
    + intros acc. cbn [Sqlify.strip_selects select_preds]. simpl String.eqb. cbn iota.
      cbn [fmap list_fmap concat]. fold select_preds.
      rewrite Sb, app_nil_r, <- app_assoc. reflexivity.
  - intros H. exists (mkNode o cs p). split; [exact H|]. split; [reflexivity|].
    destruct (cross_chain_emitted _ H) as (_ & _ & P & S). intros acc.
    rewrite P, app_nil_r. apply S.
Qed.

Lemma grouped_emitted n :
  is_grouped n = true →
  ∃ hv n2 gr n3 b f,
    Sqlify.descend "Having" pred None n = Some (hv, n2)
    ∧ Sqlify.descend "Group" (λ p, (Some (get_group_by p), get_aggs p)) (None, []) n2
      = Some (gr, n3)
    ∧ Sqlify.strip_selects n3 [] = Some (b, select_preds n)
    ∧ Sqlify.emit_from b = Some f
    ∧ Sqlify.fmt f = String.concat ", " (from_text <$> collect_scans n).
Proof.
  assert (∀ g, is_group_over_selects g = true →
               ∃ gr n3 b f,
                 Sqlify.descend "Group" (λ p, (Some (get_group_by p), get_aggs p)) (None, []) g
                 = Some (gr, n3)
                 ∧ Sqlify.strip_selects n3 [] = Some (b, select_preds g)
                 ∧ Sqlify.emit_from b = Some f
                 ∧ Sqlify.fmt f = String.concat ", " (from_text <$> collect_scans g)) as HG.
  { intros [o cs p]. unfold is_group_over_selects, Sqlify.descend. cbn [op children props].
    intros H. apply andb_true_iff in H as [Ho Hc]. apply String.eqb_eq in Ho as ->.
    destruct cs as [|c [|? ?]]; try discriminate.
    destruct (select_chain_emitted c Hc) as (b & Hb & Cb & Sb).
    destruct (cross_chain_emitted b Hb) as ((f & Ef & Tf) & _).
    exists (Some (get_group_by p), get_aggs p), c, b, f. simpl String.eqb. cbn iota.
    split; [reflexivity|]. split; [|split; [exact Ef|]].
    - rewrite Sb. cbn [select_preds]. simpl String.eqb. cbn iota.
      cbn [fmap list_fmap concat app]. rewrite app_nil_r. reflexivity.
    - rewrite Tf, <- Cb. cbn [collect_scans]. simpl String.eqb. cbn iota.
      cbn [fmap list_fmap concat]. rewrite app_nil_r. reflexivity. }
  destruct n as [o cs p]. unfold is_grouped. cbn [op children props].
  destruct (String.eqb o "Having") eqn:Eh.
  - apply String.eqb_eq in Eh as ->. destruct cs as [|g [|? ?]]; try discriminate.
    intros H. destruct (HG g H) as (gr & n3 & b & f & E1 & E2 & E3 & E4).
    exists (pred p), g, gr, n3, b, f. split; [reflexivity|]. split; [exact E1|].
    split; [|split; [exact E3|]].
    + rewrite E2. cbn [select_preds]. simpl String.eqb. cbn iota.
      cbn [fmap list_fmap concat app]. rewrite app_nil_r. reflexivity.
    + rewrite E4. cbn [collect_scans]. simpl String.eqb. cbn iota.
      cbn [fmap list_fmap concat]. rewrite app_nil_r. reflexivity.
  - destruct (String.eqb o "Group") eqn:Eg.
    + intros H. destruct (HG _ H) as (gr & n3 & b & f & E1 & E2 & E3 & E4).
      exists None, (mkNode o cs p), gr, n3, b, f.
      split; [unfold Sqlify.descend; cbn [op]; rewrite Eh; reflexivity|]. auto.
    + intros H. destruct (select_chain_emitted _ H) as (b & Hb & Cb & Sb).
      destruct (cross_chain_emitted b Hb) as ((f & Ef & Tf) & _).
      exists None, (mkNode o cs p), (None, []), (mkNode o cs p), b, f.
      split; [unfold Sqlify.descend; cbn [op]; rewrite Eh; reflexivity|].
      split; [unfold Sqlify.descend; cbn [op]; rewrite Eg; reflexivity|].
      split; [apply Sb|]. split; [exact Ef|]. rewrite Tf, Cb. reflexivity.
Qed.

Lemma projected_emitted n ob :
  is_projected n = true →
  ∃ c, (if negb (String.eqb (op n) "Project") then None
        else
          let select_attrs := get_attrs (props n) in
          n ← head (children n);
          '(having, n) ← Sqlify.descend "Having" pred None n;
          '(grouping, n) ← Sqlify.descend "Group"
                              (λ p, (Some (get_group_by p), get_aggs p)) (None, []) n;
          '(n, where_preds) ← Sqlify.strip_selects n [];
          from_sql ← Sqlify.emit_from n;
          Some (Sqlify.mkClauses (Sqlify.select_text select_attrs (snd grouping)) from_sql
                  where_preds (fst grouping) having ob)) = Some c
       ∧ Sqlify.where_preds c = select_preds n
       ∧ Sqlify.fmt (Sqlify.from_sql c) = String.concat ", " (from_text <$> collect_scans n)
       ∧ Sqlify.order_by c = ob.
Proof.
  destruct n as [o cs p]. unfold is_projected. cbn [op children props].
  intros H. apply andb_true_iff in H as [Ho Hc]. apply String.eqb_eq in Ho as ->.
  destruct cs as [|c [|? ?]]; try discriminate.
  destruct (grouped_emitted c Hc) as (hv & n2 & gr & n3 & b & f & E1 & E2 & E3 & E4 & E5).
  simpl String.eqb. cbn [negb head mbind option_bind].
  rewrite E1. cbn [mbind option_bind]. rewrite E2. cbn [mbind option_bind].
  rewrite E3. cbn [mbind option_bind]. rewrite E4. cbn [mbind option_bind].
  eexists. split; [reflexivity|]. cbn [Sqlify.where_preds Sqlify.from_sql Sqlify.order_by].
  split; [|split; [|reflexivity]].
  - cbn [select_preds]. simpl String.eqb. cbn iota.
    cbn [fmap list_fmap concat app]. rewrite app_nil_r. reflexivity.
  - rewrite E5. cbn [collect_scans]. simpl String.eqb. cbn iota.
    cbn [fmap list_fmap concat]. rewrite app_nil_r. reflexivity.
Qed.

(** X26.  For a canonical tree sql_from_tree returns; the WHERE list holds
    the predicate texts of the Select nodes, the outermost first, and the
    FROM text lists the Scan nodes from left to right, each as emit_from
    writes it, separated by a comma and a space. *)
Theorem canonical_tree_is_emitted (t : Node) :
  canonical t = true →
  ∃ c, Sqlify.sql_clauses t = Some c
       ∧ Sqlify.sql_from_tree t = Some (Sqlify.sql_text c)
       ∧ Sqlify.where_preds c = select_preds t
       ∧ Sqlify.fmt (Sqlify.from_sql c) = String.concat ", " (from_text <$> collect_scans t).
Proof.
  intros H.
  assert (∃ c, Sqlify.sql_clauses t = Some c
               ∧ Sqlify.where_preds c = select_preds t
               ∧ Sqlify.fmt (Sqlify.from_sql c)
                 = String.concat ", " (from_text <$> collect_scans t)) as (c & E & W & F).
  { destruct t as [o cs p]. unfold canonical in H. cbn [op children] in H.
    unfold Sqlify.sql_clauses.
    destruct (String.eqb o "Order") eqn:Eo.
    - apply String.eqb_eq in Eo as ->. destruct cs as [|n [|? ?]]; try discriminate.
      change (Sqlify.descend "Order" (λ p, Some (get_order_by p)) None (mkNode "Order" [n] p))
        with (Some (Some (get_order_by p), n)).
      cbn [mbind option_bind].
      destruct (projected_emitted n (Some (get_order_by p)) H) as (c & E & W & F & _).
      exists c. split; [exact E|]. split.
      + rewrite W. cbn [select_preds]. simpl String.eqb. cbn iota.
        cbn [fmap list_fmap concat app]. rewrite app_nil_r. reflexivity.
      + rewrite F. cbn [collect_scans]. simpl String.eqb. cbn iota.
        cbn [fmap list_fmap concat]. rewrite app_nil_r. reflexivity.
    - assert (Sqlify.descend "Order" (λ p, Some (get_order_by p)) None (mkNode o cs p)
              = Some (None, mkNode o cs p)) as ->
        by (unfold Sqlify.descend; cbn [op]; rewrite Eo; reflexivity).
      cbn [mbind option_bind].
      destruct (projected_emitted _ None H) as (c & E & W & F & _).
      exists c. split; [exact E|]. split; assumption. }
  exists c. split; [exact E|]. split; [|split; assumption].
  unfold Sqlify.sql_from_tree. rewrite E. reflexivity.
Qed.

Lemma canonical_tree_is_emitted_witness :
  ∃ c, Sqlify.sql_clauses Sample.grouped_query = Some c
       ∧ Sqlify.sql_from_tree Sample.grouped_query = Some (Sqlify.sql_text c)
       ∧ Sqlify.where_preds c = select_preds Sample.grouped_query
       ∧ Sqlify.fmt (Sqlify.from_sql c)
         = String.concat ", " (from_text <$> collect_scans Sample.grouped_query).
Proof. exact (canonical_tree_is_emitted Sample.grouped_query eq_refl). Defined.

(** * Further properties of breakup_conjuncts *)

Lemma select_chain_plain parts pa cur :
  Forall (λ q, Text.contains " AND " q = false) parts →
  all_nodes plain (select_chain parts pa cur) = all_nodes plain cur.
Proof.
  induction 1 as [|q parts Hq _ IH]; [reflexivity|].
  rewrite select_chain_cons. cbn [all_nodes forallb]. rewrite IH, andb_true_r.
  unfold plain, is_conjunction. cbn. change (get_pred (pred_props q pa)) with q.
  rewrite Hq. reflexivity.
Qed.

Lemma breakup_helper_plain t : all_nodes plain t = true → breakup_helper t = Some t.
Proof.
  induction t as [o cs p IH] using Node_ind. cbn [all_nodes breakup_helper].
  intros H. apply andb_true_iff in H as [Hp Hcs]. unfold plain in Hp.
  apply negb_true_iff in Hp. unfold is_conjunction in Hp. rewrite Hp.
  rewrite map_opt_id; [reflexivity|].
  apply forallb_Forall in Hcs. clear Hp.
  induction IH as [|c cs Hc _ IHcs]; [constructor|].
  apply Forall_cons_1 in Hcs as [H1 H2]. constructor; auto.
Qed.

(** X27.  breakup_conjuncts does not visit the subtree below a Select that
    it splits.  So its result is free of Select nodes with [" AND "] in
    their text exactly when, in the input, no such Select has another one
    somewhere below it; and on a tree that is free of them the pass changes
    nothing. *)
Theorem breakup_conjuncts_stops_below_a_split (t t' : Node) :
  breakup_conjuncts t = Some t' →
  (all_nodes plain t' = true ↔ shielded t = true)
  ∧ (all_nodes plain t' = true → breakup_conjuncts t' = Some t').
Proof.
  unfold breakup_conjuncts. intros H. split; [|apply breakup_helper_plain].
  revert t' H. induction t as [o cs p IH] using Node_ind. intros t' H.
  cbn [breakup_helper shielded] in *. fold (is_conjunction o p) in *.
  destruct (is_conjunction o p) eqn:E.
  - destruct (pred p) as [s|]; [|discriminate]. cbn in H.
    destruct cs as [|c rest]; [discriminate|]. injection H as <-.
    rewrite select_chain_plain by apply TextFacts.re_split_AND_free. reflexivity.
  - destruct (map_opt breakup_helper cs) as [cs'|] eqn:M; [|discriminate].
    cbn in H. injection H as <-. cbn [all_nodes]. unfold plain at 1. rewrite E. cbn [negb andb].
    apply map_opt_Forall2 in M. clear E.
    induction M as [|c c' cs cs' Hc _ IHM]; [reflexivity|].
    apply Forall_cons_1 in IH as [IHc IHcs]. cbn [forallb].
    rewrite !andb_true_iff, (IHc _ Hc), (IHM IHcs). reflexivity.
Qed.

Lemma breakup_conjuncts_stops_below_a_split_witness :
  (all_nodes plain
     (Sample.select "a.x > 5" ["a.x"; "b.y"]
        (Sample.select "b.y < 100" ["a.x"; "b.y"] (Sample.cross Sample.scan_a Sample.scan_b)))
   = true
   ↔ shielded Sample.conjunction = true)
  ∧ (all_nodes plain
       (Sample.select "a.x > 5" ["a.x"; "b.y"]
          (Sample.select "b.y < 100" ["a.x"; "b.y"] (Sample.cross Sample.scan_a Sample.scan_b)))
     = true
     → breakup_conjuncts
         (Sample.select "a.x > 5" ["a.x"; "b.y"]
            (Sample.select "b.y < 100" ["a.x"; "b.y"]
               (Sample.cross Sample.scan_a Sample.scan_b)))
       = Some (Sample.select "a.x > 5" ["a.x"; "b.y"]
                 (Sample.select "b.y < 100" ["a.x"; "b.y"]
                    (Sample.cross Sample.scan_a Sample.scan_b)))).
Proof.
  exact (breakup_conjuncts_stops_below_a_split Sample.conjunction _ eq_refl).
Defined.
